(** * sqlmeta: the unified schema model, the dialect conversion layer and the
    diff engine of package [xmeta], embedded in Rocq.

    Sources followed: [diff.go] (DiffDatabase, diffTable, diffColumns,
    diffConstraints and their helpers), [diff_types.go] (the SchemaChange
    implementations and SortChanges) and [convert.go] (the *ToMetaTable,
    *ToColumnDef and *ToTableConstraint functions).

    The message types ([MetaTable], [ColumnDef], [PGTable], ...) are generated
    from the .proto files; the records below carry the fields shown in the
    README's excerpts of [types.proto] and the fields the Go code reads or
    writes.

    Conventions of the embedding.
    - A Go pointer that the code tests against nil is an [option]; a pointer that
      the code dereferences without a test is the value itself.
    - A Go [map[string]V] is a [gmap string V]; a nil map and an empty map are
      both [∅] (the code only reads [len], lookups and [range] from them).
    - A [for k, v := range m] loop visits the entries of [m] in an order the Go
      runtime chooses anew at every loop.  The order is supplied by a [Schedule];
      every executed [range] statement consumes one tick of a counter, so that
      two loops over the same map may see two different orders.
    - Go [int] priorities are [Z]. *)

From stdpp Require Import base option list sorting strings gmap fin_maps.

Local Open Scope string_scope.
Local Open Scope list_scope.

(** ** Messages of [types.proto] that do not depend on [DataType] *)

(** [ObjectName]: [repeated string Idents]. *)
Record ObjectName := { Idents : list string }.

(** [google.protobuf.Any]: a type URL and the serialized payload. *)
Record Any := { TypeUrl : string; Value : string }.

Inductive ReferentialAction :=
| ReferentialAction_Unknown | ReferentialAction_Cascade | ReferentialAction_SetNull
| ReferentialAction_SetDefault | ReferentialAction_Restrict | ReferentialAction_NoAction.

Inductive MatchOption :=
| MatchOption_Unknown | MatchOption_Full | MatchOption_Partial | MatchOption_Simple.

Inductive AutoIncrement := AutoIncrement_AutoIncrementConfirm.

(** [ColumnConstraintSpec]: the oneof {UniqueItem, NotNullItem}. *)
Inductive ColumnConstraintSpec :=
| ColumnConstraintSpec_UniqueItem (IsPrimaryKey : bool)
| ColumnConstraintSpec_NotNullItem.

Record ColumnConstraint := {
  cc_Name : string;
  cc_Spec : option ColumnConstraintSpec }.

Record UniqueTableConstraint := {
  uq_IsPrimary : bool;
  uq_Columns : list string;
  uq_IndexName : string }.

Record ReferenceKeyExpr := {
  rk_TableName : string;
  rk_Columns : list string }.

Record ReferentialTableConstraint := {
  ref_Columns : list string;
  ref_KeyExpr : option ReferenceKeyExpr;
  ref_OnUpdate : ReferentialAction;
  ref_OnDelete : ReferentialAction;
  ref_Match : MatchOption }.

(** [TableConstraintSpec]: the oneof {UniqueItem, CheckItem, ReferenceItem};
    [TableConstraintSpec_NotSet] is a spec message whose clause is unset. *)
Inductive TableConstraintSpec :=
| TableConstraintSpec_UniqueItem (u : UniqueTableConstraint)
| TableConstraintSpec_CheckItem (e : option Any)
| TableConstraintSpec_ReferenceItem (r : ReferentialTableConstraint)
| TableConstraintSpec_NotSet.

Record TableConstraint := {
  tc_Name : string;
  tc_Spec : option TableConstraintSpec }.

(** [TableConstraintSpec.GetReferenceItem], nil-safe on the receiver. *)
Definition GetReferenceItem (s : option TableConstraintSpec)
  : option ReferentialTableConstraint :=
  match s with
  | Some (TableConstraintSpec_ReferenceItem r) => Some r
  | _ => None
  end.

Definition GetUniqueItem (s : option TableConstraintSpec)
  : option UniqueTableConstraint :=
  match s with
  | Some (TableConstraintSpec_UniqueItem u) => Some u
  | _ => None
  end.

#[global] Instance ObjectName_eq_dec : EqDecision ObjectName.
Proof. solve_decision. Defined.
#[global] Instance Any_eq_dec : EqDecision Any.
Proof. solve_decision. Defined.

(** ** The iteration order of Go maps *)

(** A schedule gives, for the [n]-th [range] statement executed, the order in
    which the keys of the map are visited; it may only rearrange them. *)
Record Schedule := {
  shuffle : nat → list string → list string;
  shuffle_perm : ∀ n ks, shuffle n ks ≡ₚ ks }.

(** Computations that execute [range] statements thread the tick counter. *)
Definition Ranging (A : Type) : Type := nat → A * nat.

Definition ret {A} (a : A) : Ranging A := λ n, (a, n).
Definition bind {A B} (m : Ranging A) (f : A → Ranging B) : Ranging B :=
  λ n, let '(a, n') := m n in f a n'.

Notation "x <~ m ;; k" := (bind m (λ x, k))
  (at level 100, m at next level, k at level 200, right associativity).

(** [for k, v := range m]: the entries of [m] in the scheduled order. *)
Definition range {V} (σ : Schedule) (m : gmap string V)
  : Ranging (list (string * V)) :=
  λ n, (omap (λ k, (k,.) <$> m !! k) (shuffle σ n (map_to_list m).*1), S n).

(** A loop whose body appends to the accumulated slice [changes]. *)
Definition for_append {A B} (l : list A) (body : A → list B)
  (changes : list B) : list B :=
  foldl (λ acc x, acc ++ body x) changes l.

(** The same loop when the body itself executes [range] statements. *)
Fixpoint for_appendM {A B} (l : list A) (body : A → Ranging (list B))
  (changes : list B) : Ranging (list B) :=
  match l with
  | [] => ret changes
  | x :: l' => cs <~ body x;; for_appendM l' body (changes ++ cs)
  end.

(** Two schedules: every loop in the order in which the map enumerates its
    keys, and every loop in the opposite order. *)
Definition inOrder : Schedule :=
  {| shuffle := λ _ ks, ks;
     shuffle_perm := λ _ ks, reflexivity ks |}.

Definition reversed : Schedule :=
  {| shuffle := λ _ ks, reverse ks;
     shuffle_perm := λ _ ks, reverse_Permutation ks |}.

(** The scalar type clauses the loaders of the package produce; the worked
    examples take them as [DataType]. *)
Inductive ScalarType := IntData | BigIntData | BooleanData | TextData.

#[global] Instance ScalarType_eq_dec : EqDecision ScalarType.
Proof. solve_decision. Defined.

Section Model.

(** [DataType] is a generated protobuf message whose declaration is not part of
    the sources followed here.  The diff engine only compares two values of it
    with [proto.Equal], which is value equality on messages, so the type is a
    parameter with decidable equality. *)
Context {DataType : Type} `{EqDecision DataType}.

(** ** The unified model *)

Record ColumnDef := {
  col_Name : string;
  col_DataType : option DataType;
  col_Default : option Any;
  col_Comment : string;
  col_Options : gmap string string;
  col_Constraints : list ColumnConstraint;
  col_MyDecos : list AutoIncrement }.

(** [TableElement]: the oneof {ColumnDefElement, TableConstraintElement}.
    The column wrapper may hold a nil [*ColumnDef] (the converters store the
    result of a column conversion without testing it); [TableElement_NotSet]
    stands for an element without clause and for a nil [*TableElement], on both
    of which the two getters return nil. *)
Inductive TableElement :=
| TableElement_ColumnDefElement (c : option ColumnDef)
| TableElement_TableConstraintElement (tc : TableConstraint)
| TableElement_NotSet.

Definition GetColumnDefElement (e : TableElement) : option ColumnDef :=
  match e with TableElement_ColumnDefElement c => c | _ => None end.

Definition GetTableConstraintElement (e : TableElement) : option TableConstraint :=
  match e with TableElement_TableConstraintElement tc => Some tc | _ => None end.

Record MetaTable := {
  tbl_Name : option ObjectName;
  tbl_Type : string;
  tbl_Elements : list TableElement;
  tbl_Comment : string;
  tbl_Options : gmap string string }.

Record MetaDatabase := {
  db_Name : string;
  db_Tables : list MetaTable }.

(** [MetaDatabase.GetTables], nil-safe on the receiver. *)
Definition GetTables (db : option MetaDatabase) : list MetaTable :=
  match db with Some d => db_Tables d | None => [] end.

(** ** [diff_types.go]: schema changes *)

Inductive SchemaChange :=
| AddTable (Table : MetaTable)
| DropTable (TableName : option ObjectName)
| AlterTableOptions (TableName : option ObjectName)
    (OldOptions NewOptions : gmap string string) (OldComment NewComment : string)
| AddColumn (TableName : option ObjectName) (Column : ColumnDef)
| DropColumn (TableName : option ObjectName) (ColumnName : string)
| AlterColumn (TableName : option ObjectName) (OldColumn NewColumn : ColumnDef)
| AddConstraint (TableName : option ObjectName) (Constraint : TableConstraint)
| DropConstraint (TableName : option ObjectName) (ConstraintName : string)
    (IsForeignKey : bool).

Definition IsDestructive (c : SchemaChange) : bool :=
  match c with
  | AddTable _ => false
  | DropTable _ => true
  | AlterTableOptions _ _ _ _ _ => false
  | AddColumn _ _ => false
  | DropColumn _ _ => true
  | AlterColumn _ _ _ => true
  | AddConstraint _ _ => false
  | DropConstraint _ _ _ => false
  end.

Definition Priority (c : SchemaChange) : Z :=
  match c with
  | AddTable _ => 40
  | DropTable _ => 30
  | AlterTableOptions _ _ _ _ _ => 70
  | AddColumn _ _ => 50
  | DropColumn _ _ => 20
  | AlterColumn _ _ _ => 70
  | AddConstraint _ _ => 60
  | DropConstraint _ _ IsForeignKey => if IsForeignKey then 5 else 10
  end.

(** The body of the inner loop of [SortChanges]:
    [if changes[i].Priority() > changes[j].Priority() { swap }]. *)
Definition swap_step (i : nat) (changes : list SchemaChange) (j : nat)
  : list SchemaChange :=
  match changes !! i, changes !! j with
  | Some ci, Some cj =>
      if (Priority ci >? Priority cj)%Z
      then <[j:=ci]> (<[i:=cj]> changes)
      else changes
  | _, _ => changes
  end.

(** [for j := i + 1; j < len(changes); j++]. *)
Definition sort_inner (len : nat) (changes : list SchemaChange) (i : nat)
  : list SchemaChange :=
  foldl (swap_step i) changes (seq (S i) (len - S i)).

(** [SortChanges]: [for i := 0; i < len(changes); i++] around the inner loop.
    The slice is sorted in place; the model returns its final contents. *)
Definition SortChanges (changes : list SchemaChange) : list SchemaChange :=
  foldl (sort_inner (length changes)) changes (seq 0 (length changes)).

(** ** [diff.go]: helper functions *)

(** [p != nil] for a pointer modelled as an option. *)
Definition notNil {A} (p : option A) : bool :=
  match p with Some _ => true | None => false end.

(** [tableName] extracts the simple table name from an ObjectName. *)
Definition tableName (on : option ObjectName) : string :=
  match on with
  | None => ""
  | Some o =>
      if bool_decide (length (Idents o) = 0) then ""
      else default "" (Idents o !! (length (Idents o) - 1))
  end.

(** [tablesByName] creates a map of tables keyed by their simple name. *)
Definition tablesByName (tables : list MetaTable) : gmap string MetaTable :=
  foldl (λ m t, <[tableName (tbl_Name t) := t]> m) ∅ tables.

(** [columnsFromElements] extracts columns from TableElements into a map. *)
Definition columnsFromElements (elems : list TableElement) : gmap string ColumnDef :=
  foldl (λ m elem,
           match GetColumnDefElement elem with
           | Some col => <[col_Name col := col]> m
           | None => m
           end) ∅ elems.

(** [constraintsFromElements] extracts named constraints from TableElements. *)
Definition constraintsFromElements (elems : list TableElement)
  : gmap string TableConstraint :=
  foldl (λ m elem,
           match GetTableConstraintElement elem with
           | Some tc =>
               if bool_decide (tc_Name tc ≠ "") then <[tc_Name tc := tc]> m else m
           | None => m
           end) ∅ elems.

(** [proto.Equal] on two message pointers of the same message type: two nil
    pointers are equal, a nil and a non-nil pointer are not, two non-nil ones
    are compared by value. *)
Definition proto_Equal {M} `{EqDecision M} (a b : option M) : bool :=
  bool_decide (a = b).

(** [columnsEqual] compares two ColumnDefs for equality. *)
Definition columnsEqual (a b : ColumnDef) : bool :=
  if bool_decide (col_Name a ≠ col_Name b) then false
  else if bool_decide (col_Comment a ≠ col_Comment b) then false
  else if negb (proto_Equal (col_DataType a) (col_DataType b)) then false
  else if negb (proto_Equal (col_Default a) (col_Default b)) then false
  else true.

(** [mapsEqual] compares two string maps.  The loop returns false at the first
    entry of [a] that [b] lacks or maps elsewhere, and true when there is none. *)
Definition mapsEqual (σ : Schedule) (a b : gmap string string) : Ranging bool :=
  if bool_decide (size a ≠ size b) then ret false
  else
    es <~ range σ a;;
    ret (forallb (λ '(k, v),
                    match b !! k with
                    | Some bv => negb (bool_decide (bv ≠ v))
                    | None => false
                    end) es).

(** ** [diff.go]: the diff engine *)

(** [diffColumns] compares column lists and returns changes. *)
Definition diffColumns (σ : Schedule) (tableName : option ObjectName)
  (current desired : gmap string ColumnDef) : Ranging (list SchemaChange) :=
  let changes := [] in
  (* Find columns to drop *)
  es <~ range σ current;;
  let changes :=
    for_append es (λ '(name, _),
      match desired !! name with
      | None => [DropColumn tableName name]
      | Some _ => []
      end) changes in
  (* Find columns to add *)
  es <~ range σ desired;;
  let changes :=
    for_append es (λ '(name, desCol),
      match current !! name with
      | None => [AddColumn tableName desCol]
      | Some _ => []
      end) changes in
  (* Find columns to alter *)
  es <~ range σ desired;;
  let changes :=
    for_append es (λ '(name, desCol),
      match current !! name with
      | Some currCol =>
          if negb (columnsEqual currCol desCol)
          then [AlterColumn tableName currCol desCol]
          else []
      | None => []
      end) changes in
  ret changes.

(** [diffConstraints] compares constraint lists and returns changes. *)
Definition diffConstraints (σ : Schedule) (tableName : option ObjectName)
  (current desired : gmap string TableConstraint) : Ranging (list SchemaChange) :=
  let changes := [] in
  (* Find constraints to drop *)
  es <~ range σ current;;
  let changes :=
    for_append es (λ '(name, currCon),
      match desired !! name with
      | None => [DropConstraint tableName name
                   (notNil (GetReferenceItem (tc_Spec currCon)))]
      | Some _ => []
      end) changes in
  (* Find constraints to add *)
  es <~ range σ desired;;
  let changes :=
    for_append es (λ '(name, desCon),
      match current !! name with
      | None => [AddConstraint tableName desCon]
      | Some _ => []
      end) changes in
  ret changes.

(** [diffTable] compares two tables and returns the changes. *)
Definition diffTable (σ : Schedule) (current desired : MetaTable)
  : Ranging (list SchemaChange) :=
  let changes := [] in
  (* Compare table-level options and comments; [||] evaluates its right operand
     only when the comments agree. *)
  differ <~ (if bool_decide (tbl_Comment current ≠ tbl_Comment desired)
             then ret true
             else eq <~ mapsEqual σ (tbl_Options current) (tbl_Options desired);;
                  ret (negb eq));;
  let changes :=
    if (differ : bool)
    then changes ++ [AlterTableOptions (tbl_Name desired)
                       (tbl_Options current) (tbl_Options desired)
                       (tbl_Comment current) (tbl_Comment desired)]
    else changes in
  (* Extract columns and constraints from elements *)
  let currentCols := columnsFromElements (tbl_Elements current) in
  let desiredCols := columnsFromElements (tbl_Elements desired) in
  let currentConstraints := constraintsFromElements (tbl_Elements current) in
  let desiredConstraints := constraintsFromElements (tbl_Elements desired) in
  (* Diff columns *)
  colChanges <~ diffColumns σ (tbl_Name desired) currentCols desiredCols;;
  let changes := changes ++ colChanges in
  (* Diff constraints *)
  constraintChanges <~
    diffConstraints σ (tbl_Name desired) currentConstraints desiredConstraints;;
  let changes := changes ++ constraintChanges in
  ret changes.

(** The changes emitted for a table that is in [current] but not in [desired]:
    a DropConstraint for every table-constraint element, then the DropTable. *)
Definition dropTableChanges (currTable : MetaTable) : list SchemaChange :=
  for_append (tbl_Elements currTable) (λ elem,
    match GetTableConstraintElement elem with
    | Some tc => [DropConstraint (tbl_Name currTable) (tc_Name tc)
                    (notNil (GetReferenceItem (tc_Spec tc)))]
    | None => []
    end) []
  ++ [DropTable (tbl_Name currTable)].

(** The body of [DiffDatabase] up to the call of [SortChanges]. *)
Definition diffDatabaseChanges (σ : Schedule)
  (current desired : option MetaDatabase) : Ranging (list SchemaChange) :=
  let changes := [] in
  (* Build maps for efficient lookup *)
  let currentTables := tablesByName (GetTables current) in
  let desiredTables := tablesByName (GetTables desired) in
  (* Find tables to drop (in current but not in desired) *)
  es <~ range σ currentTables;;
  let changes :=
    for_append es (λ '(name, currTable),
      match desiredTables !! name with
      | None => dropTableChanges currTable
      | Some _ => []
      end) changes in
  (* Find tables to add (in desired but not in current) *)
  es <~ range σ desiredTables;;
  let changes :=
    for_append es (λ '(name, desTable),
      match currentTables !! name with
      | None => [AddTable desTable]
      | Some _ => []
      end) changes in
  (* Find tables that exist in both and diff them *)
  es <~ range σ desiredTables;;
  for_appendM es (λ '(name, desTable),
    match currentTables !! name with
    | Some currTable => diffTable σ currTable desTable
    | None => ret []
    end) changes.

(** [DiffDatabase] compares two MetaDatabase states and returns the changes
    needed to transform [current] into [desired].  The first [range] statement
    of a run is number 0. *)
Definition DiffDatabase (σ : Schedule) (current desired : option MetaDatabase)
  : list SchemaChange :=
  SortChanges (diffDatabaseChanges σ current desired 0).1.

(** ** [convert.go]: the dialect conversion layer *)

(** Two library functions are parameters of the conversion layer:
    [strings.ToUpper] and the wire encoding of a [wrapperspb.StringValue]
    (what [anypb.New] stores in the [Value] field of the envelope). *)
Context (strings_ToUpper : string → string).
Context (marshalStringValue : string → string).

(** The dialect-native messages, with the fields the converters read.
    Entries of [Columns], [Constraints] and [ForeignKeys] may be nil (the
    converters test for it); entries of [Indexes] are dereferenced directly. *)
Record PGColumn := {
  pgc_Name : string;
  pgc_DataType : option DataType;
  pgc_IsNullable : bool;
  pgc_DefaultValue : string;
  pgc_IsPrimaryKey : bool;
  pgc_Comment : string;
  pgc_IsIdentity : bool;
  pgc_IdentityGeneration : string;
  pgc_IsGenerated : bool;
  pgc_GenerationExpression : string;
  pgc_IdentitySequence : string }.

Record PGConstraint := {
  pgk_Name : string;
  pgk_Type : string;
  pgk_Columns : list string;
  pgk_Definition : string }.

Record PGForeignKey := {
  pgf_Name : string;
  pgf_LocalColumns : list string;
  pgf_ForeignTable : option ObjectName;
  pgf_ForeignColumns : list string;
  pgf_OnUpdate : string;
  pgf_OnDelete : string;
  pgf_MatchOption : string }.

Record PGIndex := {
  pgi_Name : string;
  pgi_IsUnique : bool;
  pgi_IsPrimary : bool }.

Record PGTable := {
  pgt_Name : option ObjectName;
  pgt_TableType : string;
  pgt_Comment : string;
  pgt_Owner : string;
  pgt_Persistence : string;
  pgt_HasRowSecurity : bool;
  pgt_RowSecurityForced : bool;
  pgt_Columns : list (option PGColumn);
  pgt_Constraints : list (option PGConstraint);
  pgt_ForeignKeys : list (option PGForeignKey);
  pgt_Indexes : list PGIndex }.

Record MYColumn := {
  myc_Name : string;
  myc_DataType : option DataType;
  myc_IsNullable : bool;
  myc_DefaultValue : string;
  myc_IsPrimaryKey : bool;
  myc_AutoIncrement : bool;
  myc_IsUnsigned : bool;
  myc_Charset : string;
  myc_Collation : string;
  myc_Comment : string }.

Record MYForeignKey := {
  myf_Name : string;
  myf_LocalColumns : list string;
  myf_ForeignTable : option ObjectName;
  myf_ForeignColumns : list string;
  myf_OnUpdate : string;
  myf_OnDelete : string }.

Record MYIndex := {
  myi_Name : string;
  myi_Columns : list string;
  myi_IsUnique : bool;
  myi_IndexType : string }.

Record MYTable := {
  myt_Name : option ObjectName;
  myt_Comment : string;
  myt_Engine : string;
  myt_Charset : string;
  myt_Collation : string;
  myt_Columns : list (option MYColumn);
  myt_ForeignKeys : list (option MYForeignKey);
  myt_Indexes : list MYIndex }.

Record SQLiteColumn := {
  slc_Name : string;
  slc_DataType : option DataType;
  slc_IsNullable : bool;
  slc_DefaultValue : string;
  slc_IsPrimaryKey : bool }.

Record SQLiteTable := {
  slt_Name : string;
  slt_Type : string;
  slt_Columns : list (option SQLiteColumn) }.

Record BQColumn := {
  bqc_Name : string;
  bqc_DataType : option DataType;
  bqc_Mode : string;
  bqc_Description : string }.

Record BQTable := {
  bqt_Name : option ObjectName;
  bqt_Description : string;
  bqt_Schema : list (option BQColumn) }.

(** [stringToAny] packs a string into a StringValue and then into an Any; the
    empty string gives nil. *)
Definition stringToAny (s : string) : option Any :=
  if bool_decide (s = "") then None
  else Some {| TypeUrl := "type.googleapis.com/google.protobuf.StringValue";
               Value := marshalStringValue s |}.

(** [strings.Join(elems, sep)]. *)
Fixpoint strings_Join (elems : list string) (sep : string) : string :=
  match elems with
  | [] => ""
  | [e] => e
  | e :: rest => e +:+ sep +:+ strings_Join rest sep
  end.

Definition formatObjectName (o : option ObjectName) : string :=
  match o with
  | None => ""
  | Some o => strings_Join (Idents o) "."
  end.

Definition mapReferentialAction (s : string) : ReferentialAction :=
  let u := strings_ToUpper s in
  if bool_decide (u = "CASCADE") then ReferentialAction_Cascade
  else if bool_decide (u = "SET NULL") then ReferentialAction_SetNull
  else if bool_decide (u = "SET DEFAULT") then ReferentialAction_SetDefault
  else if bool_decide (u = "RESTRICT") then ReferentialAction_Restrict
  else if bool_decide (u = "NO ACTION") then ReferentialAction_NoAction
  else ReferentialAction_Unknown.

Definition mapMatchOption (s : string) : MatchOption :=
  let u := strings_ToUpper s in
  if bool_decide (u = "FULL") then MatchOption_Full
  else if bool_decide (u = "PARTIAL") then MatchOption_Partial
  else if bool_decide (u = "SIMPLE") then MatchOption_Simple
  else MatchOption_Unknown.

(** The two inline column constraints the converters build. *)
Definition primaryKeyColumnConstraint : ColumnConstraint :=
  {| cc_Name := "PRIMARY KEY";
     cc_Spec := Some (ColumnConstraintSpec_UniqueItem true) |}.

Definition notNullColumnConstraint : ColumnConstraint :=
  {| cc_Name := ""; cc_Spec := Some ColumnConstraintSpec_NotNullItem |}.

(** [m[k] = v] executed only when [cond] holds. *)
Definition setIf {V} (cond : bool) (k : string) (v : V) (m : gmap string V)
  : gmap string V :=
  if cond then <[k := v]> m else m.

(** [s = append(s, x)] executed only when [cond] holds. *)
Definition appendIf {A} (cond : bool) (x : A) (s : list A) : list A :=
  if cond then s ++ [x] else s.

(** *** Postgres *)

(** [PGColumnToColumnDef] converts a PGColumn to a unified ColumnDef. *)
Definition PGColumnToColumnDef (c : option PGColumn) : option ColumnDef :=
  match c with
  | None => None
  | Some c =>
      let options : gmap string string := ∅ in
      let options :=
        if pgc_IsIdentity c
        then <["IdentityGeneration" := pgc_IdentityGeneration c]>
               (<["IsIdentity" := "true"]> options)
        else options in
      let options :=
        if pgc_IsGenerated c
        then <["GenerationExpression" := pgc_GenerationExpression c]>
               (<["IsGenerated" := "true"]> options)
        else options in
      let options :=
        setIf (bool_decide (pgc_IdentitySequence c ≠ ""))
          "IdentitySequence" (pgc_IdentitySequence c) options in
      let constraints := [] in
      let constraints :=
        appendIf (pgc_IsPrimaryKey c) primaryKeyColumnConstraint constraints in
      let constraints :=
        appendIf (negb (pgc_IsNullable c)) notNullColumnConstraint constraints in
      Some {| col_Name := pgc_Name c;
              col_DataType := pgc_DataType c;
              col_Default := stringToAny (pgc_DefaultValue c);
              col_Comment := pgc_Comment c;
              col_Options := options;
              col_Constraints := constraints;
              col_MyDecos := [] |}
  end.

(** [PGConstraintToTableConstraint] converts a PGConstraint to a unified
    TableConstraint; types other than "p", "u" and "c" give nil. *)
Definition PGConstraintToTableConstraint (c : option PGConstraint)
  : option TableConstraint :=
  match c with
  | None => None
  | Some c =>
      if bool_decide (pgk_Type c = "p") then
        Some {| tc_Name := pgk_Name c;
                tc_Spec := Some (TableConstraintSpec_UniqueItem
                  {| uq_IsPrimary := true; uq_Columns := pgk_Columns c;
                     uq_IndexName := "" |}) |}
      else if bool_decide (pgk_Type c = "u") then
        Some {| tc_Name := pgk_Name c;
                tc_Spec := Some (TableConstraintSpec_UniqueItem
                  {| uq_IsPrimary := false; uq_Columns := pgk_Columns c;
                     uq_IndexName := "" |}) |}
      else if bool_decide (pgk_Type c = "c") then
        Some {| tc_Name := pgk_Name c;
                tc_Spec := Some (TableConstraintSpec_CheckItem
                  (stringToAny (pgk_Definition c))) |}
      else None
  end.

(** [PGForeignKeyToTableConstraint] converts a PGForeignKey to a unified
    TableConstraint. *)
Definition PGForeignKeyToTableConstraint (fk : option PGForeignKey)
  : option TableConstraint :=
  match fk with
  | None => None
  | Some fk =>
      Some {| tc_Name := pgf_Name fk;
              tc_Spec := Some (TableConstraintSpec_ReferenceItem
                {| ref_Columns := pgf_LocalColumns fk;
                   ref_KeyExpr := Some
                     {| rk_TableName := formatObjectName (pgf_ForeignTable fk);
                        rk_Columns := pgf_ForeignColumns fk |};
                   ref_OnUpdate := mapReferentialAction (pgf_OnUpdate fk);
                   ref_OnDelete := mapReferentialAction (pgf_OnDelete fk);
                   ref_Match := mapMatchOption (pgf_MatchOption fk) |}) |}
  end.

(** The loop body shared by the constraint loops:
    [if tc != nil { elements = append(elements, element of tc) }]. *)
Definition constraintElement (tc : option TableConstraint) : list TableElement :=
  match tc with
  | Some tc => [TableElement_TableConstraintElement tc]
  | None => []
  end.

(** [PGTableToMetaTable] converts a PGTable to a unified MetaTable.  The loop
    over the indexes has a condition with an empty body. *)
Definition PGTableToMetaTable (t : option PGTable) : option MetaTable :=
  match t with
  | None => None
  | Some t =>
      let options : gmap string string := ∅ in
      let options :=
        setIf (bool_decide (pgt_Owner t ≠ "")) "Owner" (pgt_Owner t) options in
      let options :=
        setIf (bool_decide (pgt_Persistence t ≠ ""))
          "Persistence" (pgt_Persistence t) options in
      let options := setIf (pgt_HasRowSecurity t) "HasRowSecurity" "true" options in
      let options :=
        setIf (pgt_RowSecurityForced t) "RowSecurityForced" "true" options in
      let elements := [] in
      (* Columns *)
      let elements :=
        for_append (pgt_Columns t) (λ col,
          [TableElement_ColumnDefElement (PGColumnToColumnDef col)]) elements in
      (* Constraints (Non-FK) *)
      let elements :=
        for_append (pgt_Constraints t) (λ con,
          constraintElement (PGConstraintToTableConstraint con)) elements in
      (* Foreign Keys *)
      let elements :=
        for_append (pgt_ForeignKeys t) (λ fk,
          constraintElement (PGForeignKeyToTableConstraint fk)) elements in
      (* Indexes (PK/Unique) *)
      let elements :=
        for_append (pgt_Indexes t) (λ idx,
          if pgi_IsPrimary idx || pgi_IsUnique idx then [] else []) elements in
      Some {| tbl_Name := pgt_Name t;
              tbl_Type := pgt_TableType t;
              tbl_Elements := elements;
              tbl_Comment := pgt_Comment t;
              tbl_Options := options |}
  end.

(** *** MySQL *)

(** [MYColumnToColumnDef] converts a MYColumn to a unified ColumnDef. *)
Definition MYColumnToColumnDef (c : option MYColumn) : option ColumnDef :=
  match c with
  | None => None
  | Some c =>
      let options : gmap string string := ∅ in
      let options :=
        setIf (bool_decide (myc_Charset c ≠ "")) "Charset" (myc_Charset c) options in
      let options :=
        setIf (bool_decide (myc_Collation c ≠ ""))
          "Collation" (myc_Collation c) options in
      let options := setIf (myc_IsUnsigned c) "IsUnsigned" "true" options in
      let constraints := [] in
      let constraints :=
        appendIf (myc_IsPrimaryKey c) primaryKeyColumnConstraint constraints in
      let decos :=
        appendIf (myc_AutoIncrement c) AutoIncrement_AutoIncrementConfirm [] in
      let constraints :=
        appendIf (negb (myc_IsNullable c)) notNullColumnConstraint constraints in
      Some {| col_Name := myc_Name c;
              col_DataType := myc_DataType c;
              col_Default := stringToAny (myc_DefaultValue c);
              col_Comment := myc_Comment c;
              col_Options := options;
              col_Constraints := constraints;
              col_MyDecos := decos |}
  end.

(** [MYForeignKeyToTableConstraint] converts a MYForeignKey to a unified
    TableConstraint; [Match] keeps its zero value. *)
Definition MYForeignKeyToTableConstraint (fk : option MYForeignKey)
  : option TableConstraint :=
  match fk with
  | None => None
  | Some fk =>
      Some {| tc_Name := myf_Name fk;
              tc_Spec := Some (TableConstraintSpec_ReferenceItem
                {| ref_Columns := myf_LocalColumns fk;
                   ref_KeyExpr := Some
                     {| rk_TableName := formatObjectName (myf_ForeignTable fk);
                        rk_Columns := myf_ForeignColumns fk |};
                   ref_OnUpdate := mapReferentialAction (myf_OnUpdate fk);
                   ref_OnDelete := mapReferentialAction (myf_OnDelete fk);
                   ref_Match := MatchOption_Unknown |}) |}
  end.

(** [MYIndexToTableConstraint] converts a MYIndex to a unified TableConstraint
    (Unique/Primary). *)
Definition MYIndexToTableConstraint (idx : option MYIndex) : option TableConstraint :=
  match idx with
  | None => None
  | Some idx =>
      let isPrimary := bool_decide (strings_ToUpper (myi_Name idx) = "PRIMARY") in
      if negb isPrimary && negb (myi_IsUnique idx) then None
      else
        Some {| tc_Name := myi_Name idx;
                tc_Spec := Some (TableConstraintSpec_UniqueItem
                  {| uq_IsPrimary := isPrimary;
                     uq_Columns := myi_Columns idx;
                     uq_IndexName := myi_Name idx |}) |}
  end.

(** [MYTableToMetaTable] converts a MYTable to a unified MetaTable. *)
Definition MYTableToMetaTable (t : option MYTable) : option MetaTable :=
  match t with
  | None => None
  | Some t =>
      let options : gmap string string := ∅ in
      let options :=
        setIf (bool_decide (myt_Engine t ≠ "")) "Engine" (myt_Engine t) options in
      let options :=
        setIf (bool_decide (myt_Charset t ≠ "")) "Charset" (myt_Charset t) options in
      let options :=
        setIf (bool_decide (myt_Collation t ≠ ""))
          "Collation" (myt_Collation t) options in
      let elements := [] in
      (* Columns *)
      let elements :=
        for_append (myt_Columns t) (λ col,
          [TableElement_ColumnDefElement (MYColumnToColumnDef col)]) elements in
      (* Foreign Keys *)
      let elements :=
        for_append (myt_ForeignKeys t) (λ fk,
          constraintElement (MYForeignKeyToTableConstraint fk)) elements in
      (* Indexes (Primary/Unique) *)
      let elements :=
        for_append (myt_Indexes t) (λ idx,
          if myi_IsUnique idx
             || bool_decide (strings_ToUpper (myi_IndexType idx) = "PRIMARY")
          then constraintElement (MYIndexToTableConstraint (Some idx))
          else []) elements in
      Some {| tbl_Name := myt_Name t;
              tbl_Type := "";
              tbl_Elements := elements;
              tbl_Comment := myt_Comment t;
              tbl_Options := options |}
  end.

(** *** SQLite *)

(** [SQLiteColumnToColumnDef] converts a SQLiteColumn to a unified ColumnDef;
    [Options] is left nil. *)
Definition SQLiteColumnToColumnDef (c : option SQLiteColumn) : option ColumnDef :=
  match c with
  | None => None
  | Some c =>
      let constraints := [] in
      let constraints :=
        appendIf (slc_IsPrimaryKey c) primaryKeyColumnConstraint constraints in
      let constraints :=
        appendIf (negb (slc_IsNullable c)) notNullColumnConstraint constraints in
      Some {| col_Name := slc_Name c;
              col_DataType := slc_DataType c;
              col_Default := stringToAny (slc_DefaultValue c);
              col_Comment := "";
              col_Options := ∅;
              col_Constraints := constraints;
              col_MyDecos := [] |}
  end.

(** [SQLiteTableToMetaTable] converts a SQLiteTable to unified MetaTable. *)
Definition SQLiteTableToMetaTable (t : option SQLiteTable) : option MetaTable :=
  match t with
  | None => None
  | Some t =>
      let elements := [] in
      let elements :=
        for_append (slt_Columns t) (λ col,
          [TableElement_ColumnDefElement (SQLiteColumnToColumnDef col)]) elements in
      Some {| tbl_Name := Some {| Idents := [slt_Name t] |};
              tbl_Type := slt_Type t;
              tbl_Elements := elements;
              tbl_Comment := "";
              tbl_Options := ∅ |}
  end.

(** *** BigQuery *)

(** [BQColumnToColumnDef] converts a BQColumn to a unified ColumnDef. *)
Definition BQColumnToColumnDef (c : option BQColumn) : option ColumnDef :=
  match c with
  | None => None
  | Some c =>
      let mode := strings_ToUpper (bqc_Mode c) in
      let constraints :=
        appendIf (bool_decide (mode = "REQUIRED")) notNullColumnConstraint [] in
      Some {| col_Name := bqc_Name c;
              col_DataType := bqc_DataType c;
              col_Default := None;
              col_Comment := bqc_Description c;
              col_Options := ∅;
              col_Constraints := constraints;
              col_MyDecos := [] |}
  end.

(** [BQTableToMetaTable] converts a BQTable to unified MetaTable. *)
Definition BQTableToMetaTable (t : option BQTable) : option MetaTable :=
  match t with
  | None => None
  | Some t =>
      let elements := [] in
      let elements :=
        for_append (bqt_Schema t) (λ col,
          [TableElement_ColumnDefElement (BQColumnToColumnDef col)]) elements in
      Some {| tbl_Name := bqt_Name t;
              tbl_Type := "";
              tbl_Elements := elements;
              tbl_Comment := bqt_Description t;
              tbl_Options := ∅ |}
  end.

(** ** The changes of a diff, independently of the iteration order

    The same changes as the engine emits, listed in the order in which the maps
    enumerate their entries ([map_to_list]) instead of a scheduled order.  The
    engine's unsorted output is a rearrangement of them (lemma
    [diffDatabaseChanges_perm]). *)

Definition columnChanges (tableName : option ObjectName)
  (current desired : gmap string ColumnDef) : list SchemaChange :=
  (map_to_list current ≫= λ '(name, _),
     match desired !! name with
     | None => [DropColumn tableName name]
     | Some _ => []
     end)
  ++ (map_to_list desired ≫= λ '(name, desCol),
     match current !! name with
     | None => [AddColumn tableName desCol]
     | Some _ => []
     end)
  ++ (map_to_list desired ≫= λ '(name, desCol),
     match current !! name with
     | Some currCol =>
         if negb (columnsEqual currCol desCol)
         then [AlterColumn tableName currCol desCol]
         else []
     | None => []
     end).

Definition constraintChanges (tableName : option ObjectName)
  (current desired : gmap string TableConstraint) : list SchemaChange :=
  (map_to_list current ≫= λ '(name, currCon),
     match desired !! name with
     | None => [DropConstraint tableName name
                  (notNil (GetReferenceItem (tc_Spec currCon)))]
     | Some _ => []
     end)
  ++ (map_to_list desired ≫= λ '(name, desCon),
     match current !! name with
     | None => [AddConstraint tableName desCon]
     | Some _ => []
     end).

Definition optionChanges (current desired : MetaTable) : list SchemaChange :=
  if bool_decide (tbl_Comment current ≠ tbl_Comment desired
                  ∨ tbl_Options current ≠ tbl_Options desired)
  then [AlterTableOptions (tbl_Name desired)
          (tbl_Options current) (tbl_Options desired)
          (tbl_Comment current) (tbl_Comment desired)]
  else [].

Definition tableChanges (current desired : MetaTable) : list SchemaChange :=
  optionChanges current desired
  ++ columnChanges (tbl_Name desired)
       (columnsFromElements (tbl_Elements current))
       (columnsFromElements (tbl_Elements desired))
  ++ constraintChanges (tbl_Name desired)
       (constraintsFromElements (tbl_Elements current))
       (constraintsFromElements (tbl_Elements desired)).

Definition droppedTables (currentTables desiredTables : gmap string MetaTable)
  : list SchemaChange :=
  map_to_list currentTables ≫= λ '(name, currTable),
    match desiredTables !! name with
    | None => dropTableChanges currTable
    | Some _ => []
    end.

Definition addedTables (currentTables desiredTables : gmap string MetaTable)
  : list SchemaChange :=
  map_to_list desiredTables ≫= λ '(name, desTable),
    match currentTables !! name with
    | None => [AddTable desTable]
    | Some _ => []
    end.

Definition keptTables (currentTables desiredTables : gmap string MetaTable)
  : list SchemaChange :=
  map_to_list desiredTables ≫= λ '(name, desTable),
    match currentTables !! name with
    | Some currTable => tableChanges currTable desTable
    | None => []
    end.

Definition databaseChanges (current desired : option MetaDatabase)
  : list SchemaChange :=
  let currentTables := tablesByName (GetTables current) in
  let desiredTables := tablesByName (GetTables desired) in
  droppedTables currentTables desiredTables
  ++ addedTables currentTables desiredTables
  ++ keptTables currentTables desiredTables.

(** The number of elements of a list that a test accepts. *)
Fixpoint countb {A} (p : A → bool) (l : list A) : nat :=
  match l with
  | [] => 0
  | x :: l' => (if p x then 1 else 0) + countb p l'
  end.

(** The table a change refers to. *)
Definition changeTableName (c : SchemaChange) : option ObjectName :=
  match c with
  | AddTable t => tbl_Name t
  | DropTable tn => tn
  | AlterTableOptions tn _ _ _ _ => tn
  | AddColumn tn _ => tn
  | DropColumn tn _ => tn
  | AlterColumn tn _ _ => tn
  | AddConstraint tn _ => tn
  | DropConstraint tn _ _ => tn
  end.

(** The column a column-level change refers to. *)
Definition changeColumnName (c : SchemaChange) : option string :=
  match c with
  | AddColumn _ col => Some (col_Name col)
  | DropColumn _ name => Some name
  | AlterColumn _ _ new => Some (col_Name new)
  | _ => None
  end.

(** The constraint a constraint-level change refers to. *)
Definition changeConstraintName (c : SchemaChange) : option string :=
  match c with
  | AddConstraint _ tc => Some (tc_Name tc)
  | DropConstraint _ name _ => Some name
  | _ => None
  end.

Definition isDropColumn (tn : option ObjectName) (name : string)
  (c : SchemaChange) : bool :=
  match c with
  | DropColumn tn' name' => bool_decide (tn' = tn ∧ name' = name)
  | _ => false
  end.

Definition isAddColumn (tn : option ObjectName) (name : string)
  (c : SchemaChange) : bool :=
  match c with
  | AddColumn tn' col => bool_decide (tn' = tn ∧ col_Name col = name)
  | _ => false
  end.

Definition isAlterColumn (tn : option ObjectName) (name : string)
  (c : SchemaChange) : bool :=
  match c with
  | AlterColumn tn' _ new => bool_decide (tn' = tn ∧ col_Name new = name)
  | _ => false
  end.

(** A missing or empty qualified name. *)
Definition nameless (on : option ObjectName) : Prop :=
  match on with
  | None => True
  | Some o => Idents o = []
  end.

(** The kinds of elements of a converted table. *)
Definition isColumnElement (e : TableElement) : Prop :=
  match e with TableElement_ColumnDefElement _ => True | _ => False end.

Definition isReferenceElement (e : TableElement) : Prop :=
  match e with
  | TableElement_TableConstraintElement tc =>
      is_Some (GetReferenceItem (tc_Spec tc))
  | _ => False
  end.

Definition isNonReferenceElement (e : TableElement) : Prop :=
  match e with
  | TableElement_TableConstraintElement tc => GetReferenceItem (tc_Spec tc) = None
  | _ => False
  end.

Definition isUniqueElement (e : TableElement) : Prop :=
  match e with
  | TableElement_TableConstraintElement tc => is_Some (GetUniqueItem (tc_Spec tc))
  | _ => False
  end.

(** [elems] consists of the columns [cols], then the non-reference table
    constraints [cons], then the foreign keys [fks], then the promoted
    indexes [idxs]. *)
Definition orderedAs (elems cols cons fks idxs : list TableElement) : Prop :=
  elems = cols ++ cons ++ fks ++ idxs
  ∧ Forall isColumnElement cols
  ∧ Forall isNonReferenceElement cons
  ∧ Forall isReferenceElement fks
  ∧ Forall isUniqueElement idxs.

(** ** Literals of the test files

    [&ColumnDef{Name: .., Comment: .., DataType: ..}],
    [&MetaTable{Name: &ObjectName{Idents: ..}, Elements: ..}] and
    [&MetaDatabase{Name: "testdb", Tables: ..}]; the fields left out have
    their zero value. *)
Definition columnLit (name comment : string) (ty : option DataType) : ColumnDef :=
  {| col_Name := name; col_DataType := ty; col_Default := None;
     col_Comment := comment; col_Options := ∅; col_Constraints := [];
     col_MyDecos := [] |}.

Definition columnElem (name comment : string) (ty : option DataType) : TableElement :=
  TableElement_ColumnDefElement (Some (columnLit name comment ty)).

(** A column element with inline constraints and options. *)
Definition constrainedColumnElem (name : string) (ty : option DataType)
  (options : gmap string string) (constraints : list ColumnConstraint)
  : TableElement :=
  TableElement_ColumnDefElement
    (Some {| col_Name := name; col_DataType := ty; col_Default := None;
             col_Comment := ""; col_Options := options;
             col_Constraints := constraints; col_MyDecos := [] |}).

Definition constraintElem (name : string) (spec : option TableConstraintSpec)
  : TableElement :=
  TableElement_TableConstraintElement {| tc_Name := name; tc_Spec := spec |}.

Definition tableLit (name : option ObjectName) (elems : list TableElement)
  : MetaTable :=
  {| tbl_Name := name; tbl_Type := ""; tbl_Elements := elems;
     tbl_Comment := ""; tbl_Options := ∅ |}.

Definition databaseLit (tables : list MetaTable) : option MetaDatabase :=
  Some {| db_Name := "testdb"; db_Tables := tables |}.

(** [&ObjectName{Idents: []string{name}}]. *)
Definition named (name : string) : option ObjectName :=
  Some {| Idents := [name] |}.

Definition emptyReference : ReferentialTableConstraint :=
  {| ref_Columns := []; ref_KeyExpr := None;
     ref_OnUpdate := ReferentialAction_Unknown;
     ref_OnDelete := ReferentialAction_Unknown;
     ref_Match := MatchOption_Unknown |}.

(** ** Tests on changes used by the properties of the diff *)

(** The change refers to the table named [tn]. *)
Definition refersTo (tn : option ObjectName) (c : SchemaChange) : bool :=
  bool_decide (changeTableName c = tn).

Definition isAddTable (c : SchemaChange) : bool :=
  match c with AddTable _ => true | _ => false end.

Definition isDropTable (c : SchemaChange) : bool :=
  match c with DropTable _ => true | _ => false end.

Definition isAlterTableOptions (tn : option ObjectName) (c : SchemaChange) : bool :=
  match c with
  | AlterTableOptions tn' _ _ _ _ => bool_decide (tn' = tn)
  | _ => false
  end.

Definition isDropConstraint (tn : option ObjectName) (name : string)
  (c : SchemaChange) : bool :=
  match c with
  | DropConstraint tn' name' _ => bool_decide (tn' = tn ∧ name' = name)
  | _ => false
  end.

Definition isAddConstraint (tn : option ObjectName) (name : string)
  (c : SchemaChange) : bool :=
  match c with
  | AddConstraint tn' tc => bool_decide (tn' = tn ∧ tc_Name tc = name)
  | _ => false
  end.

(** The table constraints among the elements of a table, in element order. *)
Definition tableConstraints (elems : list TableElement) : list TableConstraint :=
  omap GetTableConstraintElement elems.

(** The non-nil column definitions among the elements, in element order. *)
Definition columnDefs (elems : list TableElement) : list ColumnDef :=
  omap GetColumnDefElement elems.

(** What [diffTable] compares: two tables with the same comment, the same
    options, the same column names with definitions [columnsEqual] accepts,
    and the same constraint names. *)
Definition indistinguishable (c d : MetaTable) : Prop :=
  tbl_Comment c = tbl_Comment d
  ∧ tbl_Options c = tbl_Options d
  ∧ (∀ n, columnsFromElements (tbl_Elements c) !! n = None
          ↔ columnsFromElements (tbl_Elements d) !! n = None)
  ∧ (∀ n a b, columnsFromElements (tbl_Elements c) !! n = Some a →
              columnsFromElements (tbl_Elements d) !! n = Some b →
              columnsEqual a b = true)
  ∧ (∀ n, constraintsFromElements (tbl_Elements c) !! n = None
          ↔ constraintsFromElements (tbl_Elements d) !! n = None).

(** ** [file_loader.go]: loading and saving snapshots

    The operating system and the three protobuf codecs are parameters: the
    state of the file system with [os.ReadFile], [os.WriteFile] and
    [os.ReadDir] on it, [filepath.Ext], [filepath.Join], [strings.ToLower],
    and, for each of the text, JSON and binary formats, the unmarshal function
    of each message type and the marshal function of a database.  File
    contents are strings of bytes.  [os.WriteFile] returns the new state of
    the file system together with its error, if any. *)
Context {OSError CodecError FS : Type}.

(** A directory entry, with what the loader reads of it. *)
Record DirEntry := { de_Name : string; de_IsDir : bool }.

Context (os_ReadFile : FS → string → OSError + string).
Context (os_WriteFile : FS → string → string → FS * option OSError).
Context (os_ReadDir : FS → string → OSError + list DirEntry).
Context (filepath_Ext : string → string).
Context (filepath_Join : string → string → string).
Context (strings_ToLower : string → string).
Context (prototext_Unmarshal_database protojson_Unmarshal_database
           proto_Unmarshal_database : string → CodecError + MetaDatabase).
Context (prototext_Unmarshal_table protojson_Unmarshal_table
           proto_Unmarshal_table : string → CodecError + MetaTable).
Context (prototext_Marshal protojson_Marshal proto_Marshal
           : option MetaDatabase → CodecError + string).

(** The errors of the file loader: an error of the operating system or of a
    codec, [fmt.Errorf] with a [%w] verb around a cause (the text before the
    cause is kept), and [fmt.Errorf] without a cause. *)
Inductive Error :=
| OSErr (e : OSError)
| CodecErr (e : CodecError)
| Wrapped (text : string) (cause : Error)
| Message (text : string).

(** A Go result pair [(value, error)] of which exactly one is set. *)
Inductive Result (A : Type) :=
| Ok (a : A)
| Failed (e : Error).
Arguments Ok {A} a.
Arguments Failed {A} e.

(** [strings.Contains(s, substr)]. *)
Fixpoint strings_Contains (s substr : string) : bool :=
  String.prefix substr s
  || match s with
     | EmptyString => false
     | String _ s' => strings_Contains s' substr
     end.

(** A [case] of an expression switch with several values. *)
Definition caseOf (ext : string) (values : list string) : bool :=
  bool_decide (ext ∈ values).

(** [LoadMetaDatabaseFromFile] loads a MetaDatabase from a file; the format is
    detected from the file extension. *)
Definition LoadMetaDatabaseFromFile (fs : FS) (path : string) : Result MetaDatabase :=
  match os_ReadFile fs path with
  | inl err => Failed (Wrapped "reading file: " (OSErr err))
  | inr data =>
      let ext := strings_ToLower (filepath_Ext path) in
      if caseOf ext [".textpb"; ".txtpb"; ".pbtxt"] then
        match prototext_Unmarshal_database data with
        | inl err => Failed (Wrapped "parsing text proto: " (CodecErr err))
        | inr db => Ok db
        end
      else if caseOf ext [".json"] then
        match protojson_Unmarshal_database data with
        | inl err => Failed (Wrapped "parsing JSON: " (CodecErr err))
        | inr db => Ok db
        end
      else if caseOf ext [".pb"; ".bin"] then
        match proto_Unmarshal_database data with
        | inl err => Failed (Wrapped "parsing binary proto: " (CodecErr err))
        | inr db => Ok db
        end
      else
        Failed (Message ("unknown file extension: " +:+ ext
                         +:+ " (supported: .textpb, .json, .pb)"))
  end.

(** [LoadMetaTableFromFile] loads a single MetaTable from a file. *)
Definition LoadMetaTableFromFile (fs : FS) (path : string) : Result MetaTable :=
  match os_ReadFile fs path with
  | inl err => Failed (Wrapped "reading file: " (OSErr err))
  | inr data =>
      let ext := strings_ToLower (filepath_Ext path) in
      if caseOf ext [".textpb"; ".txtpb"; ".pbtxt"] then
        match prototext_Unmarshal_table data with
        | inl err => Failed (Wrapped "parsing text proto: " (CodecErr err))
        | inr table => Ok table
        end
      else if caseOf ext [".json"] then
        match protojson_Unmarshal_table data with
        | inl err => Failed (Wrapped "parsing JSON: " (CodecErr err))
        | inr table => Ok table
        end
      else if caseOf ext [".pb"; ".bin"] then
        match proto_Unmarshal_table data with
        | inl err => Failed (Wrapped "parsing binary proto: " (CodecErr err))
        | inr table => Ok table
        end
      else
        Failed (Message ("unknown file extension: " +:+ ext))
  end.

(** [SaveMetaDatabaseToFile] saves a MetaDatabase to a file; the format is
    determined by the file extension.  The result is the state of the file
    system afterwards and the error returned, if any; the error of
    [os.WriteFile] is returned as it is. *)
Definition SaveMetaDatabaseToFile (fs : FS) (db : option MetaDatabase)
  (path : string) : FS * option Error :=
  let ext := strings_ToLower (filepath_Ext path) in
  let marshaled : option (CodecError + string) :=
    if caseOf ext [".textpb"; ".txtpb"; ".pbtxt"] then Some (prototext_Marshal db)
    else if caseOf ext [".json"] then Some (protojson_Marshal db)
    else if caseOf ext [".pb"; ".bin"] then Some (proto_Marshal db)
    else None in
  match marshaled with
  | None => (fs, Some (Message ("unknown file extension: " +:+ ext)))
  | Some (inl err) => (fs, Some (Wrapped "marshaling: " (CodecErr err)))
  | Some (inr data) =>
      let '(fs', err) := os_WriteFile fs path data in
      (fs', OSErr <$> err)
  end.

(** The loop of [LoadMetaDatabaseFromDir] over the directory entries, with
    the tables appended so far; it returns at the first table that fails to
    load. *)
Fixpoint loadTableEntries (fs : FS) (dir : string) (entries : list DirEntry)
  (tables : list MetaTable) : Result (list MetaTable) :=
  match entries with
  | [] => Ok tables
  | entry :: rest =>
      if de_IsDir entry then loadTableEntries fs dir rest tables
      else
        let name := de_Name entry in
        if strings_Contains name ".table." then
          let path := filepath_Join dir name in
          match LoadMetaTableFromFile fs path with
          | Failed err =>
              Failed (Wrapped ("loading table " +:+ name +:+ ": ") err)
          | Ok table => loadTableEntries fs dir rest (tables ++ [table])
          end
        else loadTableEntries fs dir rest tables
  end.

(** [LoadMetaDatabaseFromDir] loads a MetaDatabase by scanning a directory for
    table files. *)
Definition LoadMetaDatabaseFromDir (fs : FS) (dir dbName : string)
  : Result MetaDatabase :=
  match os_ReadDir fs dir with
  | inl err => Failed (Wrapped "reading directory: " (OSErr err))
  | inr entries =>
      match loadTableEntries fs dir entries [] with
      | Failed err => Failed err
      | Ok tables => Ok {| db_Name := dbName; db_Tables := tables |}
      end
  end.

(** The extensions the three functions accept, after lower-casing. *)
Definition supportedExtensions : list string :=
  [".textpb"; ".txtpb"; ".pbtxt"; ".json"; ".pb"; ".bin"].

(** The directory entries [LoadMetaDatabaseFromDir] loads as tables. *)
Definition isTableFile (entry : DirEntry) : bool :=
  negb (de_IsDir entry) && strings_Contains (de_Name entry) ".table.".

(** The codec a save selects for the extension [ext] turns [db] into [data]. *)
Definition marshaledAs (ext : string) (db : option MetaDatabase) (data : string)
  : Prop :=
  (ext ∈ [".textpb"; ".txtpb"; ".pbtxt"] ∧ prototext_Marshal db = inr data)
  ∨ (ext ∈ [".json"] ∧ protojson_Marshal db = inr data)
  ∨ (ext ∈ [".pb"; ".bin"] ∧ proto_Marshal db = inr data).

(** The entries of a directory listing that are loaded as tables, in the
    order of the listing. *)
Definition tableFiles (entries : list DirEntry) : list DirEntry :=
  filter (λ entry, isTableFile entry = true) entries.

(** The table file [entry] of directory [dir] loads as [table]. *)
Definition loadsAs (fs : FS) (dir : string) (entry : DirEntry) (table : MetaTable)
  : Prop :=
  LoadMetaTableFromFile fs (filepath_Join dir (de_Name entry)) = Ok table.

(** ** A small operating system and codec for the worked examples

    Files are a map from paths to contents; reading a missing path fails,
    writing always succeeds.  [unixExt] is [filepath.Ext] on slash-separated
    paths, [asciiToLower] and [asciiToUpper] change the case of the ASCII
    letters.  The codec writes only the name of a database and refuses a
    database that has tables, so that what it marshals it unmarshals to the
    same database. *)
Definition mapReadFile (fs : gmap string string) (path : string) : unit + string :=
  match fs !! path with
  | Some data => inr data
  | None => inl ()
  end.

Definition mapWriteFile (fs : gmap string string) (path data : string)
  : gmap string string * option unit :=
  (<[path := data]> fs, None).

Fixpoint unixExt (path : string) : string :=
  match path with
  | EmptyString => ""
  | String c rest =>
      if strings_Contains rest "/" then unixExt rest
      else if bool_decide (unixExt rest ≠ "") then unixExt rest
      else if bool_decide (String c "" = ".") then path
      else ""
  end.

Definition lowerAscii (c : Ascii.ascii) : Ascii.ascii :=
  let n := Ascii.nat_of_ascii c in
  if (65 <=? n)%nat && (n <=? 90)%nat then Ascii.ascii_of_nat (n + 32) else c.

Fixpoint asciiToLower (s : string) : string :=
  match s with
  | EmptyString => EmptyString
  | String c rest => String (lowerAscii c) (asciiToLower rest)
  end.

Definition upperAscii (c : Ascii.ascii) : Ascii.ascii :=
  let n := Ascii.nat_of_ascii c in
  if (97 <=? n)%nat && (n <=? 122)%nat then Ascii.ascii_of_nat (n - 32) else c.

Fixpoint asciiToUpper (s : string) : string :=
  match s with
  | EmptyString => EmptyString
  | String c rest => String (upperAscii c) (asciiToUpper rest)
  end.

Definition slashJoin (dir name : string) : string := dir +:+ "/" +:+ name.

Definition nameMarshal (db : option MetaDatabase) : unit + string :=
  match db with
  | Some {| db_Name := name; db_Tables := [] |} => inr name
  | _ => inl ()
  end.

Definition nameUnmarshal (data : string) : unit + MetaDatabase :=
  inr {| db_Name := data; db_Tables := [] |}.

Definition nameUnmarshalTable (data : string) : unit + MetaTable :=
  inr (tableLit (named data) []).

(** * Properties *)

(** ** [SortChanges] sorts by priority and only rearranges *)

Definition prio_le (a b : SchemaChange) : Prop := (Priority a ≤ Priority b)%Z.

(** One comparison of the inner loop, with the slice split around the two
    positions it reads: [x] is at position [i], [y] at position [j]. *)
Lemma swap_step_middle (pre done todo : list SchemaChange) x y :
  swap_step (length pre) (pre ++ x :: done ++ y :: todo)
            (S (length pre + length done))
  = if (Priority x >? Priority y)%Z
    then pre ++ y :: done ++ x :: todo
    else pre ++ x :: done ++ y :: todo.
Proof.
  unfold swap_step.
  rewrite list_lookup_middle by done.
  assert (Hj : (pre ++ x :: done ++ y :: todo) !! S (length pre + length done)
               = Some y).
  { change (pre ++ x :: done ++ y :: todo)
      with (pre ++ (x :: done) ++ y :: todo).
    rewrite app_assoc. apply list_lookup_middle.
    rewrite length_app. simpl. lia. }
  rewrite Hj. destruct (Priority x >? Priority y)%Z; [|done].
  rewrite insert_app_r_alt by lia. rewrite Nat.sub_diag. simpl.
  rewrite insert_app_r_alt by lia.
  replace (S (length pre + length done) - length pre)
    with (S (length done)) by lia.
  simpl. f_equal. f_equal.
  rewrite insert_app_r_alt by lia. rewrite Nat.sub_diag. done.
Qed.

(** The inner loop from position [j] on: [x] is the current content of
    position [i], [done] the positions already compared with it. *)
Lemma sort_inner_scan (todo : list SchemaChange) :
  ∀ (pre done : list SchemaChange) x,
    Forall (prio_le x) done →
    ∃ m rest,
      foldl (swap_step (length pre)) (pre ++ x :: done ++ todo)
            (seq (S (length pre + length done)) (length todo))
      = pre ++ m :: rest
      ∧ m :: rest ≡ₚ x :: done ++ todo
      ∧ Forall (prio_le m) rest.
Proof.
  induction todo as [|y todo IH]; intros pre done x Hdone.
  - exists x, done. simpl. rewrite app_nil_r. done.
  - cbn [length seq foldl]. rewrite swap_step_middle.
    destruct (Z.gtb_spec (Priority x) (Priority y)) as [Hlt|Hle].
    + destruct (IH pre (done ++ [x]) y) as (m & rest & Heq & Hperm & Hmin).
      { apply Forall_app. split.
        - eapply Forall_impl; [exact Hdone|]. unfold prio_le. intros; lia.
        - apply Forall_singleton. unfold prio_le. lia. }
      exists m, rest. rewrite length_app in Heq. simpl in Heq.
      rewrite <- (assoc_L (++)) in Heq. simpl in Heq.
      replace (S (length pre + (length done + 1)))
        with (S (S (length pre + length done))) in Heq by lia.
      split_and!; [done| |done].
      rewrite Hperm, <- (assoc_L (++)). simpl.
      rewrite <- !Permutation_middle. apply Permutation_swap.
    + destruct (IH pre (done ++ [y]) x) as (m & rest & Heq & Hperm & Hmin).
      { apply Forall_app. split; [done|]. by apply Forall_singleton. }
      exists m, rest. rewrite length_app in Heq. simpl in Heq.
      rewrite <- (assoc_L (++)) in Heq. simpl in Heq.
      replace (S (length pre + (length done + 1)))
        with (S (S (length pre + length done))) in Heq by lia.
      split_and!; [done| |done].
      rewrite Hperm, <- (assoc_L (++)). done.
Qed.

(** One pass of the outer loop puts a minimum of the unsorted part at [i]. *)
Lemma sort_inner_spec (pre todo : list SchemaChange) x :
  ∃ m rest,
    sort_inner (length (pre ++ x :: todo)) (pre ++ x :: todo) (length pre)
    = pre ++ m :: rest
    ∧ m :: rest ≡ₚ x :: todo
    ∧ Forall (prio_le m) rest.
Proof.
  unfold sort_inner.
  destruct (sort_inner_scan todo pre [] x) as (m & rest & Heq & Hperm & Hmin);
    [done|].
  exists m, rest. simpl in Heq. rewrite Nat.add_0_r in Heq.
  rewrite length_app. simpl.
  replace (length pre + S (length todo) - S (length pre)) with (length todo)
    by lia.
  done.
Qed.

(** The outer loop from position [length pre] on. *)
Lemma sort_outer (n : nat) :
  ∀ (pre suf : list SchemaChange),
    length suf = n →
    StronglySorted prio_le pre →
    (∀ a b, a ∈ pre → b ∈ suf → prio_le a b) →
    ∃ r,
      foldl (sort_inner (length (pre ++ suf))) (pre ++ suf)
            (seq (length pre) n) = r
      ∧ r ≡ₚ pre ++ suf
      ∧ StronglySorted prio_le r.
Proof.
  induction n as [|n IH]; intros pre suf Hlen Hsorted Hle.
  - destruct suf; [|done]. exists (pre ++ []). simpl.
    rewrite app_nil_r. done.
  - destruct suf as [|x todo]; [done|]. injection Hlen as Hlen.
    cbn [seq foldl].
    destruct (sort_inner_spec pre todo x) as (m & rest & Heq & Hperm & Hmin).
    rewrite Heq.
    assert (Hlen' : length rest = n).
    { apply Permutation_length in Hperm. simpl in Hperm. lia. }
    destruct (IH (pre ++ [m]) rest) as (r & Hr & Hrperm & Hrsorted).
    + done.
    + apply StronglySorted_app_2; [|done|repeat constructor].
      intros a b Ha ->%list_elem_of_singleton. apply Hle; [done|].
      rewrite <- Hperm. left.
    + intros a b [Ha| ->%list_elem_of_singleton]%elem_of_app Hb.
      * apply Hle; [done|]. rewrite <- Hperm. by right.
      * by eapply Forall_forall in Hmin.
    + exists r. rewrite <- (assoc_L (++)) in Hr, Hrperm. simpl in Hr, Hrperm.
      replace (length (pre ++ [m])) with (S (length pre)) in Hr
        by (rewrite length_app; simpl; lia).
      replace (length (pre ++ x :: todo)) with (length (pre ++ m :: rest)).
      2:{ rewrite !length_app. simpl. lia. }
      split_and!; [done| |done].
      rewrite Hrperm. by rewrite Hperm.
Qed.

Lemma SortChanges_perm (changes : list SchemaChange) :
  SortChanges changes ≡ₚ changes.
Proof.
  destruct (sort_outer (length changes) [] changes) as (r & Hr & Hperm & _);
    [done|constructor|by intros ?? ?%elem_of_nil|].
  unfold SortChanges. simpl in Hr. by rewrite Hr.
Qed.

Lemma SortChanges_sorted (changes : list SchemaChange) :
  StronglySorted prio_le (SortChanges changes).
Proof.
  destruct (sort_outer (length changes) [] changes) as (r & Hr & _ & Hsorted);
    [done|constructor|by intros ?? ?%elem_of_nil|].
  unfold SortChanges. simpl in Hr. by rewrite Hr.
Qed.

(** ** Loops and [range] *)

Lemma for_append_bind {A B} (l : list A) (body : A → list B) (changes : list B) :
  for_append l body changes = changes ++ (l ≫= body).
Proof.
  unfold for_append. revert changes.
  induction l as [|x l IH]; intros changes; simpl.
  - by rewrite app_nil_r.
  - rewrite IH. by rewrite <- (assoc_L (++)).
Qed.

Lemma omap_lookup_entries {V} (m : gmap string V) (l : list (string * V)) :
  (∀ kv, kv ∈ l → m !! kv.1 = Some kv.2) →
  omap (λ k, (k,.) <$> m !! k) l.*1 = l.
Proof.
  induction l as [|[k v] l IH]; intros Hl; [done|].
  pose proof (Hl (k, v) ltac:(left)) as Hk. simpl in Hk.
  simpl. rewrite Hk. simpl. f_equal.
  apply IH. intros kv Hkv. apply Hl. by right.
Qed.

(** A [range] loop visits every entry of the map exactly once. *)
Lemma range_perm {V} (σ : Schedule) (m : gmap string V) (n : nat) :
  (range σ m n).1 ≡ₚ map_to_list m.
Proof.
  unfold range. simpl. rewrite (shuffle_perm σ).
  rewrite omap_lookup_entries; [done|].
  intros [k v] Hkv. by apply elem_of_map_to_list.
Qed.

Lemma for_appendM_perm {A B} (l : list A) (body : A → Ranging (list B))
  (pure : A → list B) :
  (∀ x n, (body x n).1 ≡ₚ pure x) →
  ∀ changes n, (for_appendM l body changes n).1 ≡ₚ changes ++ (l ≫= pure).
Proof.
  intros Hbody. induction l as [|x l IH]; intros changes n; simpl.
  - by rewrite app_nil_r.
  - unfold bind. specialize (Hbody x n).
    destruct (body x n) as [cs n']. simpl in Hbody.
    rewrite IH, Hbody. by rewrite <- (assoc_L (++)).
Qed.

(** ** The engine's output rearranges the schedule-free changes *)

Lemma mapsEqual_spec (σ : Schedule) (a b : gmap string string) (n : nat) :
  (mapsEqual σ a b n).1 = bool_decide (a = b).
Proof.
  unfold mapsEqual. case_bool_decide as Hsize.
  - simpl. rewrite bool_decide_eq_false_2; [done|]. by intros ->.
  - unfold bind, ret.
    pose proof (range_perm σ a n) as Hperm.
    destruct (range σ a n) as [es n']. simpl in *.
    destruct (forallb _ es) eqn:Hall.
    + symmetry. apply bool_decide_eq_true_2.
      apply map_subseteq_size_eq; [|lia].
      apply map_subseteq_spec. intros k v Hkv.
      rewrite forallb_forall in Hall. specialize (Hall (k, v)).
      simpl in Hall. destruct (b !! k) as [bv|].
      * case_bool_decide as Hbv; [|by subst].
        exfalso. enough (false = true) by done. apply Hall.
        apply list_elem_of_In. rewrite Hperm. by apply elem_of_map_to_list.
      * exfalso. enough (false = true) by done. apply Hall.
        apply list_elem_of_In. rewrite Hperm. by apply elem_of_map_to_list.
    + symmetry. apply bool_decide_eq_false_2. intros ->.
      enough (forallb (λ '(k, v), match b !! k with
                                  | Some bv => negb (bool_decide (bv ≠ v))
                                  | None => false
                                  end) es = true) by congruence.
      apply forallb_forall. intros [k v] Hkv%list_elem_of_In.
      rewrite Hperm in Hkv. apply elem_of_map_to_list in Hkv. rewrite Hkv.
      by rewrite bool_decide_eq_false_2 by (intros ?; done).
Qed.

Lemma diffColumns_perm (σ : Schedule) tn (current desired : gmap string ColumnDef) n :
  (diffColumns σ tn current desired n).1 ≡ₚ columnChanges tn current desired.
Proof.
  unfold diffColumns, columnChanges, bind, ret. simpl.
  rewrite !for_append_bind. simpl.
  pose proof (range_perm σ current n) as H1.
  pose proof (range_perm σ desired (S n)) as H2.
  pose proof (range_perm σ desired (S (S n))) as H3.
  simpl in H1, H2, H3. rewrite H1, H2, H3.
  by rewrite <- (assoc_L (++)).
Qed.

Lemma diffConstraints_perm (σ : Schedule) tn
  (current desired : gmap string TableConstraint) n :
  (diffConstraints σ tn current desired n).1 ≡ₚ constraintChanges tn current desired.
Proof.
  unfold diffConstraints, constraintChanges, bind, ret. simpl.
  rewrite !for_append_bind. simpl.
  pose proof (range_perm σ current n) as H1.
  pose proof (range_perm σ desired (S n)) as H2.
  simpl in H1, H2. by rewrite H1, H2.
Qed.

Lemma diffTable_perm (σ : Schedule) (current desired : MetaTable) n :
  (diffTable σ current desired n).1 ≡ₚ tableChanges current desired.
Proof.
  unfold diffTable, tableChanges, optionChanges.
  unfold bind at 1.
  set (cond := (if bool_decide (tbl_Comment current ≠ tbl_Comment desired)
                then ret true else _) n).
  assert (Hcond : cond.1 = bool_decide (tbl_Comment current ≠ tbl_Comment desired
                            ∨ tbl_Options current ≠ tbl_Options desired)).
  { subst cond. case_bool_decide as Hc.
    - simpl. symmetry. apply bool_decide_eq_true_2. by left.
    - unfold bind, ret.
      pose proof (mapsEqual_spec σ (tbl_Options current) (tbl_Options desired) n)
        as Hm.
      destruct (mapsEqual _ _ _ n) as [eq n']. simpl in *. subst eq.
      case_bool_decide as Ho; simpl; symmetry.
      + apply bool_decide_eq_false_2. intros [?|?]; done.
      + apply bool_decide_eq_true_2. by right. }
  destruct cond as [differ n1]. simpl in Hcond. subst differ.
  unfold bind, ret.
  pose proof (diffColumns_perm σ (tbl_Name desired)
    (columnsFromElements (tbl_Elements current))
    (columnsFromElements (tbl_Elements desired)) n1) as Hcols.
  destruct (diffColumns _ _ _ _ n1) as [colChanges n2]. simpl in Hcols.
  pose proof (diffConstraints_perm σ (tbl_Name desired)
    (constraintsFromElements (tbl_Elements current))
    (constraintsFromElements (tbl_Elements desired)) n2) as Hcons.
  destruct (diffConstraints _ _ _ _ n2) as [conChanges n3]. simpl in *.
  rewrite Hcols, Hcons.
  case_bool_decide; simpl; by rewrite <- ?(assoc_L (++)).
Qed.

Lemma diffDatabaseChanges_perm (σ : Schedule) (current desired : option MetaDatabase) n :
  (diffDatabaseChanges σ current desired n).1 ≡ₚ databaseChanges current desired.
Proof.
  unfold diffDatabaseChanges, databaseChanges, droppedTables, addedTables,
    keptTables, bind. simpl.
  rewrite for_appendM_perm with
    (pure := λ '(name, desTable),
       match tablesByName (GetTables current) !! name with
       | Some currTable => tableChanges currTable desTable
       | None => []
       end).
  2:{ intros [name desTable] k. destruct (_ !! name); [|done].
      apply diffTable_perm. }
  rewrite !for_append_bind. simpl.
  pose proof (range_perm σ (tablesByName (GetTables current)) n) as H1.
  pose proof (range_perm σ (tablesByName (GetTables desired)) (S n)) as H2.
  pose proof (range_perm σ (tablesByName (GetTables desired)) (S (S n))) as H3.
  simpl in H1, H2, H3. rewrite H1, H2, H3.
  by rewrite <- (assoc_L (++)).
Qed.

Lemma DiffDatabase_perm (σ : Schedule) (current desired : option MetaDatabase) :
  DiffDatabase σ current desired ≡ₚ databaseChanges current desired.
Proof.
  unfold DiffDatabase. rewrite SortChanges_perm. apply diffDatabaseChanges_perm.
Qed.

(** ** What the lookup maps hold *)

Lemma tableName_nil : tableName None = "".
Proof. done. Qed.

Lemma tableName_empty (on : ObjectName) :
  Idents on = [] → tableName (Some on) = "".
Proof. intros Hon. unfold tableName. by rewrite Hon. Qed.

(** The simple name is the last identifier. *)
Lemma tableName_last (on : ObjectName) :
  tableName (Some on) = default "" (last (Idents on)).
Proof.
  unfold tableName. rewrite last_lookup.
  destruct (Idents on) as [|i rest]; [done|].
  rewrite bool_decide_eq_false_2 by done.
  by replace (length (i :: rest) - 1) with (pred (length (i :: rest))) by lia.
Qed.

Lemma tablesByName_acc (tables : list MetaTable) (m0 : gmap string MetaTable) k t :
  foldl (λ m t, <[tableName (tbl_Name t) := t]> m) m0 tables !! k = Some t →
  (tableName (tbl_Name t) = k ∧ t ∈ tables) ∨ m0 !! k = Some t.
Proof.
  revert m0. induction tables as [|t' tables IH]; intros m0 Hk; simpl in *.
  - by right.
  - apply IH in Hk as [[? ?]|Hk]; [left; split; [done|by right]|].
    destruct (decide (tableName (tbl_Name t') = k)) as [<-|Hne].
    + rewrite lookup_insert_eq in Hk. injection Hk as ->.
      left. split; [done|left].
    + rewrite lookup_insert_ne in Hk by done. by right.
Qed.

(** Every entry of the table index sits under the simple name of its table. *)
Lemma tablesByName_lookup (tables : list MetaTable) k t :
  tablesByName tables !! k = Some t →
  tableName (tbl_Name t) = k ∧ t ∈ tables.
Proof.
  intros [?|Hk]%tablesByName_acc; [done|]. by rewrite lookup_empty in Hk.
Qed.

Lemma tablesByName_acc_is_Some (tables : list MetaTable) (m0 : gmap string MetaTable) k :
  is_Some (m0 !! k) ∨ (∃ t, t ∈ tables ∧ tableName (tbl_Name t) = k) →
  is_Some (foldl (λ m t, <[tableName (tbl_Name t) := t]> m) m0 tables !! k).
Proof.
  revert m0. induction tables as [|t' tables IH]; intros m0 Hk; simpl.
  - destruct Hk as [?|(t & Ht & _)]; [done|]. by apply elem_of_nil in Ht.
  - apply IH. destruct Hk as [Hk|(t & Ht & Hname)].
    + left. rewrite lookup_insert. case_decide; [by eexists|done].
    + apply elem_of_cons in Ht as [->|Ht].
      * left. rewrite <- Hname, lookup_insert_eq. by eexists.
      * right. by exists t.
Qed.

(** Every table of the list is represented under its simple name. *)
Lemma tablesByName_is_Some (tables : list MetaTable) t :
  t ∈ tables → is_Some (tablesByName tables !! tableName (tbl_Name t)).
Proof. intros Ht. apply tablesByName_acc_is_Some. right. by exists t. Qed.

Lemma columnsFromElements_acc (elems : list TableElement) (m0 : gmap string ColumnDef) :
  (∀ n c, m0 !! n = Some c → col_Name c = n) →
  ∀ n c,
    foldl (λ m elem, match GetColumnDefElement elem with
                     | Some col => <[col_Name col := col]> m
                     | None => m
                     end) m0 elems !! n = Some c →
    col_Name c = n.
Proof.
  revert m0. induction elems as [|e elems IH]; intros m0 Hm0 n c; simpl.
  - apply Hm0.
  - apply IH. intros n' c'. destruct (GetColumnDefElement e) as [col|]; [|apply Hm0].
    rewrite lookup_insert. case_decide; [|apply Hm0]. by intros [= <-].
Qed.

(** Every entry of the column map sits under the name of its column. *)
Lemma columnsFromElements_lookup (elems : list TableElement) n c :
  columnsFromElements elems !! n = Some c → col_Name c = n.
Proof.
  apply columnsFromElements_acc. intros n' c'. by rewrite lookup_empty.
Qed.

Lemma constraintsFromElements_acc (elems : list TableElement)
  (m0 : gmap string TableConstraint) :
  (∀ n tc, m0 !! n = Some tc → tc_Name tc = n ∧ n ≠ "") →
  ∀ n tc,
    foldl (λ m elem,
             match GetTableConstraintElement elem with
             | Some tc =>
                 if bool_decide (tc_Name tc ≠ "") then <[tc_Name tc := tc]> m else m
             | None => m
             end) m0 elems !! n = Some tc →
    tc_Name tc = n ∧ n ≠ "".
Proof.
  revert m0. induction elems as [|e elems IH]; intros m0 Hm0 n tc; simpl.
  - apply Hm0.
  - apply IH. intros n' tc'.
    destruct (GetTableConstraintElement e) as [tc0|]; [|apply Hm0].
    case_bool_decide as Hname; [|apply Hm0].
    rewrite lookup_insert. case_decide; [|apply Hm0].
    intros [= <-]. by subst.
Qed.

(** Every entry of the constraint map sits under the non-empty name of its
    constraint. *)
Lemma constraintsFromElements_lookup (elems : list TableElement) n tc :
  constraintsFromElements elems !! n = Some tc → tc_Name tc = n ∧ n ≠ "".
Proof.
  apply constraintsFromElements_acc. intros n' tc'. by rewrite lookup_empty.
Qed.

(** ** Counting *)

Lemma countb_app {A} (p : A → bool) (l1 l2 : list A) :
  countb p (l1 ++ l2) = countb p l1 + countb p l2.
Proof. induction l1 as [|x l1 IH]; simpl; [done|]. rewrite IH. lia. Qed.

#[local] Instance countb_Permutation {A} (p : A → bool) :
  Proper ((≡ₚ) ==> (=)) (countb p).
Proof.
  intros l1 l2 Hperm. induction Hperm; simpl; lia.
Qed.

Lemma countb_zero {A} (p : A → bool) (l : list A) :
  countb p l = 0 ↔ ∀ x, x ∈ l → p x = false.
Proof.
  induction l as [|x l IH]; simpl.
  - split; [|done]. by intros _ x ?%elem_of_nil.
  - split.
    + intros Hc y [->|Hy]%elem_of_cons.
      * destruct (p x); [done|done].
      * apply IH; [|done]. lia.
    + intros Hl. rewrite (Hl x) by left. simpl. apply IH.
      intros y Hy. apply Hl. by right.
Qed.

Lemma countb_bind_zero {A B} (p : B → bool) (f : A → list B) (l : list A) :
  (∀ x, x ∈ l → countb p (f x) = 0) → countb p (l ≫= f) = 0.
Proof.
  induction l as [|x l IH]; intros Hl; [done|].
  rewrite bind_cons, countb_app, Hl by left.
  apply IH. intros y Hy. apply Hl. by right.
Qed.

(** In a loop over a map, when only the entry at [k] can emit an accepted
    change, the accepted changes are those of that entry. *)
Lemma countb_bind_map_one {V B} (p : B → bool) (f : string * V → list B)
  (m : gmap string V) k v :
  m !! k = Some v →
  (∀ k' v', k' ≠ k → m !! k' = Some v' → countb p (f (k', v')) = 0) →
  countb p (map_to_list m ≫= f) = countb p (f (k, v)).
Proof.
  intros Hk Hother. rewrite <- (map_to_list_delete m k v Hk).
  rewrite bind_cons, countb_app, countb_bind_zero; [lia|].
  intros [k' v'] [Hne Hk']%elem_of_map_to_list%lookup_delete_Some.
  by apply Hother.
Qed.

Lemma countb_bind_map_zero {V B} (p : B → bool) (f : string * V → list B)
  (m : gmap string V) :
  (∀ k v, m !! k = Some v → countb p (f (k, v)) = 0) →
  countb p (map_to_list m ≫= f) = 0.
Proof.
  intros Hm. apply countb_bind_zero.
  intros [k v] Hkv%elem_of_map_to_list. by apply Hm.
Qed.

Lemma bind_nil_forall {A B} (f : A → list B) (l : list A) :
  (∀ x, x ∈ l → f x = []) → l ≫= f = [].
Proof.
  induction l as [|x l IH]; intros Hl; [done|].
  rewrite bind_cons, Hl by left. simpl. apply IH.
  intros y Hy. apply Hl. by right.
Qed.

(** ** Comparing a snapshot with itself *)

Lemma columnsEqual_spec (a b : ColumnDef) :
  columnsEqual a b = true ↔
  col_Name a = col_Name b ∧ col_Comment a = col_Comment b
  ∧ col_DataType a = col_DataType b ∧ col_Default a = col_Default b.
Proof.
  unfold columnsEqual, proto_Equal.
  case_bool_decide as Hn; [split; [done|by intros (?&?&?&?)]|].
  case_bool_decide as Hc; [split; [done|by intros (?&?&?&?)]|].
  case_bool_decide as Ht; simpl; [|split; [done|by intros (?&?&?&?)]].
  case_bool_decide as Hd; simpl; [|split; [done|by intros (?&?&?&?)]].
  split; [by intros _|done].
Qed.

Lemma columnsEqual_refl (a : ColumnDef) : columnsEqual a a = true.
Proof. by apply columnsEqual_spec. Qed.

Lemma columnChanges_same tn (m : gmap string ColumnDef) : columnChanges tn m m = [].
Proof.
  unfold columnChanges.
  rewrite !bind_nil_forall; [done|..];
    intros [name col] Hcol%elem_of_map_to_list; rewrite Hcol; [|done..].
  by rewrite columnsEqual_refl.
Qed.

Lemma constraintChanges_same tn (m : gmap string TableConstraint) :
  constraintChanges tn m m = [].
Proof.
  unfold constraintChanges.
  rewrite !bind_nil_forall; [done|..];
    intros [name tc] Htc%elem_of_map_to_list; by rewrite Htc.
Qed.

Lemma tableChanges_same (t : MetaTable) : tableChanges t t = [].
Proof.
  unfold tableChanges, optionChanges.
  rewrite columnChanges_same, constraintChanges_same.
  rewrite bool_decide_eq_false_2; [done|]. by intros [?|?].
Qed.

Lemma databaseChanges_same (X : option MetaDatabase) : databaseChanges X X = [].
Proof.
  unfold databaseChanges, droppedTables, addedTables, keptTables. simpl.
  rewrite !bind_nil_forall; [done|..];
    intros [name t] Ht%elem_of_map_to_list; rewrite Ht; [|done..].
  apply tableChanges_same.
Qed.

(** C1. For every snapshot [X] (nil or not) and every iteration order of the
    maps, [DiffDatabase(X, X)] returns the empty change list. *)
Theorem DiffDatabase_same (σ : Schedule) (X : option MetaDatabase) :
  DiffDatabase σ X X = [].
Proof.
  apply Permutation_nil_r.
  rewrite DiffDatabase_perm. by rewrite databaseChanges_same.
Qed.

(** ** Two runs on the same input *)

(** C2, as amended.  Two runs of [DiffDatabase] on the same input, under any
    two iteration orders of the maps, return rearrangements of one another
    with the same sequence of priorities: only the relative order of changes
    that share a priority can differ between runs. *)
Theorem DiffDatabase_runs_agree (σ1 σ2 : Schedule)
  (current desired : option MetaDatabase) :
  DiffDatabase σ1 current desired ≡ₚ DiffDatabase σ2 current desired
  ∧ Priority <$> DiffDatabase σ1 current desired
    = Priority <$> DiffDatabase σ2 current desired.
Proof.
  assert (Hperm : DiffDatabase σ1 current desired ≡ₚ DiffDatabase σ2 current desired)
    by by rewrite !DiffDatabase_perm.
  split; [done|].
  apply (StronglySorted_unique Z.le).
  - eapply StronglySorted_fmap; [|apply SortChanges_sorted]. done.
  - eapply StronglySorted_fmap; [|apply SortChanges_sorted]. done.
  - by rewrite Hperm.
Qed.

(** ** The order of the final plan *)

(** C3. For every pair of snapshots the list returned by [DiffDatabase] is
    sorted ascending by [Priority]: every change has a priority at most that
    of every change after it. *)
Theorem DiffDatabase_sorted (σ : Schedule) (current desired : option MetaDatabase) :
  StronglySorted (λ a b, (Priority a ≤ Priority b)%Z)
    (DiffDatabase σ current desired).
Proof. apply SortChanges_sorted. Qed.

(** ** The priority table *)

(** C5. Priority and destructiveness of every SchemaChange variant:
    DropConstraint 5 when IsForeignKey and 10 otherwise, non-destructive;
    DropColumn 20, destructive; DropTable 30, destructive; AddTable 40,
    AddColumn 50, AddConstraint 60, non-destructive; AlterColumn 70,
    destructive; AlterTableOptions 70, non-destructive. *)
Theorem priority_table (c : SchemaChange) :
  (Priority c, IsDestructive c) =
  match c with
  | DropConstraint _ _ true => (5, false)
  | DropConstraint _ _ false => (10, false)
  | DropColumn _ _ => (20, true)
  | DropTable _ => (30, true)
  | AddTable _ => (40, false)
  | AddColumn _ _ => (50, false)
  | AddConstraint _ _ => (60, false)
  | AlterColumn _ _ _ => (70, true)
  | AlterTableOptions _ _ _ _ _ => (70, false)
  end%Z.
Proof. by destruct c as [| | | | | | |? ? []]. Qed.

(** ** Which table and which object a change refers to *)

Lemma dropTableChanges_elem (t : MetaTable) ch :
  ch ∈ dropTableChanges t →
  changeTableName ch = tbl_Name t ∧ changeColumnName ch = None
  ∧ (ch = DropTable (tbl_Name t) ∨ ∃ n fk, ch = DropConstraint (tbl_Name t) n fk).
Proof.
  unfold dropTableChanges. rewrite for_append_bind. simpl.
  intros [Hch| ->%list_elem_of_singleton]%elem_of_app; [|by auto].
  apply list_elem_of_bind in Hch as (e & Hch & _).
  destruct (GetTableConstraintElement e) as [tc|]; [|by apply elem_of_nil in Hch].
  apply list_elem_of_singleton in Hch as ->. split_and!; [done..|]. eauto.
Qed.

Lemma optionChanges_elem (c d : MetaTable) ch :
  ch ∈ optionChanges c d →
  changeTableName ch = tbl_Name d ∧ changeColumnName ch = None
  ∧ changeConstraintName ch = None.
Proof.
  unfold optionChanges. case_bool_decide; [|by intros ?%elem_of_nil].
  by intros ->%list_elem_of_singleton.
Qed.

Lemma columnChanges_elem tn (cc dc : gmap string ColumnDef) ch :
  ch ∈ columnChanges tn cc dc →
  changeTableName ch = tn ∧ changeConstraintName ch = None
  ∧ is_Some (changeColumnName ch).
Proof.
  unfold columnChanges.
  intros [Hch|[Hch|Hch]%elem_of_app]%elem_of_app;
    apply list_elem_of_bind in Hch as ([n col] & Hch & _).
  - destruct (dc !! n); [by apply elem_of_nil in Hch|].
    apply list_elem_of_singleton in Hch as ->. simpl. eauto.
  - destruct (cc !! n); [by apply elem_of_nil in Hch|].
    apply list_elem_of_singleton in Hch as ->. simpl. eauto.
  - destruct (cc !! n); [|by apply elem_of_nil in Hch].
    destruct (negb _); [|by apply elem_of_nil in Hch].
    apply list_elem_of_singleton in Hch as ->. simpl. eauto.
Qed.

Lemma constraintChanges_elem tn (cc dc : gmap string TableConstraint) ch :
  ch ∈ constraintChanges tn cc dc →
  changeTableName ch = tn ∧ changeColumnName ch = None
  ∧ ((∃ n tc, cc !! n = Some tc ∧ dc !! n = None
              ∧ ch = DropConstraint tn n (notNil (GetReferenceItem (tc_Spec tc))))
     ∨ (∃ n tc, dc !! n = Some tc ∧ cc !! n = None ∧ ch = AddConstraint tn tc)).
Proof.
  unfold constraintChanges.
  intros [Hch|Hch]%elem_of_app;
    apply list_elem_of_bind in Hch as ([n tc] & Hch & Hn%elem_of_map_to_list).
  - destruct (dc !! n) eqn:Hd; [by apply elem_of_nil in Hch|].
    apply list_elem_of_singleton in Hch as ->. split_and!; [done..|].
    left. by exists n, tc.
  - destruct (cc !! n) eqn:Hc; [by apply elem_of_nil in Hch|].
    apply list_elem_of_singleton in Hch as ->. split_and!; [done..|].
    right. by exists n, tc.
Qed.

Lemma tableChanges_elem (c d : MetaTable) ch :
  ch ∈ tableChanges c d → changeTableName ch = tbl_Name d.
Proof.
  unfold tableChanges.
  intros [Hch|[Hch|Hch]%elem_of_app]%elem_of_app.
  - by apply optionChanges_elem in Hch as (? & _).
  - by apply columnChanges_elem in Hch as (? & _).
  - by apply constraintChanges_elem in Hch as (? & _).
Qed.

(** Where a change of the diff comes from. *)
Lemma databaseChanges_elem (current desired : option MetaDatabase) ch :
  ch ∈ databaseChanges current desired →
  let currentTables := tablesByName (GetTables current) in
  let desiredTables := tablesByName (GetTables desired) in
  (∃ k t, currentTables !! k = Some t ∧ desiredTables !! k = None
          ∧ ch ∈ dropTableChanges t)
  ∨ (∃ k t, desiredTables !! k = Some t ∧ currentTables !! k = None
            ∧ ch = AddTable t)
  ∨ (∃ k c d, currentTables !! k = Some c ∧ desiredTables !! k = Some d
              ∧ ch ∈ tableChanges c d).
Proof.
  unfold databaseChanges, droppedTables, addedTables, keptTables. simpl.
  intros [Hch|[Hch|Hch]%elem_of_app]%elem_of_app;
    apply list_elem_of_bind in Hch as ([k t] & Hch & Hk%elem_of_map_to_list).
  - destruct (tablesByName (GetTables desired) !! k) eqn:Hd;
      [by apply elem_of_nil in Hch|].
    left. by exists k, t.
  - destruct (tablesByName (GetTables current) !! k) eqn:Hc;
      [by apply elem_of_nil in Hch|].
    apply list_elem_of_singleton in Hch as ->.
    right; left. by exists k, t.
  - destruct (tablesByName (GetTables current) !! k) as [c|] eqn:Hc;
      [|by apply elem_of_nil in Hch].
    right; right. by exists k, c, t.
Qed.

(** ** Column changes of a table present in both snapshots *)

Lemma countb_not_in {A} (p : A → bool) (l : list A) (Q : A → Prop) :
  (∀ x, x ∈ l → Q x) → (∀ x, Q x → p x = false) → countb p l = 0.
Proof. intros Hl Hp. apply countb_zero. intros x Hx. by apply Hp, Hl. Qed.

Lemma count_DropColumn tn name (cc dc : gmap string ColumnDef) :
  countb (isDropColumn tn name) (columnChanges tn cc dc)
  = match cc !! name, dc !! name with Some _, None => 1 | _, _ => 0 end.
Proof.
  unfold columnChanges. rewrite !countb_app.
  rewrite (countb_bind_map_zero _ _ dc), (countb_bind_map_zero _ _ dc).
  2:{ intros k b _. destruct (cc !! k); [|done]. by destruct (negb _). }
  2:{ intros k b _. by destruct (cc !! k). }
  rewrite !Nat.add_0_r.
  destruct (cc !! name) as [a|] eqn:Ha.
  - rewrite (countb_bind_map_one _ _ cc name a Ha).
    + destruct (dc !! name); [done|]. simpl.
      by rewrite bool_decide_eq_true_2.
    + intros k a' Hne _. destruct (dc !! k); [done|]. simpl.
      rewrite bool_decide_eq_false_2; [done|]. by intros [_ ?].
  - apply countb_bind_map_zero. intros k a' Hk.
    destruct (dc !! k); [done|]. simpl.
    rewrite bool_decide_eq_false_2; [done|]. intros [_ ->]. congruence.
Qed.

Lemma count_AddColumn tn name (cc dc : gmap string ColumnDef) :
  (∀ k b, dc !! k = Some b → col_Name b = k) →
  countb (isAddColumn tn name) (columnChanges tn cc dc)
  = match cc !! name, dc !! name with None, Some _ => 1 | _, _ => 0 end.
Proof.
  intros Hdc. unfold columnChanges. rewrite !countb_app.
  rewrite (countb_bind_map_zero _ _ cc).
  2:{ intros k a _. by destruct (dc !! k). }
  rewrite (countb_bind_map_zero (isAddColumn tn name)
             (λ '(n, desCol), match cc !! n with
                              | Some currCol =>
                                  if negb (columnsEqual currCol desCol)
                                  then [AlterColumn tn currCol desCol] else []
                              | None => []
                              end) dc).
  2:{ intros k b _. destruct (cc !! k); [|done]. by destruct (negb _). }
  rewrite Nat.add_0_r. simpl.
  destruct (dc !! name) as [b|] eqn:Hb.
  - rewrite (countb_bind_map_one _ _ dc name b Hb).
    + destruct (cc !! name); [done|]. simpl.
      rewrite bool_decide_eq_true_2; [done|]. split; [done|by apply Hdc].
    + intros k b' Hne Hk. destruct (cc !! k); [done|]. simpl.
      rewrite bool_decide_eq_false_2; [done|].
      intros [_ Hname]. apply Hdc in Hk. congruence.
  - rewrite countb_bind_map_zero; [by destruct (cc !! name)|].
    intros k b' Hk. destruct (cc !! k); [done|]. simpl.
    rewrite bool_decide_eq_false_2; [done|].
    intros [_ Hname]. pose proof (Hdc _ _ Hk). congruence.
Qed.

Lemma count_AlterColumn tn name (cc dc : gmap string ColumnDef) :
  (∀ k b, dc !! k = Some b → col_Name b = k) →
  countb (isAlterColumn tn name) (columnChanges tn cc dc)
  = match cc !! name, dc !! name with
    | Some a, Some b => if columnsEqual a b then 0 else 1
    | _, _ => 0
    end.
Proof.
  intros Hdc. unfold columnChanges. rewrite !countb_app.
  rewrite (countb_bind_map_zero _ _ cc).
  2:{ intros k a _. by destruct (dc !! k). }
  rewrite (countb_bind_map_zero (isAlterColumn tn name)
             (λ '(n, desCol), match cc !! n with
                              | None => [AddColumn tn desCol]
                              | Some _ => []
                              end) dc).
  2:{ intros k b _. by destruct (cc !! k). }
  simpl.
  destruct (dc !! name) as [b|] eqn:Hb.
  - rewrite (countb_bind_map_one _ _ dc name b Hb).
    + destruct (cc !! name) as [a|]; [|done].
      destruct (columnsEqual a b); [done|]. simpl.
      rewrite bool_decide_eq_true_2; [done|]. split; [done|by apply Hdc].
    + intros k b' Hne Hk. destruct (cc !! k) as [a'|]; [|done].
      destruct (negb _); [|done]. simpl.
      rewrite bool_decide_eq_false_2; [done|].
      intros [_ Hname]. apply Hdc in Hk. congruence.
  - rewrite countb_bind_map_zero; [by destruct (cc !! name)|].
    intros k b' Hk. destruct (cc !! k) as [a'|]; [|done].
    destruct (negb _); [|done]. simpl.
    rewrite bool_decide_eq_false_2; [done|].
    intros [_ Hname]. pose proof (Hdc _ _ Hk). congruence.
Qed.

(** A test that only accepts column-level changes of the table named [tn]
    counts, in the whole diff, what it counts in the column changes of the one
    pair of tables whose desired side carries that name. *)
Lemma countb_column_test (p : SchemaChange → bool) (σ : Schedule)
  (current desired : option MetaDatabase) k c d :
  (∀ ch, p ch = true →
         changeTableName ch = tbl_Name d ∧ is_Some (changeColumnName ch)) →
  tablesByName (GetTables current) !! k = Some c →
  tablesByName (GetTables desired) !! k = Some d →
  countb p (DiffDatabase σ current desired)
  = countb p (columnChanges (tbl_Name d)
                (columnsFromElements (tbl_Elements c))
                (columnsFromElements (tbl_Elements d))).
Proof.
  intros Hp Hc Hd.
  assert (Hno : ∀ ch, changeColumnName ch = None → p ch = false).
  { intros ch Hch. destruct (p ch) eqn:E; [|done].
    apply Hp in E as [_ [? ?]]. congruence. }
  assert (Hother : ∀ ch, changeTableName ch ≠ tbl_Name d → p ch = false).
  { intros ch Hch. destruct (p ch) eqn:E; [|done]. by apply Hp in E as [? _]. }
  rewrite DiffDatabase_perm.
  unfold databaseChanges, droppedTables, addedTables, keptTables.
  rewrite !countb_app.
  rewrite countb_bind_map_zero.
  2:{ intros k' t _. destruct (_ !! k'); [done|].
      eapply countb_not_in; [apply dropTableChanges_elem|].
      intros ch (_ & ? & _). by apply Hno. }
  rewrite countb_bind_map_zero.
  2:{ intros k' t _. destruct (_ !! k'); [done|]. simpl.
      by rewrite Hno. }
  rewrite (countb_bind_map_one _ _ _ k d Hd).
  2:{ intros k' d' Hne Hd'.
      destruct (tablesByName (GetTables current) !! k') as [c'|]; [|done].
      eapply countb_not_in; [apply tableChanges_elem|].
      intros ch Hch. apply Hother. rewrite Hch. intros Heq.
      apply tablesByName_lookup in Hd as [Hd _].
      apply tablesByName_lookup in Hd' as [Hd' _]. congruence. }
  rewrite Hc. unfold tableChanges. rewrite !countb_app.
  rewrite (countb_not_in p (optionChanges c d) _ (optionChanges_elem c d)).
  2:{ intros ch (_ & ? & _). by apply Hno. }
  simpl.
  rewrite (countb_not_in p (constraintChanges _ _ _) _
             (constraintChanges_elem _ _ _)).
  2:{ intros ch (_ & ? & _). by apply Hno. }
  lia.
Qed.

(** C6. For a table present in both snapshots (current side [c], desired side
    [d], same simple name [k]) and a column name [name], with [cc] and [dc]
    the column maps of the two sides, the output of [DiffDatabase] contains
    - exactly one DropColumn of that column when [name] is only in [cc] (and
      none otherwise),
    - exactly one AddColumn of that column when [name] is only in [dc] (and
      none otherwise),
    - exactly one AlterColumn of that column when [name] is in both and
      [columnsEqual] rejects the two definitions (and none otherwise);
    [columnsEqual] accepts two definitions exactly when their name, comment,
    DataType (compared by value) and default envelope (compared by value)
    agree; in particular it accepts two definitions that differ only in their
    options, constraint lists and decorators, so such a pair yields no
    AlterColumn. *)
Theorem column_changes (σ : Schedule) (current desired : option MetaDatabase)
  (k : string) (c d : MetaTable) (name : string) :
  tablesByName (GetTables current) !! k = Some c →
  tablesByName (GetTables desired) !! k = Some d →
  let out := DiffDatabase σ current desired in
  let cc := columnsFromElements (tbl_Elements c) in
  let dc := columnsFromElements (tbl_Elements d) in
  countb (isDropColumn (tbl_Name d) name) out
    = match cc !! name, dc !! name with Some _, None => 1 | _, _ => 0 end
  ∧ countb (isAddColumn (tbl_Name d) name) out
    = match cc !! name, dc !! name with None, Some _ => 1 | _, _ => 0 end
  ∧ countb (isAlterColumn (tbl_Name d) name) out
    = match cc !! name, dc !! name with
      | Some a, Some b => if columnsEqual a b then 0 else 1
      | _, _ => 0
      end
  ∧ (∀ a b : ColumnDef,
      columnsEqual a b = true ↔
      col_Name a = col_Name b ∧ col_Comment a = col_Comment b
      ∧ col_DataType a = col_DataType b ∧ col_Default a = col_Default b)
  ∧ ∀ (a : ColumnDef) options constraints decos,
      columnsEqual a
        {| col_Name := col_Name a; col_DataType := col_DataType a;
           col_Default := col_Default a; col_Comment := col_Comment a;
           col_Options := options; col_Constraints := constraints;
           col_MyDecos := decos |} = true.
Proof.
  intros Hc Hd out cc dc. subst out cc dc. split_and!.
  - rewrite (countb_column_test _ σ current desired k c d); [|by
      intros [] E; try discriminate E; apply bool_decide_eq_true in E as [-> _]
      |done..].
    apply count_DropColumn.
  - rewrite (countb_column_test _ σ current desired k c d); [|by
      intros [] E; try discriminate E; apply bool_decide_eq_true in E as [-> _]
      |done..].
    apply count_AddColumn, columnsFromElements_lookup.
  - rewrite (countb_column_test _ σ current desired k c d); [|by
      intros [] E; try discriminate E; apply bool_decide_eq_true in E as [-> _]
      |done..].
    apply count_AlterColumn, columnsFromElements_lookup.
  - apply columnsEqual_spec.
  - intros a options constraints decos. by apply columnsEqual_spec.
Qed.

(** ** Constraints named on both sides *)

(** C7. For a table present in both snapshots (current side [c], desired side
    [d]) and a constraint name under which both sides' named-constraint maps
    hold a constraint, whatever the two constraints are, no change of the
    output of [DiffDatabase] is a constraint change of that table for that
    name. *)
Theorem same_name_constraints (σ : Schedule) (current desired : option MetaDatabase)
  (k : string) (c d : MetaTable) (name : string) (tc1 tc2 : TableConstraint) :
  tablesByName (GetTables current) !! k = Some c →
  tablesByName (GetTables desired) !! k = Some d →
  constraintsFromElements (tbl_Elements c) !! name = Some tc1 →
  constraintsFromElements (tbl_Elements d) !! name = Some tc2 →
  ∀ ch, ch ∈ DiffDatabase σ current desired →
        ¬ (changeTableName ch = tbl_Name d
           ∧ changeConstraintName ch = Some name).
Proof.
  intros Hc Hd H1 H2 ch Hch [Htn Hcn].
  rewrite DiffDatabase_perm in Hch.
  apply databaseChanges_elem in Hch
    as [(k' & t & Hk' & Hnone & Hch)|[(k' & t & _ & _ & ->)|
        (k' & c' & d' & Hc' & Hd' & Hch)]].
  - apply dropTableChanges_elem in Hch as (Htn' & _).
    apply tablesByName_lookup in Hk' as [Hk' _].
    pose proof (tablesByName_lookup _ _ _ Hd) as [Hk _].
    assert (k' = k) as -> by congruence. congruence.
  - done.
  - pose proof (tableChanges_elem _ _ _ Hch) as Htn'.
    pose proof (tablesByName_lookup _ _ _ Hd) as [Hk _].
    pose proof (tablesByName_lookup _ _ _ Hd') as [Hk' _].
    assert (k' = k) as -> by congruence.
    assert (c' = c) as -> by congruence.
    assert (d' = d) as -> by congruence.
    unfold tableChanges in Hch.
    apply elem_of_app in Hch as [Hch|[Hch|Hch]%elem_of_app].
    + apply optionChanges_elem in Hch as (_ & _ & ?). congruence.
    + apply columnChanges_elem in Hch as (_ & ? & _). congruence.
    + apply constraintChanges_elem in Hch
        as (_ & _ & [(n & tc & _ & Hn & ->)|(n & tc & Hn & Hn' & ->)]);
        simpl in Hcn.
      * congruence.
      * apply constraintsFromElements_lookup in Hn as [Hn _]. congruence.
Qed.

(** ** Tables without a qualified name *)

Lemma nameless_tableName (on : option ObjectName) :
  nameless on → tableName on = "".
Proof.
  destruct on as [o|]; [|done]. simpl. intros Ho. unfold tableName.
  by rewrite Ho.
Qed.

(** C10. [tableName] is total: on a nil ObjectName and on one with no
    identifier it returns the empty string.  Hence, when [current] holds a
    table [c] and [desired] a table [d] whose names are missing or empty, both
    are indexed under the empty key, and the output of [DiffDatabase] neither
    drops nor adds any table whose name is missing or empty: all of them are
    taken to be one table present on both sides. *)
Theorem nameless_tables (σ : Schedule) (current desired : option MetaDatabase)
  (c d : MetaTable) :
  c ∈ GetTables current →
  d ∈ GetTables desired →
  nameless (tbl_Name c) →
  nameless (tbl_Name d) →
  tableName (tbl_Name c) = "" ∧ tableName (tbl_Name d) = ""
  ∧ is_Some (tablesByName (GetTables current) !! "")
  ∧ is_Some (tablesByName (GetTables desired) !! "")
  ∧ ∀ ch, ch ∈ DiffDatabase σ current desired →
          match ch with
          | DropTable tn => ¬ nameless tn
          | AddTable t => ¬ nameless (tbl_Name t)
          | _ => True
          end.
Proof.
  intros Hc Hd Hnc%nameless_tableName Hnd%nameless_tableName.
  apply tablesByName_is_Some in Hc, Hd. rewrite Hnc in Hc. rewrite Hnd in Hd.
  split_and!; [done..|].
  intros ch Hch. rewrite DiffDatabase_perm in Hch.
  apply databaseChanges_elem in Hch
    as [(k' & t & Hk' & Hnone & Hch)|[(k' & t & Hk' & Hnone & ->)|
        (k' & c' & d' & Hc' & Hd' & Hch)]].
  - apply dropTableChanges_elem in Hch as (_ & _ & [->|(n & fk & ->)]); [|done].
    intros Hn%nameless_tableName.
    apply tablesByName_lookup in Hk' as [Hk' _].
    rewrite <- Hk', Hn in Hnone. rewrite Hnone in Hd. by destruct Hd.
  - intros Hn%nameless_tableName.
    apply tablesByName_lookup in Hk' as [Hk' _].
    rewrite <- Hk', Hn in Hnone. rewrite Hnone in Hc. by destruct Hc.
  - unfold tableChanges in Hch.
    apply elem_of_app in Hch as [Hch|[Hch|Hch]%elem_of_app].
    + unfold optionChanges in Hch. case_bool_decide; [|by apply elem_of_nil in Hch].
      by apply list_elem_of_singleton in Hch as ->.
    + apply columnChanges_elem in Hch as (_ & _ & [? Hcn]). by destruct ch.
    + by apply constraintChanges_elem in Hch
        as (_ & _ & [(? & ? & _ & _ & ->)|(? & ? & _ & _ & ->)]).
Qed.

(** ** The conversion layer *)

Lemma bind_constraintElement {A} (f : A → option TableConstraint) (l : list A) :
  l ≫= (λ x, constraintElement (f x))
  = TableElement_TableConstraintElement <$> omap f l.
Proof.
  induction l as [|x l IH]; [done|].
  rewrite bind_cons, IH. simpl. by destruct (f x).
Qed.

Lemma bind_guarded_constraintElement {A} (cond : A → bool)
  (f : A → option TableConstraint) (l : list A) :
  l ≫= (λ x, if cond x then constraintElement (f x) else [])
  = TableElement_TableConstraintElement
      <$> omap (λ x, if cond x then f x else None) l.
Proof.
  induction l as [|x l IH]; [done|].
  rewrite bind_cons, IH. simpl. destruct (cond x); [|done]. by destruct (f x).
Qed.

Lemma bind_singleton_fmap {A B} (f : A → B) (l : list A) :
  l ≫= (λ x, [f x]) = f <$> l.
Proof. induction l as [|x l IH]; [done|]. by rewrite bind_cons, IH. Qed.

Lemma Forall_fmap_omap {A} (P : TableElement → Prop)
  (f : A → option TableConstraint) (l : list A) :
  (∀ x tc, f x = Some tc → P (TableElement_TableConstraintElement tc)) →
  Forall P (TableElement_TableConstraintElement <$> omap f l).
Proof.
  intros Hf. apply Forall_fmap, Forall_forall.
  intros tc (x & _ & Hx)%list_elem_of_omap. simpl. by eapply Hf.
Qed.

(** C8. For every non-nil dialect-native table the element list of the
    converted MetaTable is: the converted columns in their source order, then
    the converted non-reference table constraints, then the converted foreign
    keys, then the unique/primary indexes promoted to table constraints, each
    group in source order.  Postgres promotes no index (its last group is
    empty), MySQL has no separate group of non-reference constraints, SQLite
    and BigQuery tables convert to their columns only. *)
Theorem converted_element_order :
  (∀ t : PGTable, ∃ m,
      PGTableToMetaTable (Some t) = Some m
      ∧ orderedAs (tbl_Elements m)
          ((λ col, TableElement_ColumnDefElement (PGColumnToColumnDef col))
             <$> pgt_Columns t)
          (TableElement_TableConstraintElement
             <$> omap PGConstraintToTableConstraint (pgt_Constraints t))
          (TableElement_TableConstraintElement
             <$> omap PGForeignKeyToTableConstraint (pgt_ForeignKeys t))
          [])
  ∧ (∀ t : MYTable, ∃ m,
      MYTableToMetaTable (Some t) = Some m
      ∧ orderedAs (tbl_Elements m)
          ((λ col, TableElement_ColumnDefElement (MYColumnToColumnDef col))
             <$> myt_Columns t)
          []
          (TableElement_TableConstraintElement
             <$> omap MYForeignKeyToTableConstraint (myt_ForeignKeys t))
          (TableElement_TableConstraintElement
             <$> omap (λ idx,
                   if myi_IsUnique idx
                      || bool_decide
                           (strings_ToUpper (myi_IndexType idx) = "PRIMARY")
                   then MYIndexToTableConstraint (Some idx)
                   else None) (myt_Indexes t)))
  ∧ (∀ t : SQLiteTable, ∃ m,
      SQLiteTableToMetaTable (Some t) = Some m
      ∧ orderedAs (tbl_Elements m)
          ((λ col, TableElement_ColumnDefElement (SQLiteColumnToColumnDef col))
             <$> slt_Columns t)
          [] [] [])
  ∧ (∀ t : BQTable, ∃ m,
      BQTableToMetaTable (Some t) = Some m
      ∧ orderedAs (tbl_Elements m)
          ((λ col, TableElement_ColumnDefElement (BQColumnToColumnDef col))
             <$> bqt_Schema t)
          [] [] []).
Proof.
  assert (Hcols : ∀ A (f : A → option ColumnDef) (l : list A),
             Forall isColumnElement
               ((λ col, TableElement_ColumnDefElement (f col)) <$> l)).
  { intros A f l. apply Forall_fmap, Forall_forall. by intros. }
  split_and!.
  - intros t. eexists. split; [done|]. unfold orderedAs. simpl.
    rewrite !for_append_bind. simpl.
    rewrite bind_singleton_fmap, !bind_constraintElement.
    rewrite (bind_nil_forall _ (pgt_Indexes t))
      by (intros idx _; by destruct (_ || _)).
    rewrite <- !(assoc_L (++)).
    split_and!; [done|apply Hcols| | |constructor].
    + apply Forall_fmap_omap. intros [con|] tc; [|done]. simpl.
      repeat case_bool_decide; by intros [= <-].
    + apply Forall_fmap_omap. intros [fk|] tc [= <-]. simpl. by eexists.
  - intros t. eexists. split; [done|]. unfold orderedAs. simpl.
    rewrite !for_append_bind. simpl.
    rewrite bind_singleton_fmap, bind_constraintElement.
    replace (myt_Indexes t ≫= _)
      with (TableElement_TableConstraintElement
              <$> omap (λ idx,
                    if myi_IsUnique idx
                       || bool_decide
                            (strings_ToUpper (myi_IndexType idx) = "PRIMARY")
                    then MYIndexToTableConstraint (Some idx)
                    else None) (myt_Indexes t)).
    2:{ symmetry.
        apply (bind_guarded_constraintElement
                 (λ idx, myi_IsUnique idx
                         || bool_decide
                              (strings_ToUpper (myi_IndexType idx) = "PRIMARY"))
                 (λ idx, MYIndexToTableConstraint (Some idx))). }
    rewrite <- !(assoc_L (++)).
    split_and!; [done|apply Hcols|constructor| |].
    + apply Forall_fmap_omap. intros [fk|] tc [= <-]. simpl. by eexists.
    + apply Forall_fmap_omap. intros idx tc. destruct (_ || _); [|done].
      simpl. destruct (_ && _); [done|]. intros [= <-]. simpl. by eexists.
  - intros t. eexists. split; [done|]. unfold orderedAs. simpl.
    rewrite for_append_bind. simpl. rewrite bind_singleton_fmap, app_nil_r.
    split_and!; [done|apply Hcols|constructor..].
  - intros t. eexists. split; [done|]. unfold orderedAs. simpl.
    rewrite for_append_bind. simpl. rewrite bind_singleton_fmap, app_nil_r.
    split_and!; [done|apply Hcols|constructor..].
Qed.

(** C9. Every conversion function of a dialect table, column, constraint,
    foreign key or index returns nil on a nil input. *)
Theorem conversions_of_nil :
  PGTableToMetaTable None = None
  ∧ PGColumnToColumnDef None = None
  ∧ PGConstraintToTableConstraint None = None
  ∧ PGForeignKeyToTableConstraint None = None
  ∧ MYTableToMetaTable None = None
  ∧ MYColumnToColumnDef None = None
  ∧ MYForeignKeyToTableConstraint None = None
  ∧ MYIndexToTableConstraint None = None
  ∧ SQLiteTableToMetaTable None = None
  ∧ SQLiteColumnToColumnDef None = None
  ∧ BQTableToMetaTable None = None
  ∧ BQColumnToColumnDef None = None.
Proof. by split_and!. Qed.

(** * Further properties of the diff engine *)

(** ** [SortChanges] *)

Lemma sorted_lookup_le (l : list SchemaChange) :
  StronglySorted prio_le l →
  ∀ i j a b, l !! i = Some a → l !! j = Some b → i < j → prio_le a b.
Proof.
  induction 1 as [|x l Hl IH Hx]; intros i j a b Hi Hj Hij; [done|].
  destruct j as [|j]; [lia|]. simpl in Hj.
  destruct i as [|i]; simpl in Hi.
  - injection Hi as ->. eapply Forall_forall in Hx; [done|].
    by eapply list_elem_of_lookup_2.
  - eapply IH; [done..|lia].
Qed.

Lemma foldl_unchanged {A B} (f : A → B → A) (a : A) (l : list B) :
  (∀ x, x ∈ l → f a x = a) → foldl f a l = a.
Proof.
  induction l as [|x l IH]; intros Hl; [done|].
  simpl. rewrite Hl by left. apply IH. intros y Hy. apply Hl. by right.
Qed.

Lemma swap_step_sorted (l : list SchemaChange) i j :
  StronglySorted prio_le l → i < j → swap_step i l j = l.
Proof.
  intros Hl Hij. unfold swap_step.
  destruct (l !! i) as [ci|] eqn:Hi; [|done].
  destruct (l !! j) as [cj|] eqn:Hj; [|done].
  pose proof (sorted_lookup_le l Hl i j ci cj Hi Hj Hij) as Hle.
  unfold prio_le in Hle.
  destruct (Z.gtb_spec (Priority ci) (Priority cj)); [lia|done].
Qed.

Lemma SortChanges_of_sorted (l : list SchemaChange) :
  StronglySorted prio_le l → SortChanges l = l.
Proof.
  intros Hl. unfold SortChanges. apply foldl_unchanged. intros i _.
  unfold sort_inner. apply foldl_unchanged.
  intros j [Hj _]%elem_of_seq. apply swap_step_sorted; [done|lia].
Qed.

(** X1. [SortChanges] only rearranges the slice: the sorted slice holds the
    same changes, each as often as before, and has the same length. *)
Theorem SortChanges_rearranges (changes : list SchemaChange) :
  SortChanges changes ≡ₚ changes
  ∧ length (SortChanges changes) = length changes.
Proof.
  split; [apply SortChanges_perm|]. by rewrite SortChanges_perm.
Qed.

(** X2. [SortChanges] leaves a slice that is already in priority order as it
    is (no comparison swaps), so sorting a second time changes nothing. *)
Theorem SortChanges_sorted_input (changes : list SchemaChange) :
  (StronglySorted (λ a b, (Priority a ≤ Priority b)%Z) changes →
   SortChanges changes = changes)
  ∧ SortChanges (SortChanges changes) = SortChanges changes.
Proof.
  split; [apply SortChanges_of_sorted|].
  apply SortChanges_of_sorted, SortChanges_sorted.
Qed.

(** ** [mapsEqual] *)

(** X3. [mapsEqual] returns true exactly when the two maps hold the same
    key/value pairs, in whatever order the loop visits the first map; it is
    therefore symmetric in its arguments. *)
Theorem mapsEqual_iff (σ σ' : Schedule) (a b : gmap string string) (n n' : nat) :
  ((mapsEqual σ a b n).1 = true ↔ a = b)
  ∧ (mapsEqual σ a b n).1 = (mapsEqual σ' b a n').1.
Proof.
  rewrite !mapsEqual_spec. split.
  - by rewrite bool_decide_eq_true.
  - apply bool_decide_ext. split; by intros ->.
Qed.

(** ** The changes of the output, table by table *)

Lemma filter_bind {A B} (P : B → Prop) `{∀ x, Decision (P x)}
  (f : A → list B) (l : list A) :
  filter P (l ≫= f) = l ≫= (λ x, filter P (f x)).
Proof.
  induction l as [|x l IH]; [done|].
  by rewrite !bind_cons, filter_app, IH.
Qed.

Lemma filter_all {A} (P : A → Prop) `{∀ x, Decision (P x)} (l : list A) :
  (∀ x, x ∈ l → P x) → filter P l = l.
Proof.
  induction l as [|x l IH]; intros Hl; [done|].
  rewrite filter_cons_True by (apply Hl; left).
  f_equal. apply IH. intros y Hy. apply Hl. by right.
Qed.

Lemma filter_none {A} (P : A → Prop) `{∀ x, Decision (P x)} (l : list A) :
  (∀ x, x ∈ l → ¬ P x) → filter P l = [].
Proof.
  induction l as [|x l IH]; intros Hl; [done|].
  rewrite filter_cons_False by (apply Hl; left).
  apply IH. intros y Hy. apply Hl. by right.
Qed.

Lemma filter_bind_map_none {V B} (P : B → Prop) `{∀ x, Decision (P x)}
  (f : string * V → list B) (m : gmap string V) :
  (∀ k v, m !! k = Some v → filter P (f (k, v)) = []) →
  filter P (map_to_list m ≫= f) = [].
Proof.
  intros Hm. rewrite filter_bind. apply bind_nil_forall.
  intros [k v] Hkv%elem_of_map_to_list. by apply Hm.
Qed.

Lemma filter_bind_map_one {V B} (P : B → Prop) `{∀ x, Decision (P x)}
  (f : string * V → list B) (m : gmap string V) k v :
  m !! k = Some v →
  (∀ k' v', k' ≠ k → m !! k' = Some v' → filter P (f (k', v')) = []) →
  filter P (map_to_list m ≫= f) ≡ₚ filter P (f (k, v)).
Proof.
  intros Hk Hother. rewrite <- (map_to_list_delete m k v Hk).
  rewrite bind_cons, filter_app, filter_bind_map_none; [by rewrite app_nil_r|].
  intros k' v' [Hne Hk']%lookup_delete_Some. by apply Hother.
Qed.

Lemma StronglySorted_filter {A} (R : relation A) (P : A → Prop)
  `{∀ x, Decision (P x)} (l : list A) :
  StronglySorted R l → StronglySorted R (filter P l).
Proof.
  induction 1 as [|x l Hl IH Hx]; [constructor|].
  rewrite filter_cons. destruct (decide (P x)); [|done].
  constructor; [done|]. apply Forall_forall.
  intros y [_ Hy]%list_elem_of_filter. by eapply Forall_forall in Hx.
Qed.

(** Two indexed tables with the same name sit under the same key. *)
Lemma indexed_name_key (ts1 ts2 : list MetaTable) k1 k2 t1 t2 :
  tablesByName ts1 !! k1 = Some t1 →
  tablesByName ts2 !! k2 = Some t2 →
  tbl_Name t1 = tbl_Name t2 → k1 = k2.
Proof.
  intros [H1 _]%tablesByName_lookup [H2 _]%tablesByName_lookup Heq. congruence.
Qed.

Lemma dropTableChanges_eq (t : MetaTable) :
  dropTableChanges t
  = ((λ tc, DropConstraint (tbl_Name t) (tc_Name tc)
              (notNil (GetReferenceItem (tc_Spec tc))))
       <$> tableConstraints (tbl_Elements t))
    ++ [DropTable (tbl_Name t)].
Proof.
  unfold dropTableChanges, tableConstraints. rewrite for_append_bind. simpl.
  f_equal. induction (tbl_Elements t) as [|e l IH]; [done|].
  rewrite bind_cons, IH. simpl. by destruct (GetTableConstraintElement e).
Qed.

(** The changes that refer to a table indexed in [desired]: those of the pair
    when [current] indexes a table under the same key, the AddTable
    otherwise. *)
Lemma filter_desired_table (current desired : option MetaDatabase) k d :
  tablesByName (GetTables desired) !! k = Some d →
  filter (λ ch, changeTableName ch = tbl_Name d) (databaseChanges current desired)
  ≡ₚ match tablesByName (GetTables current) !! k with
     | Some c => tableChanges c d
     | None => [AddTable d]
     end.
Proof.
  intros Hd. unfold databaseChanges, droppedTables, addedTables, keptTables.
  simpl. rewrite !filter_app.
  rewrite filter_bind_map_none.
  2:{ intros k' t Hk'.
      destruct (tablesByName (GetTables desired) !! k') eqn:Hnone; [done|].
      apply filter_none. intros ch (Htn & _)%dropTableChanges_elem Heq.
      assert (k' = k) as -> by (eapply indexed_name_key; [done..|congruence]).
      congruence. }
  simpl.
  rewrite (filter_bind_map_one _ _ _ k d Hd).
  2:{ intros k' d' Hne Hd'.
      destruct (tablesByName (GetTables current) !! k'); [done|].
      apply filter_none. intros ch ->%list_elem_of_singleton Heq. simpl in Heq.
      apply Hne. by eapply indexed_name_key. }
  rewrite (filter_bind_map_one _ _ _ k d Hd).
  2:{ intros k' d' Hne Hd'.
      destruct (tablesByName (GetTables current) !! k') as [c'|]; [|done].
      apply filter_none. intros ch Htn%tableChanges_elem Heq.
      apply Hne. eapply indexed_name_key; [done..|congruence]. }
  destruct (tablesByName (GetTables current) !! k) as [c|].
  - rewrite filter_nil. simpl. apply reflexive_eq, filter_all.
    intros ch Hch. by apply tableChanges_elem in Hch.
  - rewrite filter_nil, app_nil_r. by rewrite filter_cons_True, filter_nil.
Qed.

(** The changes that refer to a table indexed in [current] only. *)
Lemma filter_dropped_table (current desired : option MetaDatabase) k t :
  tablesByName (GetTables current) !! k = Some t →
  tablesByName (GetTables desired) !! k = None →
  filter (λ ch, changeTableName ch = tbl_Name t) (databaseChanges current desired)
  ≡ₚ dropTableChanges t.
Proof.
  intros Ht Hnone. unfold databaseChanges, droppedTables, addedTables, keptTables.
  simpl. rewrite !filter_app.
  rewrite (filter_bind_map_one _ _ _ k t Ht).
  2:{ intros k' t' Hne Ht'.
      destruct (tablesByName (GetTables desired) !! k'); [done|].
      apply filter_none. intros ch (Htn & _)%dropTableChanges_elem Heq.
      apply Hne. eapply indexed_name_key; [done..|congruence]. }
  rewrite filter_bind_map_none.
  2:{ intros k' d' Hd'.
      destruct (tablesByName (GetTables current) !! k'); [done|].
      apply filter_none. intros ch ->%list_elem_of_singleton Heq. simpl in Heq.
      assert (k' = k) as -> by by eapply indexed_name_key. congruence. }
  rewrite filter_bind_map_none.
  2:{ intros k' d' Hd'.
      destruct (tablesByName (GetTables current) !! k') as [c'|]; [|done].
      apply filter_none. intros ch Htn%tableChanges_elem Heq.
      assert (k' = k) as -> by (eapply indexed_name_key; [done..|congruence]).
      congruence. }
  rewrite Hnone, !app_nil_r. apply reflexive_eq, filter_all.
  intros ch Hch. by apply dropTableChanges_elem in Hch as (? & _).
Qed.

(** X4. A table indexed in [desired] whose simple name [current] does not
    index yields exactly one change in the output of [DiffDatabase], the
    AddTable carrying the desired table: no other change of the output refers
    to that table. *)
Theorem added_table (σ : Schedule) (current desired : option MetaDatabase)
  (k : string) (d : MetaTable) :
  tablesByName (GetTables current) !! k = None →
  tablesByName (GetTables desired) !! k = Some d →
  filter (λ ch, changeTableName ch = tbl_Name d) (DiffDatabase σ current desired)
  = [AddTable d].
Proof.
  intros Hc Hd. apply Permutation_singleton_r.
  rewrite DiffDatabase_perm, (filter_desired_table _ _ k d Hd). by rewrite Hc.
Qed.

(** X5. A table [t] indexed in [current] whose simple name [desired] does not
    index: the changes of the output that refer to it are one DropConstraint
    for every table-constraint element of [t] (named or not, with IsForeignKey
    set exactly for reference constraints) and one DropTable, and in the
    output that DropTable comes after all of these DropConstraints. *)
Theorem dropped_table (σ : Schedule) (current desired : option MetaDatabase)
  (k : string) (t : MetaTable) :
  tablesByName (GetTables current) !! k = Some t →
  tablesByName (GetTables desired) !! k = None →
  ∃ drops,
    filter (λ ch, changeTableName ch = tbl_Name t) (DiffDatabase σ current desired)
    = drops ++ [DropTable (tbl_Name t)]
    ∧ drops ≡ₚ (λ tc, DropConstraint (tbl_Name t) (tc_Name tc)
                        (notNil (GetReferenceItem (tc_Spec tc))))
               <$> tableConstraints (tbl_Elements t).
Proof.
  intros Ht Hnone.
  set (out := filter _ (DiffDatabase σ current desired)).
  assert (Hperm : out ≡ₚ dropTableChanges t).
  { subst out. rewrite DiffDatabase_perm. by apply (filter_dropped_table _ _ k). }
  rewrite dropTableChanges_eq in Hperm.
  set (dcs := (λ tc, DropConstraint _ _ _) <$> _) in *.
  assert (Hsorted : StronglySorted prio_le out).
  { subst out. apply StronglySorted_filter, SortChanges_sorted. }
  assert (Hin : DropTable (tbl_Name t) ∈ out).
  { rewrite Hperm. apply elem_of_app. right. left. }
  apply list_elem_of_split in Hin as (l1 & l2 & Hout).
  rewrite Hout in Hperm, Hsorted.
  assert (Hrest : l1 ++ l2 ≡ₚ dcs).
  { apply (inj (DropTable (tbl_Name t) ::.)).
    by rewrite Permutation_middle, Hperm, <- Permutation_cons_append. }
  destruct l2 as [|c l2].
  - exists l1. rewrite app_nil_r in Hrest. by rewrite Hout.
  - exfalso.
    apply StronglySorted_app in Hsorted as (_ & _ & Hs).
    apply StronglySorted_cons in Hs as [Hs _].
    apply Forall_cons in Hs as [Hs _].
    assert (Hc : c ∈ dcs) by (rewrite <- Hrest; apply elem_of_app; right; left).
    subst dcs. apply list_elem_of_fmap in Hc as (tc & -> & _).
    unfold prio_le in Hs. simpl in Hs. destruct (notNil _); lia.
Qed.

(** X6. A table indexed under the same simple name on both sides: the changes
    of the output that refer to the desired table are, up to their order, the
    changes [diffTable] returns for the pair. *)
Theorem kept_table (σ σ' : Schedule) (current desired : option MetaDatabase)
  (k : string) (c d : MetaTable) (n : nat) :
  tablesByName (GetTables current) !! k = Some c →
  tablesByName (GetTables desired) !! k = Some d →
  filter (λ ch, changeTableName ch = tbl_Name d) (DiffDatabase σ current desired)
  ≡ₚ (diffTable σ' c d n).1.
Proof.
  intros Hc Hd.
  rewrite DiffDatabase_perm, (filter_desired_table _ _ k d Hd), Hc.
  by rewrite diffTable_perm.
Qed.

(** ** Constraint and option changes of a table present on both sides *)

Lemma countb_filter {A} (p : A → bool) (P : A → Prop) `{∀ x, Decision (P x)}
  (l : list A) :
  (∀ x, p x = true → P x) → countb p (filter P l) = countb p l.
Proof.
  intros Hp. induction l as [|x l IH]; [done|].
  rewrite filter_cons. destruct (decide (P x)) as [HP|HP]; simpl.
  - by rewrite IH.
  - rewrite IH. destruct (p x) eqn:E; [|done]. by apply Hp in E.
Qed.

(** A test that only accepts changes of the desired table [d] counts, in the
    whole output, what it counts among the changes of the pair. *)
Lemma countb_kept_table (p : SchemaChange → bool) (σ : Schedule)
  (current desired : option MetaDatabase) k c d :
  (∀ ch, p ch = true → changeTableName ch = tbl_Name d) →
  tablesByName (GetTables current) !! k = Some c →
  tablesByName (GetTables desired) !! k = Some d →
  countb p (DiffDatabase σ current desired) = countb p (tableChanges c d).
Proof.
  intros Hp Hc Hd.
  rewrite <- (countb_filter p (λ ch, changeTableName ch = tbl_Name d)) by done.
  by rewrite DiffDatabase_perm, (filter_desired_table _ _ k d Hd), Hc.
Qed.

Lemma count_DropConstraint tn name (cc dc : gmap string TableConstraint) :
  countb (isDropConstraint tn name) (constraintChanges tn cc dc)
  = match cc !! name, dc !! name with Some _, None => 1 | _, _ => 0 end.
Proof.
  unfold constraintChanges. rewrite countb_app.
  rewrite (countb_bind_map_zero _ _ dc).
  2:{ intros n tc _. by destruct (cc !! n). }
  rewrite Nat.add_0_r.
  destruct (cc !! name) as [tc|] eqn:Htc.
  - rewrite (countb_bind_map_one _ _ cc name tc Htc).
    + destruct (dc !! name); [done|]. simpl.
      by rewrite bool_decide_eq_true_2.
    + intros n tc' Hne _. destruct (dc !! n); [done|]. simpl.
      rewrite bool_decide_eq_false_2; [done|]. by intros [_ ?].
  - apply countb_bind_map_zero. intros n tc' Hn.
    destruct (dc !! n); [done|]. simpl.
    rewrite bool_decide_eq_false_2; [done|]. intros [_ ->]. congruence.
Qed.

Lemma count_AddConstraint tn name (cc dc : gmap string TableConstraint) :
  (∀ n tc, dc !! n = Some tc → tc_Name tc = n) →
  countb (isAddConstraint tn name) (constraintChanges tn cc dc)
  = match cc !! name, dc !! name with None, Some _ => 1 | _, _ => 0 end.
Proof.
  intros Hdc. unfold constraintChanges. rewrite countb_app.
  rewrite (countb_bind_map_zero _ _ cc).
  2:{ intros n tc _. by destruct (dc !! n). }
  simpl.
  destruct (dc !! name) as [tc|] eqn:Htc.
  - rewrite (countb_bind_map_one _ _ dc name tc Htc).
    + destruct (cc !! name); [done|]. simpl.
      rewrite bool_decide_eq_true_2; [done|]. split; [done|by apply Hdc].
    + intros n tc' Hne Hn. destruct (cc !! n); [done|]. simpl.
      rewrite bool_decide_eq_false_2; [done|].
      intros [_ Hname]. pose proof (Hdc _ _ Hn). congruence.
  - rewrite countb_bind_map_zero; [by destruct (cc !! name)|].
    intros n tc' Hn. destruct (cc !! n); [done|]. simpl.
    rewrite bool_decide_eq_false_2; [done|].
    intros [_ Hname]. pose proof (Hdc _ _ Hn). congruence.
Qed.

(** X7. For a table present on both sides (current side [c], desired side [d])
    and a constraint name: the output holds exactly one DropConstraint of that
    table and name when only the current side's named-constraint map holds the
    name (none otherwise), with IsForeignKey set exactly for a reference
    constraint, and exactly one AddConstraint, carrying the desired
    constraint, when only the desired side's map holds it (none otherwise). *)
Theorem constraint_changes (σ : Schedule) (current desired : option MetaDatabase)
  (k : string) (c d : MetaTable) (name : string) :
  tablesByName (GetTables current) !! k = Some c →
  tablesByName (GetTables desired) !! k = Some d →
  let out := DiffDatabase σ current desired in
  let cc := constraintsFromElements (tbl_Elements c) in
  let dc := constraintsFromElements (tbl_Elements d) in
  countb (isDropConstraint (tbl_Name d) name) out
    = match cc !! name, dc !! name with Some _, None => 1 | _, _ => 0 end
  ∧ countb (isAddConstraint (tbl_Name d) name) out
    = match cc !! name, dc !! name with None, Some _ => 1 | _, _ => 0 end
  ∧ (∀ tc, cc !! name = Some tc → dc !! name = None →
           DropConstraint (tbl_Name d) name
             (notNil (GetReferenceItem (tc_Spec tc))) ∈ out)
  ∧ (∀ tc, cc !! name = None → dc !! name = Some tc →
           AddConstraint (tbl_Name d) tc ∈ out).
Proof.
  intros Hc Hd out cc dc.
  assert (Hcount : ∀ p, (∀ ch, p ch = true →
                               changeTableName ch = tbl_Name d
                               ∧ is_Some (changeConstraintName ch)) →
            countb p out = countb p (constraintChanges (tbl_Name d) cc dc)).
  { intros p Hp. subst out.
    rewrite (countb_kept_table p σ current desired k c d);
      [|by intros ch [? _]%Hp|done..].
    unfold tableChanges. rewrite !countb_app.
    rewrite (countb_not_in p (optionChanges c d) _ (optionChanges_elem c d)).
    2:{ intros ch (_ & _ & Hn). destruct (p ch) eqn:E; [|done].
        apply Hp in E as [_ [? ?]]. congruence. }
    rewrite (countb_not_in p (columnChanges _ _ _) _ (columnChanges_elem _ _ _)).
    2:{ intros ch (_ & Hn & _). destruct (p ch) eqn:E; [|done].
        apply Hp in E as [_ [? ?]]. congruence. }
    done. }
  assert (Hmem : ∀ ch, ch ∈ constraintChanges (tbl_Name d) cc dc → ch ∈ out).
  { intros ch Hch. subst out. rewrite DiffDatabase_perm.
    unfold databaseChanges. rewrite !elem_of_app. right; right.
    unfold keptTables. apply list_elem_of_bind. exists (k, d).
    split; [|by apply elem_of_map_to_list].
    rewrite Hc. unfold tableChanges. rewrite !elem_of_app. by right; right. }
  split_and!.
  - rewrite Hcount; [apply count_DropConstraint|].
    intros [] E; try discriminate E.
    apply bool_decide_eq_true in E as [-> _]. simpl. eauto.
  - rewrite Hcount;
      [apply count_AddConstraint; intros n tc Hn;
       by apply constraintsFromElements_lookup in Hn as [? _]|].
    intros [] E; try discriminate E.
    apply bool_decide_eq_true in E as [-> _]. simpl. eauto.
  - intros tc H1 H2. apply Hmem. unfold constraintChanges.
    apply elem_of_app. left. apply list_elem_of_bind. exists (name, tc).
    split; [|by apply elem_of_map_to_list]. rewrite H2. left.
  - intros tc H1 H2. apply Hmem. unfold constraintChanges.
    apply elem_of_app. right. apply list_elem_of_bind. exists (name, tc).
    split; [|by apply elem_of_map_to_list]. rewrite H1. left.
Qed.

(** X8. For a table present on both sides the output holds an
    AlterTableOptions of the desired table exactly when the two comments
    differ or the two option maps differ as sets of key/value pairs, and then
    exactly one, carrying the old and new options and comments. *)
Theorem table_option_changes (σ : Schedule) (current desired : option MetaDatabase)
  (k : string) (c d : MetaTable) :
  tablesByName (GetTables current) !! k = Some c →
  tablesByName (GetTables desired) !! k = Some d →
  let out := DiffDatabase σ current desired in
  let differ := bool_decide (tbl_Comment c ≠ tbl_Comment d
                             ∨ tbl_Options c ≠ tbl_Options d) in
  countb (isAlterTableOptions (tbl_Name d)) out = (if differ then 1 else 0)
  ∧ (differ = true →
     AlterTableOptions (tbl_Name d) (tbl_Options c) (tbl_Options d)
       (tbl_Comment c) (tbl_Comment d) ∈ out).
Proof.
  intros Hc Hd out differ. split.
  - subst out.
    rewrite (countb_kept_table _ σ current desired k c d); [| |done..].
    2:{ intros [] E; try discriminate E. by apply bool_decide_eq_true in E. }
    unfold tableChanges. rewrite !countb_app.
    rewrite (countb_not_in _ (columnChanges _ _ _) _ (columnChanges_elem _ _ _)).
    2:{ intros ch (_ & _ & [? Hn]). by destruct ch. }
    rewrite (countb_not_in _ (constraintChanges _ _ _) _
               (constraintChanges_elem _ _ _)).
    2:{ by intros ch (_ & _ & [(? & ? & _ & _ & ->)|(? & ? & _ & _ & ->)]). }
    unfold optionChanges. fold differ. destruct differ; simpl; [|done].
    by rewrite bool_decide_eq_true_2.
  - intros Hdiff. subst out. rewrite DiffDatabase_perm.
    unfold databaseChanges. rewrite !elem_of_app. right; right.
    unfold keptTables. apply list_elem_of_bind. exists (k, d).
    split; [|by apply elem_of_map_to_list].
    rewrite Hc. unfold tableChanges, optionChanges. fold differ.
    rewrite Hdiff. rewrite !elem_of_app. left. left.
Qed.

(** ** Snapshots without tables *)

Lemma map_to_list_bind_snd {V B} (f : V → B) (m : gmap string V) :
  map_to_list m ≫= (λ '(_, v), [f v]) = f <$> (map_to_list m).*2.
Proof.
  induction (map_to_list m) as [|[k v] l IH]; [done|].
  rewrite bind_cons, IH. done.
Qed.

(** X9. When [current] is nil or has no table, the output consists of one
    AddTable for every table that [desired] indexes and of nothing else; when
    [desired] is nil or has no table, it consists, for every table that
    [current] indexes, of the DropConstraints of its table-constraint elements
    and of its DropTable, and of nothing else. *)
Theorem one_side_empty (σ : Schedule) (current desired : option MetaDatabase) :
  (GetTables current = [] →
   DiffDatabase σ current desired
   ≡ₚ AddTable <$> (map_to_list (tablesByName (GetTables desired))).*2)
  ∧ (GetTables desired = [] →
     DiffDatabase σ current desired
     ≡ₚ (map_to_list (tablesByName (GetTables current))).*2 ≫= dropTableChanges).
Proof.
  split; intros Hempty; rewrite DiffDatabase_perm;
    unfold databaseChanges, droppedTables, addedTables, keptTables;
    rewrite Hempty; simpl.
  - change (tablesByName []) with (∅ : gmap string MetaTable).
    rewrite map_to_list_empty. simpl.
    rewrite (bind_nil_forall (λ '(name, desTable),
               match (∅ : gmap string MetaTable) !! name with
               | Some currTable => tableChanges currTable desTable
               | None => []
               end)), app_nil_r.
    2:{ intros [k' d'] _. by rewrite lookup_empty. }
    rewrite <- map_to_list_bind_snd. apply reflexive_eq.
    induction (map_to_list _) as [|[k' d'] l IH]; [done|].
    rewrite !bind_cons, IH. by rewrite lookup_empty.
  - change (tablesByName []) with (∅ : gmap string MetaTable).
    rewrite map_to_list_empty. simpl. rewrite app_nil_r. apply reflexive_eq.
    induction (map_to_list _) as [|[k' t'] l IH]; [done|].
    rewrite fmap_cons, !bind_cons, IH. by rewrite lookup_empty.
Qed.

(** ** What the lookup maps keep *)

Lemma tablesByName_snoc (tables : list MetaTable) t :
  tablesByName (tables ++ [t])
  = <[tableName (tbl_Name t) := t]> (tablesByName tables).
Proof. unfold tablesByName. by rewrite foldl_snoc. Qed.

Lemma columnsFromElements_snoc (elems : list TableElement) e :
  columnsFromElements (elems ++ [e])
  = match GetColumnDefElement e with
    | Some col => <[col_Name col := col]> (columnsFromElements elems)
    | None => columnsFromElements elems
    end.
Proof. unfold columnsFromElements. by rewrite foldl_snoc. Qed.

Lemma constraintsFromElements_snoc (elems : list TableElement) e :
  constraintsFromElements (elems ++ [e])
  = match GetTableConstraintElement e with
    | Some tc =>
        if bool_decide (tc_Name tc ≠ "")
        then <[tc_Name tc := tc]> (constraintsFromElements elems)
        else constraintsFromElements elems
    | None => constraintsFromElements elems
    end.
Proof. unfold constraintsFromElements. by rewrite foldl_snoc. Qed.

Lemma last_filter_snoc {A} (P : A → Prop) `{∀ x, Decision (P x)} (l : list A) x :
  last (filter P (l ++ [x]))
  = if decide (P x) then Some x else last (filter P l).
Proof.
  rewrite filter_app, filter_cons, filter_nil.
  destruct (decide (P x)); [apply last_snoc|by rewrite app_nil_r].
Qed.

Lemma tablesByName_last (tables : list MetaTable) k :
  tablesByName tables !! k
  = last (filter (λ t, tableName (tbl_Name t) = k) tables).
Proof.
  induction tables as [|t tables IH] using rev_ind; [done|].
  rewrite tablesByName_snoc, last_filter_snoc, lookup_insert.
  by case_decide.
Qed.

Lemma columnsFromElements_last (elems : list TableElement) n :
  columnsFromElements elems !! n
  = last (filter (λ col, col_Name col = n) (columnDefs elems)).
Proof.
  induction elems as [|e elems IH] using rev_ind; [done|].
  rewrite columnsFromElements_snoc. unfold columnDefs in *.
  rewrite omap_app. simpl. destruct (GetColumnDefElement e) as [col|].
  - rewrite last_filter_snoc, lookup_insert. by case_decide.
  - by rewrite app_nil_r.
Qed.

Lemma constraintsFromElements_last (elems : list TableElement) n :
  constraintsFromElements elems !! n
  = if decide (n = "") then None
    else last (filter (λ tc, tc_Name tc = n) (tableConstraints elems)).
Proof.
  induction elems as [|e elems IH] using rev_ind.
  { by case_decide. }
  rewrite constraintsFromElements_snoc. unfold tableConstraints in *.
  rewrite omap_app. simpl. destruct (GetTableConstraintElement e) as [tc|].
  - rewrite last_filter_snoc. case_bool_decide as Hname.
    + rewrite lookup_insert. repeat case_decide; congruence.
    + rewrite IH. repeat case_decide; congruence.
  - by rewrite app_nil_r.
Qed.

Lemma is_Some_last_filter {A} (P : A → Prop) `{∀ x, Decision (P x)} (l : list A) :
  is_Some (last (filter P l)) ↔ ∃ x, x ∈ l ∧ P x.
Proof.
  rewrite last_is_Some. split.
  - intros Hne. destruct (filter P l) as [|x l'] eqn:E; [done|].
    exists x. apply and_comm, (list_elem_of_filter P). rewrite E. left.
  - intros (x & Hx & HP) Hnil.
    by eapply (filter_nil_not_elem_of P).
Qed.

(** X10. The three lookup maps keep, for every key, the last entry of the
    list that carries it: [tablesByName] the last table with that simple
    name, [columnsFromElements] the last non-nil column definition with that
    name, [constraintsFromElements] the last table constraint with that name,
    and nothing under the empty name.  Earlier entries with the same key are
    not seen by the diff. *)
Theorem lookup_maps_keep_last :
  (∀ (tables : list MetaTable) k,
      tablesByName tables !! k
      = last (filter (λ t, tableName (tbl_Name t) = k) tables))
  ∧ (∀ (elems : list TableElement) n,
      columnsFromElements elems !! n
      = last (filter (λ col, col_Name col = n) (columnDefs elems)))
  ∧ (∀ (elems : list TableElement) n,
      constraintsFromElements elems !! n
      = if decide (n = "") then None
        else last (filter (λ tc, tc_Name tc = n) (tableConstraints elems))).
Proof.
  split_and!.
  - apply tablesByName_last.
  - apply columnsFromElements_last.
  - apply constraintsFromElements_last.
Qed.

(** ** When the diff is empty *)

Lemma bind_nil_iff {A B} (f : A → list B) (l : list A) :
  l ≫= f = [] ↔ ∀ x, x ∈ l → f x = [].
Proof.
  split; [|apply bind_nil_forall].
  induction l as [|x l IH]; intros Hnil y Hy; [by apply elem_of_nil in Hy|].
  rewrite bind_cons in Hnil. apply app_nil in Hnil as [Hx Hl].
  apply elem_of_cons in Hy as [->|Hy]; [done|]. by apply IH.
Qed.

Lemma bind_map_nil_iff {V B} (f : string * V → list B) (m : gmap string V) :
  map_to_list m ≫= f = [] ↔ ∀ k v, m !! k = Some v → f (k, v) = [].
Proof.
  rewrite bind_nil_iff. split.
  - intros Hm k v Hk. apply Hm. by apply elem_of_map_to_list.
  - intros Hm [k v] Hk%elem_of_map_to_list. by apply Hm.
Qed.

Lemma columnChanges_nil_iff tn (cc dc : gmap string ColumnDef) :
  columnChanges tn cc dc = [] ↔
  (∀ n, cc !! n = None ↔ dc !! n = None)
  ∧ (∀ n a b, cc !! n = Some a → dc !! n = Some b → columnsEqual a b = true).
Proof.
  unfold columnChanges. rewrite !app_nil, !bind_map_nil_iff. split.
  - intros (Hdrop & Hadd & Halter). split.
    + intros n. split; intros Hn.
      * destruct (dc !! n) as [b|] eqn:Hb; [|done].
        specialize (Hadd n b Hb). by rewrite Hn in Hadd.
      * destruct (cc !! n) as [a|] eqn:Ha; [|done].
        specialize (Hdrop n a Ha). by rewrite Hn in Hdrop.
    + intros n a b Ha Hb. specialize (Halter n b Hb). rewrite Ha in Halter.
      by destruct (columnsEqual a b).
  - intros [Hdom Heq]. split_and!.
    + intros n a Ha. destruct (dc !! n) eqn:Hb; [done|].
      apply Hdom in Hb. congruence.
    + intros n b Hb. destruct (cc !! n) eqn:Ha; [done|].
      apply Hdom in Ha. congruence.
    + intros n b Hb. destruct (cc !! n) as [a|] eqn:Ha; [|done].
      by rewrite (Heq n a b).
Qed.

Lemma constraintChanges_nil_iff tn (cc dc : gmap string TableConstraint) :
  constraintChanges tn cc dc = [] ↔ ∀ n, cc !! n = None ↔ dc !! n = None.
Proof.
  unfold constraintChanges. rewrite !app_nil, !bind_map_nil_iff. split.
  - intros (Hdrop & Hadd) n. split; intros Hn.
    + destruct (dc !! n) as [b|] eqn:Hb; [|done].
      specialize (Hadd n b Hb). by rewrite Hn in Hadd.
    + destruct (cc !! n) as [a|] eqn:Ha; [|done].
      specialize (Hdrop n a Ha). by rewrite Hn in Hdrop.
  - intros Hdom. split.
    + intros n a Ha. destruct (dc !! n) eqn:Hb; [done|].
      apply Hdom in Hb. congruence.
    + intros n b Hb. destruct (cc !! n) eqn:Ha; [done|].
      apply Hdom in Ha. congruence.
Qed.

Lemma tableChanges_nil_iff (c d : MetaTable) :
  tableChanges c d = [] ↔ indistinguishable c d.
Proof.
  unfold tableChanges, indistinguishable.
  rewrite !app_nil, columnChanges_nil_iff, constraintChanges_nil_iff.
  unfold optionChanges. case_bool_decide as Hdiff.
  - split; [by intros [? _]|]. intros (? & ? & _). by destruct Hdiff.
  - split.
    + intros (_ & [? ?] & ?). split_and!; try done.
      * destruct (decide (tbl_Comment c = tbl_Comment d)); [done|].
        destruct Hdiff. by left.
      * destruct (decide (tbl_Options c = tbl_Options d)); [done|].
        destruct Hdiff. by right.
    + intros (_ & _ & ? & ? & ?). done.
Qed.

(** X11. [DiffDatabase] returns the empty list exactly when the two snapshots
    index the same simple names and, for every name, the two tables have the
    same comment, the same options, the same column names with definitions
    that agree on name, comment, DataType and default, and the same constraint
    names.  Nothing else about the snapshots is compared. *)
Theorem empty_diff_iff (σ : Schedule) (current desired : option MetaDatabase) :
  DiffDatabase σ current desired = [] ↔
  (∀ k, tablesByName (GetTables current) !! k = None
        ↔ tablesByName (GetTables desired) !! k = None)
  ∧ (∀ k c d, tablesByName (GetTables current) !! k = Some c →
              tablesByName (GetTables desired) !! k = Some d →
              indistinguishable c d).
Proof.
  assert (Hout : DiffDatabase σ current desired = []
                 ↔ databaseChanges current desired = []).
  { split; intros Hnil.
    - apply Permutation_nil_r. by rewrite <- DiffDatabase_perm, Hnil.
    - apply Permutation_nil_r. by rewrite DiffDatabase_perm, Hnil. }
  rewrite Hout. unfold databaseChanges, droppedTables, addedTables, keptTables.
  simpl. rewrite !app_nil, !bind_map_nil_iff. split.
  - intros (Hdrop & Hadd & Hkept). split.
    + intros k. split; intros Hk.
      * destruct (tablesByName (GetTables desired) !! k) as [d|] eqn:Hd; [|done].
        specialize (Hadd k d Hd). by rewrite Hk in Hadd.
      * destruct (tablesByName (GetTables current) !! k) as [c|] eqn:Hc; [|done].
        specialize (Hdrop k c Hc). rewrite Hk in Hdrop.
        rewrite dropTableChanges_eq in Hdrop. by apply app_nil in Hdrop as [_ ?].
    + intros k c d Hc Hd. apply tableChanges_nil_iff.
      specialize (Hkept k d Hd). by rewrite Hc in Hkept.
  - intros [Hdom Hpair]. split_and!.
    + intros k c Hc. destruct (tablesByName (GetTables desired) !! k) eqn:Hd;
        [done|]. apply Hdom in Hd. congruence.
    + intros k d Hd. destruct (tablesByName (GetTables current) !! k) eqn:Hc;
        [done|]. apply Hdom in Hc. congruence.
    + intros k d Hd.
      destruct (tablesByName (GetTables current) !! k) as [c|] eqn:Hc; [|done].
      apply tableChanges_nil_iff. by eapply Hpair.
Qed.

(** ** The diff in the opposite direction *)

Lemma countb_bind_ext {A B C} (p : B → bool) (q : C → bool)
  (f : A → list B) (g : A → list C) (l : list A) :
  (∀ x, x ∈ l → countb p (f x) = countb q (g x)) →
  countb p (l ≫= f) = countb q (l ≫= g).
Proof.
  induction l as [|x l IH]; intros Hl; [done|].
  rewrite !bind_cons, !countb_app, Hl by left. f_equal.
  apply IH. intros y Hy. apply Hl. by right.
Qed.

Lemma countb_isDropTable_dropTableChanges (t : MetaTable) :
  countb isDropTable (dropTableChanges t) = 1.
Proof.
  rewrite dropTableChanges_eq, countb_app. simpl.
  rewrite (proj2 (countb_zero _ _)); [done|].
  by intros ch (tc & -> & _)%list_elem_of_fmap.
Qed.

Lemma count_AddTable (current desired : option MetaDatabase) :
  countb isAddTable (databaseChanges current desired)
  = countb (λ _, true)
      (map_to_list (tablesByName (GetTables desired)) ≫= λ '(name, _),
         match tablesByName (GetTables current) !! name with
         | None => [()]
         | Some _ => []
         end).
Proof.
  unfold databaseChanges, droppedTables, addedTables, keptTables.
  rewrite !countb_app.
  rewrite countb_bind_map_zero.
  2:{ intros k t _. destruct (_ !! k); [done|].
      eapply countb_not_in; [apply dropTableChanges_elem|].
      by intros ch (_ & _ & [->|(? & ? & ->)]). }
  rewrite (countb_bind_map_zero isAddTable
             (λ '(name, desTable),
                match tablesByName (GetTables current) !! name with
                | Some currTable => tableChanges currTable desTable
                | None => []
                end)).
  2:{ intros k d _. destruct (_ !! k) as [c|]; [|done].
      apply countb_zero. intros ch Hch. unfold tableChanges in Hch.
      apply elem_of_app in Hch as [Hch|[Hch|Hch]%elem_of_app].
      - unfold optionChanges in Hch.
        case_bool_decide; [|by apply elem_of_nil in Hch].
        by apply list_elem_of_singleton in Hch as ->.
      - apply columnChanges_elem in Hch as (_ & _ & [? ?]). by destruct ch.
      - by apply constraintChanges_elem in Hch
          as (_ & _ & [(? & ? & _ & _ & ->)|(? & ? & _ & _ & ->)]). }
  simpl. rewrite Nat.add_0_r. apply countb_bind_ext.
  intros [k d] _. by destruct (_ !! k).
Qed.

Lemma count_DropTable (current desired : option MetaDatabase) :
  countb isDropTable (databaseChanges current desired)
  = countb (λ _, true)
      (map_to_list (tablesByName (GetTables current)) ≫= λ '(name, _),
         match tablesByName (GetTables desired) !! name with
         | None => [()]
         | Some _ => []
         end).
Proof.
  unfold databaseChanges, droppedTables, addedTables, keptTables.
  rewrite !countb_app.
  rewrite (countb_bind_map_zero isDropTable
             (λ '(name, desTable),
                match tablesByName (GetTables current) !! name with
                | None => [AddTable desTable]
                | Some _ => []
                end)).
  2:{ intros k d _. by destruct (_ !! k). }
  rewrite (countb_bind_map_zero isDropTable
             (λ '(name, desTable),
                match tablesByName (GetTables current) !! name with
                | Some currTable => tableChanges currTable desTable
                | None => []
                end)).
  2:{ intros k d _. destruct (_ !! k) as [c|]; [|done].
      apply countb_zero. intros ch Hch. unfold tableChanges in Hch.
      apply elem_of_app in Hch as [Hch|[Hch|Hch]%elem_of_app].
      - unfold optionChanges in Hch.
        case_bool_decide; [|by apply elem_of_nil in Hch].
        by apply list_elem_of_singleton in Hch as ->.
      - apply columnChanges_elem in Hch as (_ & _ & [? ?]). by destruct ch.
      - by apply constraintChanges_elem in Hch
          as (_ & _ & [(? & ? & _ & _ & ->)|(? & ? & _ & _ & ->)]). }
  rewrite !Nat.add_0_r. apply countb_bind_ext.
  intros [k t] _. destruct (_ !! k); [done|].
  apply countb_isDropTable_dropTableChanges.
Qed.

(** X12. The diff in the opposite direction drops what this one adds: the
    number of AddTable changes of [DiffDatabase(a, b)] is the number of
    DropTable changes of [DiffDatabase(b, a)], and conversely, whatever the
    iteration orders of the two runs. *)
Theorem opposite_diff (σ σ' : Schedule) (a b : option MetaDatabase) :
  countb isAddTable (DiffDatabase σ a b)
  = countb isDropTable (DiffDatabase σ' b a)
  ∧ countb isDropTable (DiffDatabase σ a b)
    = countb isAddTable (DiffDatabase σ' b a).
Proof.
  rewrite !DiffDatabase_perm.
  by rewrite !count_AddTable, !count_DropTable.
Qed.

(** * Further properties of the conversion layer *)

(** ** What the diff engine sees of converted columns *)

(** X13. Two dialect columns convert to definitions that [columnsEqual]
    accepts exactly when they agree on name, comment, DataType and on the
    envelope of their default value.  Nullability, primary-key, identity,
    generation, charset, collation, unsigned, auto-increment flags and the
    BigQuery mode are not compared: a change of any of them alone is invisible
    to [diffColumns]. *)
Theorem converted_columns_equal :
  (∀ c1 c2 : PGColumn, ∃ col1 col2,
      PGColumnToColumnDef (Some c1) = Some col1
      ∧ PGColumnToColumnDef (Some c2) = Some col2
      ∧ (columnsEqual col1 col2 = true ↔
         pgc_Name c1 = pgc_Name c2 ∧ pgc_Comment c1 = pgc_Comment c2
         ∧ pgc_DataType c1 = pgc_DataType c2
         ∧ stringToAny (pgc_DefaultValue c1) = stringToAny (pgc_DefaultValue c2)))
  ∧ (∀ c1 c2 : MYColumn, ∃ col1 col2,
      MYColumnToColumnDef (Some c1) = Some col1
      ∧ MYColumnToColumnDef (Some c2) = Some col2
      ∧ (columnsEqual col1 col2 = true ↔
         myc_Name c1 = myc_Name c2 ∧ myc_Comment c1 = myc_Comment c2
         ∧ myc_DataType c1 = myc_DataType c2
         ∧ stringToAny (myc_DefaultValue c1) = stringToAny (myc_DefaultValue c2)))
  ∧ (∀ c1 c2 : SQLiteColumn, ∃ col1 col2,
      SQLiteColumnToColumnDef (Some c1) = Some col1
      ∧ SQLiteColumnToColumnDef (Some c2) = Some col2
      ∧ (columnsEqual col1 col2 = true ↔
         slc_Name c1 = slc_Name c2 ∧ slc_DataType c1 = slc_DataType c2
         ∧ stringToAny (slc_DefaultValue c1) = stringToAny (slc_DefaultValue c2)))
  ∧ (∀ c1 c2 : BQColumn, ∃ col1 col2,
      BQColumnToColumnDef (Some c1) = Some col1
      ∧ BQColumnToColumnDef (Some c2) = Some col2
      ∧ (columnsEqual col1 col2 = true ↔
         bqc_Name c1 = bqc_Name c2 ∧ bqc_Description c1 = bqc_Description c2
         ∧ bqc_DataType c1 = bqc_DataType c2)).
Proof.
  split_and!; intros c1 c2; do 2 eexists; (split; [done|split; [done|]]);
    rewrite columnsEqual_spec; simpl.
  - done.
  - done.
  - split; [by intros (? & _ & ? & ?)|by intros (? & ? & ?)].
  - split; [by intros (? & ? & ? & _)|by intros (? & ? & ?)].
Qed.

(** ** What the diff engine indexes of a converted table *)

Lemma PGTable_elements (t : PGTable) :
  tbl_Elements <$> PGTableToMetaTable (Some t)
  = Some (((λ col, TableElement_ColumnDefElement (PGColumnToColumnDef col))
             <$> pgt_Columns t)
          ++ (TableElement_TableConstraintElement
                <$> omap PGConstraintToTableConstraint (pgt_Constraints t))
          ++ (TableElement_TableConstraintElement
                <$> omap PGForeignKeyToTableConstraint (pgt_ForeignKeys t))).
Proof.
  simpl. f_equal. rewrite !for_append_bind. simpl.
  rewrite bind_singleton_fmap, !bind_constraintElement.
  rewrite (bind_nil_forall _ (pgt_Indexes t))
    by (intros idx _; by destruct (_ || _)).
  by rewrite app_nil_r, <- !(assoc_L (++)).
Qed.

Lemma MYTable_elements (t : MYTable) :
  tbl_Elements <$> MYTableToMetaTable (Some t)
  = Some (((λ col, TableElement_ColumnDefElement (MYColumnToColumnDef col))
             <$> myt_Columns t)
          ++ (TableElement_TableConstraintElement
                <$> omap MYForeignKeyToTableConstraint (myt_ForeignKeys t))
          ++ (TableElement_TableConstraintElement
                <$> omap (λ idx,
                      if myi_IsUnique idx
                         || bool_decide
                              (strings_ToUpper (myi_IndexType idx) = "PRIMARY")
                      then MYIndexToTableConstraint (Some idx)
                      else None) (myt_Indexes t))).
Proof.
  simpl. f_equal. rewrite !for_append_bind. simpl.
  rewrite bind_singleton_fmap, bind_constraintElement.
  rewrite <- !(assoc_L (++)). do 2 f_equal.
  apply (bind_guarded_constraintElement
           (λ idx, myi_IsUnique idx
                   || bool_decide (strings_ToUpper (myi_IndexType idx) = "PRIMARY"))
           (λ idx, MYIndexToTableConstraint (Some idx))).
Qed.

Lemma columnDefs_app (l1 l2 : list TableElement) :
  columnDefs (l1 ++ l2) = columnDefs l1 ++ columnDefs l2.
Proof. apply omap_app. Qed.

Lemma tableConstraints_app (l1 l2 : list TableElement) :
  tableConstraints (l1 ++ l2) = tableConstraints l1 ++ tableConstraints l2.
Proof. apply omap_app. Qed.

Lemma columnDefs_columns {A} (f : A → option ColumnDef) (l : list A) :
  columnDefs ((λ col, TableElement_ColumnDefElement (f col)) <$> l) = omap f l.
Proof.
  unfold columnDefs. induction l as [|x l IH]; [done|].
  csimpl. rewrite IH. by destruct (f x).
Qed.

Lemma columnDefs_constraints (l : list TableConstraint) :
  columnDefs (TableElement_TableConstraintElement <$> l) = [].
Proof. unfold columnDefs. by induction l. Qed.

Lemma tableConstraints_columns {A} (f : A → option ColumnDef) (l : list A) :
  tableConstraints ((λ col, TableElement_ColumnDefElement (f col)) <$> l) = [].
Proof. unfold tableConstraints. by induction l. Qed.

Lemma tableConstraints_constraints (l : list TableConstraint) :
  tableConstraints (TableElement_TableConstraintElement <$> l) = l.
Proof.
  unfold tableConstraints. induction l as [|x l IH]; [done|].
  csimpl. by rewrite IH.
Qed.

Lemma is_Some_columns (elems : list TableElement) n :
  is_Some (columnsFromElements elems !! n)
  ↔ ∃ col, col ∈ columnDefs elems ∧ col_Name col = n.
Proof. rewrite columnsFromElements_last. apply is_Some_last_filter. Qed.

Lemma is_Some_constraints (elems : list TableElement) n :
  is_Some (constraintsFromElements elems !! n)
  ↔ n ≠ "" ∧ ∃ tc, tc ∈ tableConstraints elems ∧ tc_Name tc = n.
Proof.
  rewrite constraintsFromElements_last. case_decide as Hn.
  - split; [by intros [? ?]|by intros [? _]].
  - rewrite is_Some_last_filter. split; [by intros ?|by intros [_ ?]].
Qed.

(** X14. The maps the diff engine builds from a converted Postgres table:
    a column name is indexed exactly when some non-nil column of the table
    has it; a constraint name is indexed exactly when it is not empty and
    belongs to a non-nil constraint of type "p", "u" or "c" or to a non-nil
    foreign key.  Constraints of any other type and all indexes are absent
    from the converted table. *)
Theorem converted_postgres_table_index (t : PGTable) :
  ∃ m, PGTableToMetaTable (Some t) = Some m
  ∧ (∀ n, is_Some (columnsFromElements (tbl_Elements m) !! n)
          ↔ ∃ c, Some c ∈ pgt_Columns t ∧ pgc_Name c = n)
  ∧ (∀ n, is_Some (constraintsFromElements (tbl_Elements m) !! n)
          ↔ n ≠ ""
            ∧ ((∃ con, Some con ∈ pgt_Constraints t ∧ pgk_Name con = n
                       ∧ pgk_Type con ∈ ["p"; "u"; "c"])
               ∨ (∃ fk, Some fk ∈ pgt_ForeignKeys t ∧ pgf_Name fk = n))).
Proof.
  pose proof (PGTable_elements t) as Helems.
  destruct (PGTableToMetaTable (Some t)) as [m|] eqn:Hm; [|done].
  injection Helems as Helems. exists m. split; [done|]. rewrite Helems. split.
  - intros n. rewrite is_Some_columns, !columnDefs_app, columnDefs_columns,
      !columnDefs_constraints, !app_nil_r.
    split.
    + intros (col & (c & Hc & Hcol)%list_elem_of_omap & Hn).
      destruct c as [c|]; [|done]. injection Hcol as <-. by exists c.
    + intros (c & Hc & Hn).
      assert (is_Some (PGColumnToColumnDef (Some c))) as [col Hcol]
        by by eexists.
      exists col. split; [apply list_elem_of_omap; by exists (Some c)|].
      simpl in Hcol. by injection Hcol as <-.
  - intros n. rewrite is_Some_constraints, !tableConstraints_app,
      tableConstraints_columns, !tableConstraints_constraints. simpl.
    apply and_iff_compat_l. split.
    + intros (tc & [Htc|Htc]%elem_of_app & Hn);
        apply list_elem_of_omap in Htc as ([x|] & Hx & Htc); try done.
      * left. exists x. split; [done|]. simpl in Htc.
        case_bool_decide as Hp.
        { injection Htc as <-. split; [done|]. rewrite Hp, !elem_of_cons. auto. }
        case_bool_decide as Hu.
        { injection Htc as <-. split; [done|]. rewrite Hu, !elem_of_cons. auto. }
        case_bool_decide as Hk; [|done].
        injection Htc as <-. split; [done|]. rewrite Hk, !elem_of_cons. auto.
      * right. exists x. injection Htc as <-. done.
    + intros [(con & Hcon & Hn & Hty)|(fk & Hfk & Hn)].
      * rewrite !elem_of_cons, elem_of_nil in Hty.
        destruct Hty as [Hty|[Hty|[Hty|[]]]];
          (eexists; split;
           [apply elem_of_app; left; apply list_elem_of_omap;
            exists (Some con); split; [done|]; simpl; rewrite Hty; reflexivity
           |done]).
      * assert (is_Some (PGForeignKeyToTableConstraint (Some fk))) as [tc Htc]
          by by eexists.
        exists tc. split.
        -- apply elem_of_app. right. apply list_elem_of_omap. by exists (Some fk).
        -- simpl in Htc. by injection Htc as <-.
Qed.

(** X15. The maps the diff engine builds from a converted MySQL table: a
    column name is indexed exactly when some non-nil column has it; a
    constraint name is indexed exactly when it is not empty and belongs to a
    non-nil foreign key or to an index that is unique, or whose type and name
    are both PRIMARY (in upper case).  An index of type PRIMARY that is not
    unique and not named PRIMARY passes the test of the table loop and is
    then refused by [MYIndexToTableConstraint]. *)
Theorem converted_mysql_table_index (t : MYTable) :
  ∃ m, MYTableToMetaTable (Some t) = Some m
  ∧ (∀ n, is_Some (columnsFromElements (tbl_Elements m) !! n)
          ↔ ∃ c, Some c ∈ myt_Columns t ∧ myc_Name c = n)
  ∧ (∀ n, is_Some (constraintsFromElements (tbl_Elements m) !! n)
          ↔ n ≠ ""
            ∧ ((∃ fk, Some fk ∈ myt_ForeignKeys t ∧ myf_Name fk = n)
               ∨ (∃ idx, idx ∈ myt_Indexes t ∧ myi_Name idx = n
                         ∧ (myi_IsUnique idx = true
                            ∨ (strings_ToUpper (myi_IndexType idx) = "PRIMARY"
                               ∧ strings_ToUpper (myi_Name idx) = "PRIMARY"))))).
Proof.
  pose proof (MYTable_elements t) as Helems.
  destruct (MYTableToMetaTable (Some t)) as [m|] eqn:Hm; [|done].
  injection Helems as Helems. exists m. split; [done|]. rewrite Helems. split.
  - intros n. rewrite is_Some_columns, !columnDefs_app, columnDefs_columns,
      !columnDefs_constraints, !app_nil_r.
    split.
    + intros (col & (c & Hc & Hcol)%list_elem_of_omap & Hn).
      destruct c as [c|]; [|done]. injection Hcol as <-. by exists c.
    + intros (c & Hc & Hn).
      assert (is_Some (MYColumnToColumnDef (Some c))) as [col Hcol]
        by by eexists.
      exists col. split; [apply list_elem_of_omap; by exists (Some c)|].
      simpl in Hcol. by injection Hcol as <-.
  - intros n. rewrite is_Some_constraints, !tableConstraints_app,
      tableConstraints_columns, !tableConstraints_constraints. simpl.
    apply and_iff_compat_l. split.
    + intros (tc & [Htc|Htc]%elem_of_app & Hn);
        apply list_elem_of_omap in Htc as (x & Hx & Htc).
      * destruct x as [fk|]; [|done]. left. exists fk.
        injection Htc as <-. done.
      * right. exists x. split; [done|].
        destruct (myi_IsUnique x) eqn:Hu; simpl in Htc.
        -- rewrite andb_false_r in Htc. injection Htc as <-. by split; [|left].
        -- case_bool_decide as Hty; [|done]. simpl in Htc.
           rewrite andb_true_r in Htc.
           case_bool_decide as Hname; [|done]. simpl in Htc.
           injection Htc as <-. split; [done|]. by right.
    + intros [(fk & Hfk & Hn)|(idx & Hidx & Hn & Hprom)].
      * assert (is_Some (MYForeignKeyToTableConstraint (Some fk))) as [tc Htc]
          by by eexists.
        exists tc. split.
        -- apply elem_of_app. left. apply list_elem_of_omap. by exists (Some fk).
        -- simpl in Htc. by injection Htc as <-.
      * exists {| tc_Name := myi_Name idx;
                  tc_Spec := Some (TableConstraintSpec_UniqueItem
                    {| uq_IsPrimary :=
                         bool_decide (strings_ToUpper (myi_Name idx) = "PRIMARY");
                       uq_Columns := myi_Columns idx;
                       uq_IndexName := myi_Name idx |}) |}.
        split; [|done]. apply elem_of_app. right.
        apply list_elem_of_omap. exists idx. split; [done|].
        destruct Hprom as [Hu|[Hty Hname]].
        -- rewrite Hu. simpl. by rewrite andb_false_r.
        -- rewrite (bool_decide_eq_true_2 _ Hty), orb_true_r. simpl.
           by rewrite (bool_decide_eq_true_2 _ Hname).
Qed.

(** ** Options of converted tables and columns *)

(** X16. The options of a converted table hold a dialect attribute only when
    it is set: a string attribute (Owner, Persistence; Engine, Charset,
    Collation) only when it is not empty, a boolean flag (HasRowSecurity,
    RowSecurityForced) only when it is true and then with the value "true";
    they hold no other key. *)
Theorem converted_table_options :
  (∀ t : PGTable, ∃ m,
      PGTableToMetaTable (Some t) = Some m
      ∧ ∀ k, tbl_Options m !! k =
          if decide (k = "Owner")
          then (if decide (pgt_Owner t = "") then None else Some (pgt_Owner t))
          else if decide (k = "Persistence")
          then (if decide (pgt_Persistence t = "") then None
                else Some (pgt_Persistence t))
          else if decide (k = "HasRowSecurity")
          then (if pgt_HasRowSecurity t then Some "true" else None)
          else if decide (k = "RowSecurityForced")
          then (if pgt_RowSecurityForced t then Some "true" else None)
          else None)
  ∧ (∀ t : MYTable, ∃ m,
      MYTableToMetaTable (Some t) = Some m
      ∧ ∀ k, tbl_Options m !! k =
          if decide (k = "Engine")
          then (if decide (myt_Engine t = "") then None else Some (myt_Engine t))
          else if decide (k = "Charset")
          then (if decide (myt_Charset t = "") then None else Some (myt_Charset t))
          else if decide (k = "Collation")
          then (if decide (myt_Collation t = "") then None
                else Some (myt_Collation t))
          else None).
Proof.
  split; intros t; eexists; (split; [done|]); intros k; simpl; unfold setIf.
  - destruct (pgt_HasRowSecurity t), (pgt_RowSecurityForced t);
      repeat case_bool_decide; rewrite ?lookup_insert, ?lookup_empty;
      repeat case_decide; congruence.
  - repeat case_bool_decide; rewrite ?lookup_insert, ?lookup_empty;
      repeat case_decide; congruence.
Qed.

(** X17. The options of a converted column: a Postgres identity column always
    carries both IsIdentity = "true" and IdentityGeneration (even when the
    generation is the empty string), a generated column both IsGenerated =
    "true" and GenerationExpression, IdentitySequence is present only when
    not empty; a MySQL column carries Charset and Collation only when not
    empty and IsUnsigned = "true" only when the flag is set.  No other key is
    present. *)
Theorem converted_column_options :
  (∀ c : PGColumn, ∃ col,
      PGColumnToColumnDef (Some c) = Some col
      ∧ ∀ k, col_Options col !! k =
          if decide (k = "IsIdentity")
          then (if pgc_IsIdentity c then Some "true" else None)
          else if decide (k = "IdentityGeneration")
          then (if pgc_IsIdentity c then Some (pgc_IdentityGeneration c) else None)
          else if decide (k = "IsGenerated")
          then (if pgc_IsGenerated c then Some "true" else None)
          else if decide (k = "GenerationExpression")
          then (if pgc_IsGenerated c then Some (pgc_GenerationExpression c)
                else None)
          else if decide (k = "IdentitySequence")
          then (if decide (pgc_IdentitySequence c = "") then None
                else Some (pgc_IdentitySequence c))
          else None)
  ∧ (∀ c : MYColumn, ∃ col,
      MYColumnToColumnDef (Some c) = Some col
      ∧ ∀ k, col_Options col !! k =
          if decide (k = "Charset")
          then (if decide (myc_Charset c = "") then None else Some (myc_Charset c))
          else if decide (k = "Collation")
          then (if decide (myc_Collation c = "") then None
                else Some (myc_Collation c))
          else if decide (k = "IsUnsigned")
          then (if myc_IsUnsigned c then Some "true" else None)
          else None).
Proof.
  split; intros c; eexists; (split; [done|]); intros k; simpl; unfold setIf.
  - destruct (pgc_IsIdentity c), (pgc_IsGenerated c);
      repeat case_bool_decide; rewrite ?lookup_insert, ?lookup_empty;
      repeat case_decide; congruence.
  - destruct (myc_IsUnsigned c);
      repeat case_bool_decide; rewrite ?lookup_insert, ?lookup_empty;
      repeat case_decide; congruence.
Qed.

(** ** Inline constraints of converted columns *)

(** X18. The inline constraints of a converted column are the PRIMARY KEY
    constraint when the dialect column is a primary key, followed by the
    NotNullItem constraint when it is not nullable (for BigQuery: when its
    mode is REQUIRED in upper case), and nothing else; the auto-increment
    decorator of a MySQL column is present exactly when the flag is set. *)
Theorem converted_column_constraints :
  (∀ c : PGColumn, ∃ col,
      PGColumnToColumnDef (Some c) = Some col
      ∧ col_Constraints col
        = (if pgc_IsPrimaryKey c then [primaryKeyColumnConstraint] else [])
          ++ (if pgc_IsNullable c then [] else [notNullColumnConstraint]))
  ∧ (∀ c : MYColumn, ∃ col,
      MYColumnToColumnDef (Some c) = Some col
      ∧ col_Constraints col
        = (if myc_IsPrimaryKey c then [primaryKeyColumnConstraint] else [])
          ++ (if myc_IsNullable c then [] else [notNullColumnConstraint])
      ∧ col_MyDecos col
        = if myc_AutoIncrement c then [AutoIncrement_AutoIncrementConfirm] else [])
  ∧ (∀ c : SQLiteColumn, ∃ col,
      SQLiteColumnToColumnDef (Some c) = Some col
      ∧ col_Constraints col
        = (if slc_IsPrimaryKey c then [primaryKeyColumnConstraint] else [])
          ++ (if slc_IsNullable c then [] else [notNullColumnConstraint]))
  ∧ (∀ c : BQColumn, ∃ col,
      BQColumnToColumnDef (Some c) = Some col
      ∧ col_Constraints col
        = if decide (strings_ToUpper (bqc_Mode c) = "REQUIRED")
          then [notNullColumnConstraint] else []).
Proof.
  split_and!; intros c; eexists; (split; [done|]); simpl; unfold appendIf.
  - by destruct (pgc_IsPrimaryKey c), (pgc_IsNullable c).
  - split; [by destruct (myc_IsPrimaryKey c), (myc_IsNullable c)|].
    by destruct (myc_AutoIncrement c).
  - by destruct (slc_IsPrimaryKey c), (slc_IsNullable c).
  - case_bool_decide; by case_decide.
Qed.

(** * Properties of the file loader *)

Lemma supported_cases (ext : string) :
  ext ∈ supportedExtensions ↔
  ext ∈ [".textpb"; ".txtpb"; ".pbtxt"] ∨ ext ∈ [".json"] ∨ ext ∈ [".pb"; ".bin"].
Proof using Type.
  clear. unfold supportedExtensions. rewrite !elem_of_cons, !elem_of_nil. tauto.
Qed.

(** X19. Unknown extensions.  A load fails with the unknown-extension message
    exactly when the file could be read and its lower-cased extension is none
    of the six supported ones, and the message then names that extension (the
    database loader adds the list of supported formats, the table loader and
    the saver do not); a file that cannot be read fails with the read error
    whatever its extension.  A save fails with the unknown-extension message
    exactly when the extension is not supported. *)
Theorem unknown_extension (fs : FS) (db : option MetaDatabase) (path : string) :
  let ext := strings_ToLower (filepath_Ext path) in
  (∀ text, LoadMetaDatabaseFromFile fs path = Failed (Message text) ↔
           (∃ data, os_ReadFile fs path = inr data)
           ∧ (ext ∉ supportedExtensions)
           ∧ text = ("unknown file extension: " +:+ ext
                     +:+ " (supported: .textpb, .json, .pb)"))
  ∧ (∀ text, LoadMetaTableFromFile fs path = Failed (Message text) ↔
             (∃ data, os_ReadFile fs path = inr data)
             ∧ (ext ∉ supportedExtensions)
             ∧ text = ("unknown file extension: " +:+ ext))
  ∧ (∀ text, (SaveMetaDatabaseToFile fs db path).2 = Some (Message text) ↔
             (ext ∉ supportedExtensions)
             ∧ text = ("unknown file extension: " +:+ ext))
  ∧ (∀ err, os_ReadFile fs path = inl err →
            LoadMetaDatabaseFromFile fs path
            = Failed (Wrapped "reading file: " (OSErr err))
            ∧ LoadMetaTableFromFile fs path
              = Failed (Wrapped "reading file: " (OSErr err))).
Proof using Type.
  clear os_ReadDir filepath_Join strings_ToUpper marshalStringValue.
  intros ext. split_and!.
  - intros text. unfold LoadMetaDatabaseFromFile. fold ext.
    rewrite supported_cases. unfold caseOf.
    destruct (os_ReadFile fs path) as [err|data].
    { split; [done|]. by intros [[? ?] _]. }
    repeat case_bool_decide.
    + destruct (prototext_Unmarshal_database data); split; try done; tauto.
    + destruct (protojson_Unmarshal_database data); split; try done; tauto.
    + destruct (proto_Unmarshal_database data); split; try done; tauto.
    + split.
      * intros [= <-]. split_and!; [by eexists|tauto|done].
      * by intros (_ & _ & ->).
  - intros text. unfold LoadMetaTableFromFile. fold ext.
    rewrite supported_cases. unfold caseOf.
    destruct (os_ReadFile fs path) as [err|data].
    { split; [done|]. by intros [[? ?] _]. }
    repeat case_bool_decide.
    + destruct (prototext_Unmarshal_table data); split; try done; tauto.
    + destruct (protojson_Unmarshal_table data); split; try done; tauto.
    + destruct (proto_Unmarshal_table data); split; try done; tauto.
    + split.
      * intros [= <-]. split_and!; [by eexists|tauto|done].
      * by intros (_ & _ & ->).
  - intros text. unfold SaveMetaDatabaseToFile. fold ext.
    rewrite supported_cases. unfold caseOf.
    repeat case_bool_decide.
    + destruct (prototext_Marshal db) as [?|data]; simpl;
        [split; try done; tauto|].
      destruct (os_WriteFile fs path data) as [fs' [e|]]; simpl;
        split; try done; tauto.
    + destruct (protojson_Marshal db) as [?|data]; simpl;
        [split; try done; tauto|].
      destruct (os_WriteFile fs path data) as [fs' [e|]]; simpl;
        split; try done; tauto.
    + destruct (proto_Marshal db) as [?|data]; simpl;
        [split; try done; tauto|].
      destruct (os_WriteFile fs path data) as [fs' [e|]]; simpl;
        split; try done; tauto.
    + simpl. split.
      * intros [= <-]. split; [tauto|done].
      * by intros (_ & ->).
  - intros err Herr. unfold LoadMetaDatabaseFromFile, LoadMetaTableFromFile.
    by rewrite Herr.
Qed.

(** ** Saving *)

Lemma case_values_disjoint (ext : string) (l1 l2 : list string) :
  bool_decide (Forall (λ x, x ∉ l2) l1) = true →
  ext ∈ l1 → ext ∈ l2 → False.
Proof.
  intros Hd%bool_decide_eq_true H1 H2.
  by eapply Forall_forall in Hd.
Qed.

Lemma marshaledAs_selected (ext : string) (db : option MetaDatabase)
  (data : string) :
  marshaledAs ext db data ↔
  (if caseOf ext [".textpb"; ".txtpb"; ".pbtxt"] then Some (prototext_Marshal db)
   else if caseOf ext [".json"] then Some (protojson_Marshal db)
   else if caseOf ext [".pb"; ".bin"] then Some (proto_Marshal db)
   else None) = Some (inr data).
Proof.
  unfold marshaledAs, caseOf.
  case_bool_decide as Htext.
  { split; [|intros [= ?]; by left].
    intros [[_ ->]|[[Hj _]|[Hb _]]]; [done|exfalso..].
    - exact (case_values_disjoint ext [".json"]
               [".textpb"; ".txtpb"; ".pbtxt"] eq_refl Hj Htext).
    - exact (case_values_disjoint ext [".pb"; ".bin"]
               [".textpb"; ".txtpb"; ".pbtxt"] eq_refl Hb Htext). }
  case_bool_decide as Hjson.
  { split; [|intros [= ?]; by right; left].
    intros [[Ht _]|[[_ ->]|[Hb _]]]; [done|done|exfalso].
    exact (case_values_disjoint ext [".pb"; ".bin"] [".json"] eq_refl Hb Hjson). }
  case_bool_decide as Hbin.
  { split; [|intros [= ?]; by right; right].
    by intros [[Ht _]|[[Hj _]|[_ ->]]]. }
  split; [|done]. by intros [[? _]|[[? _]|[? _]]].
Qed.

Lemma save_ok_iff (fs fs' : FS) (db : option MetaDatabase) (path : string) :
  SaveMetaDatabaseToFile fs db path = (fs', None) ↔
  ∃ data, marshaledAs (strings_ToLower (filepath_Ext path)) db data
          ∧ os_WriteFile fs path data = (fs', None).
Proof.
  unfold SaveMetaDatabaseToFile. setoid_rewrite marshaledAs_selected.
  destruct (if caseOf _ [".textpb"; ".txtpb"; ".pbtxt"] then _ else _)
    as [[e|data]|]; simpl.
  - split; [done|]. by intros (? & ? & _).
  - destruct (os_WriteFile fs path data) as [fs1 err] eqn:Hw. split.
    + intros [= -> Herr]. destruct err; [done|]. by exists data.
    + intros (data' & [= <-] & Hw'). rewrite Hw in Hw'.
      by injection Hw' as -> ->.
  - split; [done|]. by intros (? & ? & _).
Qed.


(** ** Saving and loading again *)

(** X21. Loading what was saved.  Assume that a file written without error
    reads back with the bytes written, and that each of the three codecs
    unmarshals what it marshaled to the database it was given.  Then, for
    every path, a save of [db] that returns no error is followed by a load of
    the same path that returns [db]: the saver and the loader select the same
    codec for every extension. *)
Theorem save_load_round_trip (fs fs' : FS) (db : MetaDatabase) (path : string) :
  (∀ fs0 p data fs1,
      os_WriteFile fs0 p data = (fs1, None) → os_ReadFile fs1 p = inr data) →
  (∀ d data, prototext_Marshal (Some d) = inr data →
             prototext_Unmarshal_database data = inr d) →
  (∀ d data, protojson_Marshal (Some d) = inr data →
             protojson_Unmarshal_database data = inr d) →
  (∀ d data, proto_Marshal (Some d) = inr data →
             proto_Unmarshal_database data = inr d) →
  SaveMetaDatabaseToFile fs (Some db) path = (fs', None) →
  LoadMetaDatabaseFromFile fs' path = Ok db.
Proof.
  intros Hfs Htext Hjson Hbin (data & Hm & Hw)%save_ok_iff.
  unfold LoadMetaDatabaseFromFile. rewrite (Hfs _ _ _ _ Hw).
  unfold marshaledAs in Hm. unfold caseOf.
  destruct Hm as [[Hext Hm]|[[Hext Hm]|[Hext Hm]]].
  - rewrite bool_decide_eq_true_2 by done. by rewrite (Htext _ _ Hm).
  - rewrite bool_decide_eq_false_2.
    2:{ intros Ht. exact (case_values_disjoint _ [".json"]
                            [".textpb"; ".txtpb"; ".pbtxt"] eq_refl Hext Ht). }
    rewrite bool_decide_eq_true_2 by done. by rewrite (Hjson _ _ Hm).
  - rewrite bool_decide_eq_false_2.
    2:{ intros Ht. exact (case_values_disjoint _ [".pb"; ".bin"]
                            [".textpb"; ".txtpb"; ".pbtxt"] eq_refl Hext Ht). }
    rewrite bool_decide_eq_false_2.
    2:{ intros Ht. exact (case_values_disjoint _ [".pb"; ".bin"]
                            [".json"] eq_refl Hext Ht). }
    rewrite bool_decide_eq_true_2 by done. by rewrite (Hbin _ _ Hm).
Qed.

(** ** Loading a directory *)

Lemma tableFiles_cons (entry : DirEntry) (entries : list DirEntry) :
  tableFiles (entry :: entries)
  = if isTableFile entry then entry :: tableFiles entries
    else tableFiles entries.
Proof.
  unfold tableFiles. rewrite filter_cons.
  destruct (isTableFile entry); by case_decide.
Qed.

Lemma loadTableEntries_step (fs : FS) (dir : string) (entry : DirEntry)
  (rest : list DirEntry) (tables : list MetaTable) :
  loadTableEntries fs dir (entry :: rest) tables
  = if isTableFile entry
    then match LoadMetaTableFromFile fs (filepath_Join dir (de_Name entry)) with
         | Failed err =>
             Failed (Wrapped ("loading table " +:+ de_Name entry +:+ ": ") err)
         | Ok table => loadTableEntries fs dir rest (tables ++ [table])
         end
    else loadTableEntries fs dir rest tables.
Proof.
  simpl. unfold isTableFile. destruct (de_IsDir entry); [done|]. simpl.
  by destruct (strings_Contains _ _).
Qed.

Lemma loadTableEntries_ok (fs : FS) (dir : string) (entries : list DirEntry) :
  ∀ tables result,
    loadTableEntries fs dir entries tables = Ok result ↔
    ∃ new, result = tables ++ new
           ∧ Forall2 (loadsAs fs dir) (tableFiles entries) new.
Proof.
  induction entries as [|entry rest IH]; intros tables result.
  - simpl. split.
    + intros [= <-]. exists []. by rewrite app_nil_r.
    + intros (new & -> & ->%Forall2_nil_inv_l). by rewrite app_nil_r.
  - rewrite loadTableEntries_step, tableFiles_cons.
    destruct (isTableFile entry); [|apply IH].
    destruct (LoadMetaTableFromFile fs _) as [table|err] eqn:Hload.
    + rewrite IH. split.
      * intros (new & -> & Hnew). exists (table :: new).
        split; [by rewrite <- (assoc_L (++))|]. by constructor.
      * intros (new & -> & Hnew).
        apply Forall2_cons_inv_l in Hnew as (table' & new' & Hl & Hnew & ->).
        unfold loadsAs in Hl. rewrite Hload in Hl. injection Hl as <-.
        exists new'. split; [by rewrite <- (assoc_L (++))|done].
    + split; [done|]. intros (new & _ & Hnew).
      apply Forall2_cons_inv_l in Hnew as (table' & new' & Hl & _).
      unfold loadsAs in Hl. by rewrite Hload in Hl.
Qed.

Lemma loadTableEntries_failed (fs : FS) (dir : string) (entries : list DirEntry) :
  ∀ tables err,
    loadTableEntries fs dir entries tables = Failed err ↔
    ∃ before entry after cause,
      tableFiles entries = before ++ entry :: after
      ∧ Forall (λ e, ∃ table, loadsAs fs dir e table) before
      ∧ LoadMetaTableFromFile fs (filepath_Join dir (de_Name entry)) = Failed cause
      ∧ err = Wrapped ("loading table " +:+ de_Name entry +:+ ": ") cause.
Proof.
  induction entries as [|entry rest IH]; intros tables err.
  - simpl. split; [done|]. intros (before & e & after & cause & Hnil & _).
    by destruct before.
  - rewrite loadTableEntries_step, tableFiles_cons.
    destruct (isTableFile entry); [|apply IH].
    destruct (LoadMetaTableFromFile fs _) as [table|err'] eqn:Hload.
    + rewrite IH. split.
      * intros (before & e & after & cause & Hfiles & Hbefore & He & ->).
        exists (entry :: before), e, after, cause. rewrite Hfiles.
        split_and!; [done| |done..].
        constructor; [by exists table|done].
      * intros (before & e & after & cause & Hfiles & Hbefore & He & ->).
        destruct before as [|entry' before]; simpl in Hfiles.
        -- injection Hfiles as <- _. congruence.
        -- injection Hfiles as <- Hfiles.
           apply Forall_cons in Hbefore as [_ Hbefore].
           by exists before, e, after, cause.
    + split.
      * intros [= <-]. by exists [], entry, (tableFiles rest), err'.
      * intros (before & e & after & cause & Hfiles & Hbefore & He & ->).
        destruct before as [|entry' before]; simpl in Hfiles.
        -- injection Hfiles as <- _. congruence.
        -- injection Hfiles as <- _.
           apply Forall_cons in Hbefore as [[table Ht] _].
           unfold loadsAs in Ht. congruence.
Qed.

(** X22. [LoadMetaDatabaseFromDir] on a directory that can be listed: the
    entries loaded are those that are not directories and whose name contains
    ".table.", in the order of the listing.  The call returns a database
    exactly when every one of them loads as a table, and the database then
    has the given name and these tables in that order; otherwise it fails, at
    the first such entry that does not load, with that entry's error wrapped
    in a message naming the entry, and the entries after it are not loaded.
    A directory that cannot be listed gives the listing error. *)
Theorem load_directory (fs : FS) (dir dbName : string) :
  (∀ entries, os_ReadDir fs dir = inr entries →
     (∀ db, LoadMetaDatabaseFromDir fs dir dbName = Ok db ↔
            db_Name db = dbName
            ∧ Forall2 (loadsAs fs dir) (tableFiles entries) (db_Tables db))
     ∧ (∀ err, LoadMetaDatabaseFromDir fs dir dbName = Failed err ↔
               ∃ before entry after cause,
                 tableFiles entries = before ++ entry :: after
                 ∧ Forall (λ e, ∃ table, loadsAs fs dir e table) before
                 ∧ LoadMetaTableFromFile fs (filepath_Join dir (de_Name entry))
                   = Failed cause
                 ∧ err = Wrapped ("loading table " +:+ de_Name entry +:+ ": ")
                           cause))
  ∧ (∀ e, os_ReadDir fs dir = inl e →
          LoadMetaDatabaseFromDir fs dir dbName
          = Failed (Wrapped "reading directory: " (OSErr e))).
Proof.
  split.
  - intros entries Hdir. unfold LoadMetaDatabaseFromDir. rewrite Hdir. split.
    + intros db.
      destruct (loadTableEntries fs dir entries []) as [tables|err] eqn:Hload.
      * apply loadTableEntries_ok in Hload as (new & -> & Hnew). simpl. split.
        -- by intros [= <-].
        -- intros [Hname Htables]. destruct db as [name tables]. simpl in *.
           subst name. f_equal. f_equal.
           clear -Hnew Htables. revert new tables Hnew Htables.
           induction (tableFiles entries) as [|e l IH]; intros new tables H1 H2.
           { apply Forall2_nil_inv_l in H1, H2. by subst. }
           apply Forall2_cons_inv_l in H1 as (t1 & new' & Ht1 & H1 & ->).
           apply Forall2_cons_inv_l in H2 as (t2 & tables' & Ht2 & H2 & ->).
           unfold loadsAs in Ht1, Ht2. f_equal; [congruence|by apply IH].
      * split; [done|]. intros [_ Htables].
        assert (loadTableEntries fs dir entries [] = Ok (db_Tables db)) as Hok
          by (apply loadTableEntries_ok; by exists (db_Tables db)).
        congruence.
    + intros err.
      destruct (loadTableEntries fs dir entries []) as [tables|err'] eqn:Hload.
      * split; [done|]. intros Hfail.
        apply (loadTableEntries_failed fs dir entries []) in Hfail.
        congruence.
      * rewrite <- (loadTableEntries_failed fs dir entries [] err).
        rewrite Hload. split; congruence.
  - intros e Hdir. unfold LoadMetaDatabaseFromDir. by rewrite Hdir.
Qed.


(** * Destructive changes *)

Lemma columnChanges_safe tn (cc dc : gmap string ColumnDef) :
  Forall (λ ch, IsDestructive ch = false) (columnChanges tn cc dc) ↔
  ∀ n a, cc !! n = Some a → ∃ b, dc !! n = Some b ∧ columnsEqual a b = true.
Proof using Type.
  unfold columnChanges. rewrite !Forall_app, !Forall_bind, !Forall_forall.
  split.
  - intros (Hdrop & _ & Halter) n a Ha.
    destruct (dc !! n) as [b|] eqn:Hb.
    + exists b. split; [done|].
      pose proof (Halter (n, b)) as Hn. rewrite elem_of_map_to_list in Hn.
      specialize (Hn Hb). simpl in Hn. rewrite Ha in Hn.
      destruct (columnsEqual a b); [done|].
      simpl in Hn. rewrite Forall_singleton in Hn. simpl in Hn. done.
    + pose proof (Hdrop (n, a)) as Hn. rewrite elem_of_map_to_list in Hn.
      specialize (Hn Ha). simpl in Hn. rewrite Hb in Hn.
      rewrite Forall_singleton in Hn. simpl in Hn. done.
  - intros Hsafe. split_and!.
    + intros [n a] Hin%elem_of_map_to_list. simpl.
      destruct (Hsafe n a Hin) as (b & -> & _). constructor.
    + intros [n b] _. simpl. destruct (cc !! n); repeat constructor.
    + intros [n b] Hin%elem_of_map_to_list. simpl.
      destruct (cc !! n) as [a|] eqn:Ha; [|constructor].
      destruct (Hsafe n a Ha) as (b' & Hb' & Heq).
      rewrite Hin in Hb'. injection Hb' as <-. rewrite Heq. constructor.
Qed.

Lemma tableChanges_safe (c d : MetaTable) :
  Forall (λ ch, IsDestructive ch = false) (tableChanges c d) ↔
  ∀ n a, columnsFromElements (tbl_Elements c) !! n = Some a →
         ∃ b, columnsFromElements (tbl_Elements d) !! n = Some b
              ∧ columnsEqual a b = true.
Proof using Type.
  unfold tableChanges. rewrite !Forall_app, columnChanges_safe.
  split; [by intros (_ & ? & _)|]. intros Hsafe. split_and!; [|done|].
  - unfold optionChanges. case_bool_decide; repeat constructor.
  - apply Forall_forall. intros ch Hch.
    apply constraintChanges_elem in Hch
      as (_ & _ & [(? & ? & _ & _ & ->)|(? & ? & _ & _ & ->)]); done.
Qed.

Lemma databaseChanges_safe (current desired : option MetaDatabase) :
  Forall (λ ch, IsDestructive ch = false) (databaseChanges current desired) ↔
  ∀ k c, tablesByName (GetTables current) !! k = Some c →
    ∃ d, tablesByName (GetTables desired) !! k = Some d
         ∧ ∀ n a, columnsFromElements (tbl_Elements c) !! n = Some a →
                  ∃ b, columnsFromElements (tbl_Elements d) !! n = Some b
                       ∧ columnsEqual a b = true.
Proof using Type.
  unfold databaseChanges, droppedTables, addedTables, keptTables.
  rewrite !Forall_app, !Forall_bind, !Forall_forall.
  split.
  - intros (Hdrop & _ & Hkept) k c Hc.
    destruct (tablesByName (GetTables desired) !! k) as [d|] eqn:Hd.
    + exists d. split; [done|]. apply tableChanges_safe.
      pose proof (Hkept (k, d)) as Hk. rewrite elem_of_map_to_list in Hk.
      specialize (Hk Hd). simpl in Hk. by rewrite Hc in Hk.
    + pose proof (Hdrop (k, c)) as Hk. rewrite elem_of_map_to_list in Hk.
      specialize (Hk Hc). simpl in Hk. rewrite Hd in Hk.
      unfold dropTableChanges in Hk. apply Forall_app in Hk as [_ Hk].
      rewrite Forall_singleton in Hk. simpl in Hk. done.
  - intros Hsafe. split_and!.
    + intros [k c] Hin%elem_of_map_to_list. simpl.
      destruct (Hsafe k c Hin) as (d & -> & _). constructor.
    + intros [k d] _. simpl.
      destruct (tablesByName (GetTables current) !! k); repeat constructor.
    + intros [k d] Hin%elem_of_map_to_list. simpl.
      destruct (tablesByName (GetTables current) !! k) as [c|] eqn:Hc;
        [|constructor].
      destruct (Hsafe k c Hc) as (d' & Hd' & Hcols).
      rewrite Hin in Hd'. injection Hd' as <-. by apply tableChanges_safe.
Qed.

(** X23. The output of [DiffDatabase] holds no destructive change exactly
    when [desired] indexes every simple table name that [current] indexes
    and, for each such table, the desired side holds every column name of the
    current side with a definition that [columnsEqual] accepts.  Dropped
    constraints, added tables, columns and constraints, and changed options
    never make a diff destructive. *)
Theorem non_destructive_iff (σ : Schedule) (current desired : option MetaDatabase) :
  Forall (λ ch, IsDestructive ch = false) (DiffDatabase σ current desired) ↔
  ∀ k c, tablesByName (GetTables current) !! k = Some c →
    ∃ d, tablesByName (GetTables desired) !! k = Some d
         ∧ ∀ n a, columnsFromElements (tbl_Elements c) !! n = Some a →
                  ∃ b, columnsFromElements (tbl_Elements d) !! n = Some b
                       ∧ columnsEqual a b = true.
Proof using Type.
  rewrite DiffDatabase_perm. apply databaseChanges_safe.
Qed.

Lemma dropped_table_constraint (σ : Schedule) (current desired : option MetaDatabase)
  (k : string) (m : MetaTable) (n : string) (isFK : bool) :
  tablesByName (GetTables current) !! k = Some m →
  tablesByName (GetTables desired) !! k = None →
  DropConstraint (tbl_Name m) n isFK ∈ DiffDatabase σ current desired ↔
  ∃ tc, tc ∈ tableConstraints (tbl_Elements m) ∧ tc_Name tc = n
        ∧ notNil (GetReferenceItem (tc_Spec tc)) = isFK.
Proof using Type.
  intros Hcur Hdes.
  assert (Hin : DropConstraint (tbl_Name m) n isFK ∈ DiffDatabase σ current desired
                ↔ DropConstraint (tbl_Name m) n isFK ∈ dropTableChanges m).
  { rewrite DiffDatabase_perm,
      <- (filter_dropped_table current desired k m Hcur Hdes),
      list_elem_of_filter.
    split; [by intros ?|by intros [_ ?]]. }
  rewrite Hin, dropTableChanges_eq, elem_of_app, list_elem_of_fmap,
    list_elem_of_singleton.
  split.
  - intros [(tc & Heq & Htc)|?]; [|done]. injection Heq as -> ->. by exists tc.
  - intros (tc & Htc & <- & <-). left. by exists tc.
Qed.

(** X24. Dropping a converted Postgres table.  When the conversion of [t] is
    indexed in [current] and its simple name is not indexed in [desired], the
    output holds a DropConstraint of that table marked as a foreign key (so
    of priority 5) for exactly the names of the non-nil foreign keys of [t],
    and one not so marked (priority 10) for exactly the names of its non-nil
    constraints of type "p", "u" or "c".  Constraints of other types and
    indexes are never dropped explicitly. *)
Theorem dropped_postgres_table (σ : Schedule) (current desired : option MetaDatabase)
  (k : string) (t : PGTable) (m : MetaTable) (n : string) (isFK : bool) :
  PGTableToMetaTable (Some t) = Some m →
  tablesByName (GetTables current) !! k = Some m →
  tablesByName (GetTables desired) !! k = None →
  DropConstraint (tbl_Name m) n isFK ∈ DiffDatabase σ current desired ↔
  if isFK then ∃ fk, Some fk ∈ pgt_ForeignKeys t ∧ pgf_Name fk = n
  else ∃ c, Some c ∈ pgt_Constraints t ∧ pgk_Name c = n
            ∧ pgk_Type c ∈ ["p"; "u"; "c"].
Proof using Type.
  intros Hm Hcur Hdes.
  pose proof (PGTable_elements t) as Helems. rewrite Hm in Helems.
  injection Helems as Helems.
  rewrite (dropped_table_constraint σ current desired k m n isFK Hcur Hdes),
    Helems, !tableConstraints_app, tableConstraints_columns,
    !tableConstraints_constraints.
  simpl. split.
  - intros (tc & [Htc|Htc]%elem_of_app & <- & <-);
      apply list_elem_of_omap in Htc as ([x|] & Hx & Htc); try done.
    + simpl in Htc.
      case_bool_decide as Hp.
      { injection Htc as <-. simpl. exists x. split_and!; [done..|].
        rewrite Hp, !elem_of_cons. auto. }
      case_bool_decide as Hu.
      { injection Htc as <-. simpl. exists x. split_and!; [done..|].
        rewrite Hu, !elem_of_cons. auto. }
      case_bool_decide as Hc; [|done].
      injection Htc as <-. simpl. exists x. split_and!; [done..|].
      rewrite Hc, !elem_of_cons. auto.
    + injection Htc as <-. simpl. by exists x.
  - destruct isFK.
    + intros (fk & Hfk & <-).
      assert (is_Some (PGForeignKeyToTableConstraint (Some fk))) as [tc Htc]
        by by eexists.
      exists tc. split.
      * apply elem_of_app. right. apply list_elem_of_omap. by exists (Some fk).
      * simpl in Htc. by injection Htc as <-.
    + intros (c & Hc & <- & Hty).
      rewrite !elem_of_cons, elem_of_nil in Hty.
      destruct Hty as [Hty|[Hty|[Hty|[]]]];
        (eexists; split;
         [apply elem_of_app; left; apply list_elem_of_omap;
          exists (Some c); split; [done|]; simpl; rewrite Hty; reflexivity
         |done]).
Qed.

(** X25. Dropping a converted MySQL table.  When the conversion of [t] is
    indexed in [current] and its simple name is not indexed in [desired], the
    output holds a DropConstraint of that table marked as a foreign key for
    exactly the names of the non-nil foreign keys of [t], and one not so
    marked for exactly the names of its indexes that are unique or have both
    type and name PRIMARY (in upper case).  Other indexes are never dropped
    explicitly. *)
Theorem dropped_mysql_table (σ : Schedule) (current desired : option MetaDatabase)
  (k : string) (t : MYTable) (m : MetaTable) (n : string) (isFK : bool) :
  MYTableToMetaTable (Some t) = Some m →
  tablesByName (GetTables current) !! k = Some m →
  tablesByName (GetTables desired) !! k = None →
  DropConstraint (tbl_Name m) n isFK ∈ DiffDatabase σ current desired ↔
  if isFK then ∃ fk, Some fk ∈ myt_ForeignKeys t ∧ myf_Name fk = n
  else ∃ idx, idx ∈ myt_Indexes t ∧ myi_Name idx = n
              ∧ (myi_IsUnique idx = true
                 ∨ (strings_ToUpper (myi_IndexType idx) = "PRIMARY"
                    ∧ strings_ToUpper (myi_Name idx) = "PRIMARY")).
Proof using Type.
  intros Hm Hcur Hdes.
  pose proof (MYTable_elements t) as Helems. rewrite Hm in Helems.
  injection Helems as Helems.
  rewrite (dropped_table_constraint σ current desired k m n isFK Hcur Hdes),
    Helems, !tableConstraints_app, tableConstraints_columns,
    !tableConstraints_constraints.
  simpl. split.
  - intros (tc & [Htc|Htc]%elem_of_app & <- & <-);
      apply list_elem_of_omap in Htc as (x & Hx & Htc).
    + destruct x as [fk|]; [|done]. injection Htc as <-. simpl. by exists fk.
    + destruct (myi_IsUnique x) eqn:Hu; simpl in Htc.
      * rewrite andb_false_r in Htc. injection Htc as <-. simpl.
        exists x. split_and!; [done..|]. by left.
      * case_bool_decide as Hty; [|done]. simpl in Htc.
        rewrite andb_true_r in Htc.
        case_bool_decide as Hname; [|done]. simpl in Htc.
        injection Htc as <-. simpl. exists x. split_and!; [done..|]. by right.
  - destruct isFK.
    + intros (fk & Hfk & <-).
      assert (is_Some (MYForeignKeyToTableConstraint (Some fk))) as [tc Htc]
        by by eexists.
      exists tc. split.
      * apply elem_of_app. left. apply list_elem_of_omap. by exists (Some fk).
      * simpl in Htc. by injection Htc as <-.
    + intros (idx & Hidx & <- & Hprom).
      exists {| tc_Name := myi_Name idx;
                tc_Spec := Some (TableConstraintSpec_UniqueItem
                  {| uq_IsPrimary :=
                       bool_decide (strings_ToUpper (myi_Name idx) = "PRIMARY");
                     uq_Columns := myi_Columns idx;
                     uq_IndexName := myi_Name idx |}) |}.
      split; [|done]. apply elem_of_app. right.
      apply list_elem_of_omap. exists idx. split; [done|].
      destruct Hprom as [Hu|[Hty Hname]].
      * rewrite Hu. simpl. by rewrite andb_false_r.
      * rewrite (bool_decide_eq_true_2 _ Hty), orb_true_r. simpl.
        by rewrite (bool_decide_eq_true_2 _ Hname).
Qed.

End Model.

Arguments Ok {_ _ A} a.
Arguments Failed {_ _ A} e.

(** * Worked examples *)

(** C2, as stated, fails.  [current] holds the tables [a] and [b], [desired]
    is empty.  The run that visits the table index in the order [a], [b]
    returns the two DropTable changes in that order, the run that visits it
    in the order [b], [a] returns them in the opposite order: two runs on the
    same input, two output lists. *)
Lemma DiffDatabase_runs_differ :
  DiffDatabase inOrder
    (databaseLit (DataType := ScalarType)
       [tableLit (named "a") []; tableLit (named "b") []])
    (databaseLit [])
  = [DropTable (named "a"); DropTable (named "b")]
  ∧ DiffDatabase reversed
      (databaseLit (DataType := ScalarType)
         [tableLit (named "a") []; tableLit (named "b") []])
      (databaseLit [])
    = [DropTable (named "b"); DropTable (named "a")]
  ∧ DiffDatabase inOrder
      (databaseLit (DataType := ScalarType)
         [tableLit (named "a") []; tableLit (named "b") []])
      (databaseLit [])
    ≠ DiffDatabase reversed
        (databaseLit (DataType := ScalarType)
           [tableLit (named "a") []; tableLit (named "b") []])
        (databaseLit []).
Proof.
  assert (H1 : DiffDatabase inOrder
                 (databaseLit (DataType := ScalarType)
                    [tableLit (named "a") []; tableLit (named "b") []])
                 (databaseLit [])
               = [DropTable (named "a"); DropTable (named "b")])
    by (vm_compute; reflexivity).
  assert (H2 : DiffDatabase reversed
                 (databaseLit (DataType := ScalarType)
                    [tableLit (named "a") []; tableLit (named "b") []])
                 (databaseLit [])
               = [DropTable (named "b"); DropTable (named "a")])
    by (vm_compute; reflexivity).
  split_and!; [done..|]. rewrite H1, H2. discriminate.
Qed.

(** C4 at its failing input.  [current] holds the table [orders] with one
    table constraint that has no name (a CHECK), [desired] is empty.  Under
    every iteration order the output is a DropConstraint with the empty
    constraint name followed by the DropTable. *)
Theorem dropped_table_unnamed_constraint (σ : Schedule) :
  DiffDatabase σ
    (databaseLit (DataType := ScalarType)
       [tableLit (named "orders")
          [constraintElem "" (Some (TableConstraintSpec_CheckItem None))]])
    (databaseLit [])
  = [DropConstraint (named "orders") "" false; DropTable (named "orders")].
Proof.
  apply (StronglySorted_unique_strong prio_le).
  - intros x1 x2 Hx1 Hx2. rewrite DiffDatabase_perm in Hx1.
    vm_compute in Hx1.
    apply elem_of_cons in Hx1 as [->|Hx1];
      [|apply list_elem_of_singleton in Hx1 as ->];
      (apply elem_of_cons in Hx2 as [->|Hx2];
       [|apply list_elem_of_singleton in Hx2 as ->]);
      unfold prio_le; simpl; intros; try done; lia.
  - apply SortChanges_sorted.
  - repeat constructor; unfold prio_le; simpl; lia.
  - rewrite DiffDatabase_perm. vm_compute. reflexivity.
Qed.

(** C6 at a concrete input: table [users] with the columns [id], [name]
    (comment "User name") and [legacy_field] in [current], and [id] (now with
    an inline primary key and an identity option), [name] (comment "Full
    name") and [email] in [desired]. *)
Lemma column_changes_witness :
  countb (isDropColumn (named "users") "legacy_field")
    (DiffDatabase inOrder
       (databaseLit (DataType := ScalarType)
          [tableLit (named "users")
             [columnElem "id" "" (Some IntData);
              columnElem "name" "User name" (Some TextData);
              columnElem "legacy_field" "" None]])
       (databaseLit
          [tableLit (named "users")
             [constrainedColumnElem "id" (Some IntData)
                {["IsIdentity" := "true"]}
                [{| cc_Name := "PRIMARY KEY";
                    cc_Spec := Some (ColumnConstraintSpec_UniqueItem true) |}];
              columnElem "name" "Full name" (Some TextData);
              columnElem "email" "" (Some TextData)]])) = 1
  ∧ countb (isAddColumn (named "users") "email")
      (DiffDatabase inOrder
         (databaseLit (DataType := ScalarType)
            [tableLit (named "users")
               [columnElem "id" "" (Some IntData);
                columnElem "name" "User name" (Some TextData);
                columnElem "legacy_field" "" None]])
         (databaseLit
            [tableLit (named "users")
               [constrainedColumnElem "id" (Some IntData)
                  {["IsIdentity" := "true"]}
                  [{| cc_Name := "PRIMARY KEY";
                      cc_Spec := Some (ColumnConstraintSpec_UniqueItem true) |}];
                columnElem "name" "Full name" (Some TextData);
                columnElem "email" "" (Some TextData)]])) = 1
  ∧ countb (isAlterColumn (named "users") "name")
      (DiffDatabase inOrder
         (databaseLit (DataType := ScalarType)
            [tableLit (named "users")
               [columnElem "id" "" (Some IntData);
                columnElem "name" "User name" (Some TextData);
                columnElem "legacy_field" "" None]])
         (databaseLit
            [tableLit (named "users")
               [constrainedColumnElem "id" (Some IntData)
                  {["IsIdentity" := "true"]}
                  [{| cc_Name := "PRIMARY KEY";
                      cc_Spec := Some (ColumnConstraintSpec_UniqueItem true) |}];
                columnElem "name" "Full name" (Some TextData);
                columnElem "email" "" (Some TextData)]])) = 1
  ∧ countb (isAlterColumn (named "users") "id")
      (DiffDatabase inOrder
         (databaseLit (DataType := ScalarType)
            [tableLit (named "users")
               [columnElem "id" "" (Some IntData);
                columnElem "name" "User name" (Some TextData);
                columnElem "legacy_field" "" None]])
         (databaseLit
            [tableLit (named "users")
               [constrainedColumnElem "id" (Some IntData)
                  {["IsIdentity" := "true"]}
                  [{| cc_Name := "PRIMARY KEY";
                      cc_Spec := Some (ColumnConstraintSpec_UniqueItem true) |}];
                columnElem "name" "Full name" (Some TextData);
                columnElem "email" "" (Some TextData)]])) = 0.
Proof.
  split_and!;
    match goal with
    | |- countb (_ _ ?column) (DiffDatabase _ ?cur ?des) = _ =>
        edestruct (@column_changes ScalarType _)
          with (σ := inOrder) (current := cur) (desired := des)
               (k := "users") (name := column)
          as (Hdrop & Hadd & Halter & _); [reflexivity|reflexivity|]
    end.
  - exact Hdrop.
  - exact Hadd.
  - exact Halter.
  - exact Halter.
Defined.

(** C7 at a concrete input: table [orders] holds a constraint [fk_user] on
    both sides, a foreign key in [current] and a primary key in [desired]; no
    change of the output is a constraint change of [orders] for [fk_user]. *)
Lemma same_name_constraints_witness :
  constraintsFromElements (DataType := ScalarType)
    [constraintElem "fk_user"
       (Some (TableConstraintSpec_ReferenceItem emptyReference))]
  !! "fk_user"
  = Some {| tc_Name := "fk_user";
            tc_Spec := Some (TableConstraintSpec_ReferenceItem emptyReference) |}
  ∧ ∀ ch,
      ch ∈ DiffDatabase inOrder
             (databaseLit (DataType := ScalarType)
                [tableLit (named "orders")
                   [constraintElem "fk_user"
                      (Some (TableConstraintSpec_ReferenceItem emptyReference))]])
             (databaseLit
                [tableLit (named "orders")
                   [constraintElem "fk_user"
                      (Some (TableConstraintSpec_UniqueItem
                               {| uq_IsPrimary := true; uq_Columns := ["id"];
                                  uq_IndexName := "" |}))]]) →
      ¬ (changeTableName ch = named "orders"
         ∧ changeConstraintName ch = Some "fk_user").
Proof.
  split; [reflexivity|].
  match goal with
  | |- ∀ ch, ch ∈ DiffDatabase _ (databaseLit [?c]) (databaseLit [?d]) → _ =>
      refine (same_name_constraints inOrder (databaseLit [c]) (databaseLit [d])
                "orders" c d "fk_user" _ _ _ _ _ _); reflexivity
  end.
Defined.

(** C10 at a concrete input: the only table of [current] has a nil name, the
    only table of [desired] has a name without identifiers. *)
Lemma nameless_tables_witness :
  tableName (tbl_Name (tableLit (DataType := ScalarType) None
                         [columnElem "id" "" (Some IntData)])) = ""
  ∧ tableName (tbl_Name (tableLit (DataType := ScalarType)
                           (Some {| Idents := [] |})
                           [columnElem "id" "" (Some IntData);
                            columnElem "email" "" (Some TextData)])) = ""
  ∧ is_Some (tablesByName
               (GetTables (databaseLit (DataType := ScalarType)
                             [tableLit None [columnElem "id" "" (Some IntData)]]))
             !! "")
  ∧ is_Some (tablesByName
               (GetTables (databaseLit (DataType := ScalarType)
                             [tableLit (Some {| Idents := [] |})
                                [columnElem "id" "" (Some IntData);
                                 columnElem "email" "" (Some TextData)]]))
             !! "")
  ∧ ∀ ch,
      ch ∈ DiffDatabase inOrder
             (databaseLit (DataType := ScalarType)
                [tableLit None [columnElem "id" "" (Some IntData)]])
             (databaseLit
                [tableLit (Some {| Idents := [] |})
                   [columnElem "id" "" (Some IntData);
                    columnElem "email" "" (Some TextData)]]) →
      match ch with
      | DropTable tn => ¬ nameless tn
      | AddTable t => ¬ nameless (tbl_Name t)
      | _ => True
      end.
Proof.
  apply (nameless_tables inOrder
           (databaseLit [tableLit None [columnElem "id" "" (Some IntData)]])
           (databaseLit
              [tableLit (Some {| Idents := [] |})
                 [columnElem "id" "" (Some IntData);
                  columnElem "email" "" (Some TextData)]])
           (tableLit None [columnElem "id" "" (Some IntData)])
           (tableLit (Some {| Idents := [] |})
              [columnElem "id" "" (Some IntData);
               columnElem "email" "" (Some TextData)])).
  - simpl. left.
  - simpl. left.
  - simpl. exact I.
  - simpl. reflexivity.
Defined.


(** X2 at a concrete input: a slice already in priority order, with two
    changes of equal priority, is returned as it is. *)
Lemma SortChanges_sorted_input_witness :
  SortChanges (DataType := ScalarType)
    [DropConstraint (named "orders") "fk_user" true;
     DropTable (named "b"); DropTable (named "a");
     AddTable (tableLit (named "users") [])]
  = [DropConstraint (named "orders") "fk_user" true;
     DropTable (named "b"); DropTable (named "a");
     AddTable (tableLit (named "users") [])].
Proof.
  apply (SortChanges_sorted_input (DataType := ScalarType)).
  repeat constructor; simpl; lia.
Defined.

(** X4 at a concrete input: [desired] adds the table [users] to the table
    [orders] that both sides hold. *)
Lemma added_table_witness :
  filter (λ ch, changeTableName ch = named "users")
    (DiffDatabase inOrder
       (databaseLit (DataType := ScalarType)
          [tableLit (named "orders") [columnElem "id" "" (Some IntData)]])
       (databaseLit
          [tableLit (named "orders")
             [columnElem "id" "" (Some IntData);
              columnElem "user_id" "" (Some IntData)];
           tableLit (named "users") [columnElem "id" "" (Some IntData)]]))
  = [AddTable (tableLit (named "users") [columnElem "id" "" (Some IntData)])].
Proof.
  match goal with
  | |- filter _ (DiffDatabase _ ?cur ?des) = [AddTable ?d] =>
      refine (added_table inOrder cur des "users" d _ _); reflexivity
  end.
Defined.

(** X5 at a concrete input: [current] holds the table [orders] with a foreign
    key, a column and an unnamed check; [desired] holds another table. *)
Lemma dropped_table_witness :
  ∃ drops,
    filter (λ ch, changeTableName ch = named "orders")
      (DiffDatabase inOrder
         (databaseLit (DataType := ScalarType)
            [tableLit (named "orders")
               [constraintElem "fk_user"
                  (Some (TableConstraintSpec_ReferenceItem emptyReference));
                columnElem "id" "" (Some IntData);
                constraintElem "" (Some (TableConstraintSpec_CheckItem None))]])
         (databaseLit [tableLit (named "users") []]))
    = drops ++ [DropTable (named "orders")]
    ∧ drops ≡ₚ [DropConstraint (named "orders") "fk_user" true;
                DropConstraint (named "orders") "" false].
Proof.
  match goal with
  | |- ∃ _, filter _ (DiffDatabase _ (databaseLit [?t]) ?des) = _ ∧ _ =>
      refine (dropped_table inOrder (databaseLit [t]) des "orders" t _ _);
        reflexivity
  end.
Defined.

(** X6 at a concrete input: the table [users] is on both sides, with a new
    comment, a dropped and an added column; [orders] is dropped. *)
Lemma kept_table_witness :
  filter (λ ch, changeTableName ch = named "users")
    (DiffDatabase reversed
       (databaseLit (DataType := ScalarType)
          [tableLit (named "orders") [];
           tableLit (named "users")
             [columnElem "id" "" (Some IntData);
              columnElem "legacy_field" "" None]])
       (databaseLit
          [tableLit (named "users")
             [columnElem "id" "" (Some IntData);
              columnElem "email" "" (Some TextData)]]))
  ≡ₚ [DropColumn (named "users") "legacy_field";
      AddColumn (named "users") (columnLit "email" "" (Some TextData))].
Proof.
  match goal with
  | |- filter _ (DiffDatabase _ (databaseLit [?o; ?c]) (databaseLit [?d])) ≡ₚ _ =>
      refine (kept_table reversed inOrder (databaseLit [o; c]) (databaseLit [d])
                "users" c d 0 _ _); reflexivity
  end.
Defined.

(** X7 at a concrete input: the table [orders] loses the foreign key
    [fk_user] and gains the primary key [pk_orders]. *)
Lemma constraint_changes_witness :
  countb (isDropConstraint (named "orders") "fk_user")
    (DiffDatabase inOrder
       (databaseLit (DataType := ScalarType)
          [tableLit (named "orders")
             [constraintElem "fk_user"
                (Some (TableConstraintSpec_ReferenceItem emptyReference))]])
       (databaseLit
          [tableLit (named "orders")
             [constraintElem "pk_orders"
                (Some (TableConstraintSpec_UniqueItem
                         {| uq_IsPrimary := true; uq_Columns := ["id"];
                            uq_IndexName := "" |}))]])) = 1
  ∧ countb (isAddConstraint (named "orders") "pk_orders")
      (DiffDatabase inOrder
         (databaseLit (DataType := ScalarType)
            [tableLit (named "orders")
               [constraintElem "fk_user"
                  (Some (TableConstraintSpec_ReferenceItem emptyReference))]])
         (databaseLit
            [tableLit (named "orders")
               [constraintElem "pk_orders"
                  (Some (TableConstraintSpec_UniqueItem
                           {| uq_IsPrimary := true; uq_Columns := ["id"];
                              uq_IndexName := "" |}))]])) = 1.
Proof.
  split;
    match goal with
    | |- countb (_ _ ?constraint) (DiffDatabase _ ?cur ?des) = _ =>
        edestruct (@constraint_changes ScalarType _)
          with (σ := inOrder) (current := cur) (desired := des)
               (k := "orders") (name := constraint)
          as (Hdrop & Hadd & _); [reflexivity|reflexivity|]
    end.
  - exact Hdrop.
  - exact Hadd.
Defined.

(** X8 at a concrete input: the table [users] keeps its comment and changes
    the value of one option. *)
Lemma table_option_changes_witness :
  countb (isAlterTableOptions (named "users"))
    (DiffDatabase inOrder
       (databaseLit (DataType := ScalarType)
          [{| tbl_Name := named "users"; tbl_Type := "BASE TABLE";
              tbl_Elements := []; tbl_Comment := "people";
              tbl_Options := {["Engine" := "MyISAM"]} |}])
       (databaseLit
          [{| tbl_Name := named "users"; tbl_Type := "BASE TABLE";
              tbl_Elements := []; tbl_Comment := "people";
              tbl_Options := {["Engine" := "InnoDB"]} |}])) = 1.
Proof.
  match goal with
  | |- countb _ (DiffDatabase _ (databaseLit [?c]) (databaseLit [?d])) = _ =>
      edestruct (@table_option_changes ScalarType _)
        with (σ := inOrder) (current := databaseLit [c])
             (desired := databaseLit [d]) (k := "users")
        as (Hcount & _); [reflexivity|reflexivity|]
  end.
  exact Hcount.
Defined.

(** X9 at a concrete input: a nil [current]. *)
Lemma one_side_empty_witness :
  DiffDatabase inOrder None
    (databaseLit (DataType := ScalarType)
       [tableLit (named "users") []; tableLit (named "orders") []])
  ≡ₚ [AddTable (tableLit (named "users") []);
      AddTable (tableLit (named "orders") [])].
Proof.
  match goal with
  | |- DiffDatabase _ ?cur ?des ≡ₚ _ =>
      destruct (one_side_empty (DataType := ScalarType) inOrder cur des)
        as [Hadd _]
  end.
  etrans; [apply Hadd; reflexivity|].
  vm_compute. first [reflexivity | apply Permutation_swap].
Defined.


(** X21 at a concrete input: on the file system [mapWriteFile]/[mapReadFile]
    with the name codec, the database [shop] saved as JSON under a path with
    an upper-case extension is loaded back from that path. *)
Lemma save_load_round_trip_witness :
  SaveMetaDatabaseToFile (DataType := ScalarType) mapWriteFile unixExt
    asciiToLower nameMarshal nameMarshal nameMarshal
    ∅ (Some {| db_Name := "shop"; db_Tables := [] |}) "out.d/schema.JSON"
  = (<["out.d/schema.JSON" := "shop"]> ∅, None)
  ∧ LoadMetaDatabaseFromFile (DataType := ScalarType) mapReadFile unixExt
      asciiToLower nameUnmarshal nameUnmarshal nameUnmarshal
      (<["out.d/schema.JSON" := "shop"]> ∅) "out.d/schema.JSON"
    = Ok {| db_Name := "shop"; db_Tables := [] |}.
Proof.
  assert (Hsave :
    SaveMetaDatabaseToFile (DataType := ScalarType) mapWriteFile unixExt
      asciiToLower nameMarshal nameMarshal nameMarshal
      ∅ (Some {| db_Name := "shop"; db_Tables := [] |}) "out.d/schema.JSON"
    = (<["out.d/schema.JSON" := "shop"]> ∅, None))
    by (vm_compute; reflexivity).
  split; [exact Hsave|].
  refine (save_load_round_trip mapReadFile mapWriteFile unixExt asciiToLower
            nameUnmarshal nameUnmarshal nameUnmarshal
            nameMarshal nameMarshal nameMarshal
            ∅ _ _ _ _ _ _ _ Hsave).
  - intros fs0 p data fs1 [= <-]. unfold mapReadFile.
    by rewrite lookup_insert_eq.
  - intros [name [|? ?]] data; simpl; intros [= <-]; reflexivity.
  - intros [name [|? ?]] data; simpl; intros [= <-]; reflexivity.
  - intros [name [|? ?]] data; simpl; intros [= <-]; reflexivity.
Defined.

(** X22 at a concrete input: a directory listing with a subdirectory, a file
    that is no table file and two table files; the two table files are
    loaded, in the order of the listing. *)
Lemma load_directory_witness :
  LoadMetaDatabaseFromDir (DataType := ScalarType) mapReadFile
    (λ _ _, inr [ {| de_Name := "old.table.d"; de_IsDir := true |};
                  {| de_Name := "README.md"; de_IsDir := false |};
                  {| de_Name := "users.table.json"; de_IsDir := false |};
                  {| de_Name := "orders.table.TEXTPB"; de_IsDir := false |} ])
    unixExt slashJoin asciiToLower
    nameUnmarshalTable nameUnmarshalTable nameUnmarshalTable
    {[ "schema/users.table.json" := "users";
       "schema/orders.table.TEXTPB" := "orders" ]}
    "schema" "shop"
  = Ok {| db_Name := "shop";
          db_Tables := [tableLit (named "users") [];
                        tableLit (named "orders") []] |}.
Proof.
  match goal with
  | |- LoadMetaDatabaseFromDir _ ?readDir _ _ _ _ _ _ ?fs ?dir ?dbName = _ =>
      destruct (load_directory (DataType := ScalarType) mapReadFile readDir
                  unixExt slashJoin asciiToLower
                  nameUnmarshalTable nameUnmarshalTable nameUnmarshalTable
                  fs dir dbName) as [Hlisted _]
  end.
  edestruct Hlisted as [Hok _]; [reflexivity|].
  apply Hok. split; [reflexivity|].
  repeat constructor.
Defined.


(** X24 at a concrete input: the Postgres table [orders] with a primary key,
    an exclusion constraint and a foreign key is dropped. *)
Lemma dropped_postgres_table_witness :
  ∃ m,
    PGTableToMetaTable (DataType := ScalarType) asciiToUpper (λ s, s)
      (Some {| pgt_Name := named "orders"; pgt_TableType := "BASE TABLE";
               pgt_Comment := ""; pgt_Owner := "app"; pgt_Persistence := "";
               pgt_HasRowSecurity := false; pgt_RowSecurityForced := false;
               pgt_Columns := [];
               pgt_Constraints :=
                 [Some {| pgk_Name := "orders_pkey"; pgk_Type := "p";
                          pgk_Columns := ["id"]; pgk_Definition := "" |};
                  Some {| pgk_Name := "orders_excl"; pgk_Type := "x";
                          pgk_Columns := []; pgk_Definition := "" |}];
               pgt_ForeignKeys :=
                 [Some {| pgf_Name := "fk_user"; pgf_LocalColumns := ["user_id"];
                          pgf_ForeignTable := named "users";
                          pgf_ForeignColumns := ["id"];
                          pgf_OnUpdate := "no action"; pgf_OnDelete := "cascade";
                          pgf_MatchOption := "" |}];
               pgt_Indexes := [] |})
    = Some m
    ∧ DropConstraint (tbl_Name m) "fk_user" true
      ∈ DiffDatabase inOrder (databaseLit [m]) (databaseLit []).
Proof.
  match goal with
  | |- ∃ m, PGTableToMetaTable ?up ?ms (Some ?t) = Some m ∧ _ =>
      eexists; split; [reflexivity|];
      apply (dropped_postgres_table up ms inOrder _ _ "orders" t _ "fk_user" true);
        [reflexivity..|]
  end.
  eexists. split; [left|reflexivity].
Defined.

(** X25 at a concrete input: the MySQL table [orders] with its primary index,
    a plain index and a foreign key is dropped. *)
Lemma dropped_mysql_table_witness :
  ∃ m,
    MYTableToMetaTable (DataType := ScalarType) asciiToUpper (λ s, s)
      (Some {| myt_Name := named "orders"; myt_Comment := "";
               myt_Engine := "InnoDB"; myt_Charset := ""; myt_Collation := "";
               myt_Columns := [];
               myt_ForeignKeys :=
                 [Some {| myf_Name := "fk_user"; myf_LocalColumns := ["user_id"];
                          myf_ForeignTable := named "users";
                          myf_ForeignColumns := ["id"];
                          myf_OnUpdate := ""; myf_OnDelete := "CASCADE" |}];
               myt_Indexes :=
                 [ {| myi_Name := "PRIMARY"; myi_Columns := ["id"];
                      myi_IsUnique := true; myi_IndexType := "BTREE" |};
                   {| myi_Name := "idx_created"; myi_Columns := ["created"];
                      myi_IsUnique := false; myi_IndexType := "BTREE" |} ] |})
    = Some m
    ∧ DropConstraint (tbl_Name m) "PRIMARY" false
      ∈ DiffDatabase inOrder (databaseLit [m]) (databaseLit []).
Proof.
  match goal with
  | |- ∃ m, MYTableToMetaTable ?up ?ms (Some ?t) = Some m ∧ _ =>
      eexists; split; [reflexivity|];
      apply (dropped_mysql_table up ms inOrder _ _ "orders" t _ "PRIMARY" false);
        [reflexivity..|]
  end.
  eexists. split; [left|]. split; [reflexivity|]. left. reflexivity.
Defined.
